(** * The product-page media matcher of [src/merge-product-media.ts]

    A shallow embedding of the matcher script: string helpers of the
    JavaScript runtime, the regular expressions the script splits with,
    the URL record of the platform, and then the script's own functions
    in the order of the source file.

    Strings are [string]s whose characters stand for UTF-16 code units
    below 256; a JavaScript string made of such code units and its model
    have the same length, the same substrings and the same order. *)

From Stdlib Require Import Ascii NArith ZArith QArith.QArith_base Lia Bool.
From stdpp Require Import base gmap strings list.


Local Open Scope stdpp_scope.

(** ** Strings of the runtime *)

Module JsString.

Definition code (c : ascii) : N := N_of_ascii c.

(** [WhiteSpace] and [LineTerminator] of ECMAScript, below 256: TAB, LF,
    VT, FF, CR, SPACE and NO-BREAK SPACE. This is both what [trim]
    strips and what [\s] matches. *)
Definition isWhite (c : ascii) : bool :=
  let n := code c in
  ((9 <=? n) && (n <=? 13) || (n =? 32) || (n =? 160))%N.

Fixpoint dropWhile (f : ascii -> bool) (s : string) : string :=
  match s with
  | EmptyString => EmptyString
  | String c s' => if f c then dropWhile f s' else s
  end.

(** Drops the longest suffix whose characters all satisfy [f]. *)
Fixpoint dropWhileEnd (f : ascii -> bool) (s : string) : string :=
  match s with
  | EmptyString => EmptyString
  | String c s' =>
      match dropWhileEnd f s' with
      | EmptyString => if f c then EmptyString else String c EmptyString
      | r => String c r
      end
  end.

(** [String.prototype.trim] *)
Definition trim (s : string) : string :=
  dropWhileEnd isWhite (dropWhile isWhite s).

(** [String.prototype.startsWith] *)
Fixpoint startsWith (pat s : string) : bool :=
  match pat, s with
  | EmptyString, _ => true
  | String a pat', String b s' => Ascii.eqb a b && startsWith pat' s'
  | String _ _, EmptyString => false
  end.

(** [String.prototype.includes] *)
Fixpoint includes (pat s : string) : bool :=
  startsWith pat s ||
  match s with
  | EmptyString => false
  | String _ s' => includes pat s'
  end.

(** [String.prototype.endsWith]: some suffix of [s] is [pat]. *)
Fixpoint endsWith (pat s : string) : bool :=
  String.eqb s pat ||
  match s with
  | EmptyString => false
  | String _ s' => endsWith pat s'
  end.

Fixpoint dropChars (n : nat) (s : string) : string :=
  match n, s with
  | O, _ => s
  | S n', String _ s' => dropChars n' s'
  | S _, EmptyString => EmptyString
  end.

(** [s.replace(pat, rep)] with a string pattern: the first occurrence
    only. The pattern is not empty at any call site. *)
Fixpoint replace (pat rep s : string) : string :=
  match s with
  | EmptyString => EmptyString
  | String c s' =>
      if startsWith pat s then rep +:+ dropChars (String.length pat) s
      else String c (replace pat rep s')
  end.

(** [s.replaceAll(pat, rep)] with a non-empty string pattern: the
    occurrences are found from left to right and do not overlap; [skip]
    counts the characters of the occurrence just replaced that are
    still to be passed over. *)
Fixpoint replaceAll_go (pat rep : string) (skip : nat) (s : string) : string :=
  match s with
  | EmptyString => EmptyString
  | String c s' =>
      match skip with
      | S k => replaceAll_go pat rep k s'
      | O =>
          if startsWith pat s
          then rep +:+ replaceAll_go pat rep (String.length pat - 1) s'
          else String c (replaceAll_go pat rep 0 s')
      end
  end.

Definition replaceAll (pat rep s : string) : string :=
  replaceAll_go pat rep 0 s.

(** [String.prototype.toLowerCase] on code units below 256: the Latin
    capital letters A-Z and the capital letters of Latin-1. *)
Definition lowerChar (c : ascii) : ascii :=
  let n := code c in
  if ((65 <=? n) && (n <=? 90) ||
      (192 <=? n) && (n <=? 222) && negb (n =? 215))%N
  then ascii_of_N (n + 32) else c.

Fixpoint toLowerCase (s : string) : string :=
  match s with
  | EmptyString => EmptyString
  | String c s' => String (lowerChar c) (toLowerCase s')
  end.

(** [s.split(sep)] for a one-character separator: never the empty list. *)
Fixpoint splitChar_go (sep : ascii) (cur : string) (s : string) : list string :=
  match s with
  | EmptyString => [String.rev cur]
  | String c s' =>
      if Ascii.eqb c sep then String.rev cur :: splitChar_go sep EmptyString s'
      else splitChar_go sep (String c cur) s'
  end.

Definition splitChar (sep : ascii) (s : string) : list string :=
  splitChar_go sep EmptyString s.

Fixpoint allChars (f : ascii -> bool) (s : string) : bool :=
  match s with
  | EmptyString => true
  | String c s' => f c && allChars f s'
  end.

(** [c] is one of the characters of [s]. *)
Fixpoint charIn (c : ascii) (s : string) : bool :=
  match s with
  | EmptyString => false
  | String a s' => Ascii.eqb c a || charIn c s'
  end.

(** [Boolean] on a string: true unless the string is empty. *)
Definition truthy (s : string) : bool :=
  match s with EmptyString => false | _ => true end.

End JsString.

(** ** Regular expressions

    The backtracking matcher of ECMAScript for the constructs the script
    uses: character classes, sequence, alternation and the greedy star.
    A matcher takes the input that is left and a continuation; the first
    answer in backtracking order is the result. *)

Module Regex.

Inductive regex : Type :=
| Chr (cls : ascii -> bool)
| Seq (r1 r2 : regex)
| Alt (r1 r2 : regex)
| Star (r : regex).

(** [r+] and [r{2,}] *)
Definition Plus (r : regex) : regex := Seq r (Star r).
Definition AtLeast2 (r : regex) : regex := Seq r (Seq r (Star r)).

Section Matcher.
Context {A : Type}.

(** The loop of the greedy star ([RepeatMatcher] with min 0 and no
    max): one more iteration of [m] that consumes input, and when
    that fails the continuation. An iteration that consumes nothing
    is rejected. [fuel] bounds the number of iterations; the length of
    the input is enough as every iteration consumes a character. *)
Fixpoint starLoop (m : string -> (string -> option A) -> option A)
    (fuel : nat) (s : string) (k : string -> option A) : option A :=
  match fuel with
  | O => k s
  | S fuel' =>
      match m s (fun s' =>
              if (String.length s' <? String.length s)%nat
              then starLoop m fuel' s' k else None) with
      | Some x => Some x
      | None => k s
      end
  end.

Fixpoint matcher (r : regex) (s : string) (k : string -> option A) : option A :=
  match r with
  | Chr cls =>
      match s with
      | String c s' => if cls c then k s' else None
      | EmptyString => None
      end
  | Seq r1 r2 => matcher r1 s (fun s' => matcher r2 s' k)
  | Alt r1 r2 =>
      match matcher r1 s k with
      | Some x => Some x
      | None => matcher r2 s k
      end
  | Star r1 => starLoop (matcher r1) (String.length s) s k
  end.
End Matcher.

(** The length of the match of [r] at the start of [s], if any: what a
    sticky [exec] reports through [lastIndex]. *)
Definition matchLength (r : regex) (s : string) : option nat :=
  matcher r s (fun rest => Some (String.length s - String.length rest)%nat).

(** The loop of [RegExp.prototype[Symbol.split]]: [frag] is the text
    between the end of the last separator (index p) and the current
    index q, [s] the input from q on. A match at q that ends after p
    closes the fragment; [skip] counts the characters of that match
    still to be passed over. A match that ends at p advances q. *)
Fixpoint split_go (r : regex) (skip : nat) (frag : string) (s : string)
    : list string :=
  match s with
  | EmptyString => [frag]
  | String c s' =>
      match skip with
      | S k => split_go r k frag s'
      | O =>
          match matchLength r s with
          | Some (S m) => frag :: split_go r m EmptyString s'
          | Some O =>
              match frag with
              | EmptyString => split_go r 0 (String c EmptyString) s'
              | _ => frag :: split_go r 0 (String c EmptyString) s'
              end
          | None => split_go r 0 (frag +:+ String c EmptyString) s'
          end
      end
  end.

(** [s.split(r)] without a limit, for a regex without capture groups. *)
Definition split (r : regex) (s : string) : list string :=
  match s with
  | EmptyString =>
      match matchLength r s with Some _ => [] | None => [EmptyString] end
  | _ => split_go r 0 EmptyString s
  end.

End Regex.

Import JsString.

(** [/\s*[\n,;]+\s*|\s{2,}/g] *)
Definition isSep (c : ascii) : bool :=
  Ascii.eqb c "010" || Ascii.eqb c "," || Ascii.eqb c ";".

Definition oldUrlsSeparator : Regex.regex :=
  Regex.Alt
    (Regex.Seq (Regex.Star (Regex.Chr isWhite))
       (Regex.Seq (Regex.Plus (Regex.Chr isSep)) (Regex.Star (Regex.Chr isWhite))))
    (Regex.AtLeast2 (Regex.Chr isWhite)).

Definition splitOldUrls (oldUrls : string) : list string :=
  filter (fun s => truthy s = true) (map trim (Regex.split oldUrlsSeparator oldUrls)).


(** ** URLs of the platform

    [new URL(s)], [u.hash = ''], [u.search = ''], [u.pathname] and
    [u.toString()] follow the URL Standard. The URL record, the
    serializer, the two setters and the [pathname] getter are modelled in
    full. The script's functions below take the parser as an argument
    [new_URL : string -> option URL] ([None] when the constructor throws),
    so what is proved of them for every parser holds of the platform's.
    [Url.parse] is the instance the worked examples run on. *)

Module Url.

Inductive url_path : Type :=
| Opaque (s : string)
| Segments (l : list string).

Record URL : Type := mkURL {
  scheme : string;
  username : string;
  password : string;
  host : option string;   (* serialized host *)
  port : option N;
  path : url_path;
  query : option string;
  fragment : option string
}.

Fixpoint decimal_go (fuel : nat) (n : N) (acc : string) : string :=
  match fuel with
  | O => acc
  | S fuel' =>
      let acc' := String (ascii_of_N (48 + n mod 10)) acc in
      if (n <? 10)%N then acc' else decimal_go fuel' (n / 10)%N acc'
  end.

(** Shortest decimal representation of a port number. *)
Definition decimal (n : N) : string :=
  decimal_go (S (N.to_nat (N.log2 n))) n EmptyString.

Definition concatMap (f : string -> string) (l : list string) : string :=
  foldr (fun x acc => f x +:+ acc) EmptyString l.

Definition serializePath (p : url_path) : string :=
  match p with
  | Opaque s => s
  | Segments l => concatMap (fun seg => String "/" seg) l
  end.

(** The URL serializer ([href], [toString]). *)
Definition serialize (u : URL) : string :=
  scheme u +:+ ":" +:+
  match host u with
  | Some h =>
      "//" +:+
      (if truthy (username u) || truthy (password u)
       then username u +:+
            (if truthy (password u) then ":" +:+ password u else "") +:+ "@"
       else "") +:+
      h +:+
      match port u with Some n => ":" +:+ decimal n | None => "" end
  | None =>
      match path u with
      | Segments (EmptyString :: _ :: _) => "/."
      | _ => ""
      end
  end +:+
  serializePath (path u) +:+
  match query u with Some q => "?" +:+ q | None => "" end +:+
  match fragment u with Some f => "#" +:+ f | None => "" end.

Definition isSpaceChar (c : ascii) : bool := Ascii.eqb c " ".

(** "Potentially strip trailing spaces from an opaque path". *)
Definition stripTrailingSpaces (u : URL) : URL :=
  match path u, query u, fragment u with
  | Opaque s, None, None =>
      mkURL (scheme u) (username u) (password u) (host u) (port u)
        (Opaque (dropWhileEnd isSpaceChar s)) None None
  | _, _, _ => u
  end.

(** [u.hash = ''] *)
Definition setHashEmpty (u : URL) : URL :=
  stripTrailingSpaces
    (mkURL (scheme u) (username u) (password u) (host u) (port u)
       (path u) (query u) None).

(** [u.search = ''] *)
Definition setSearchEmpty (u : URL) : URL :=
  stripTrailingSpaces
    (mkURL (scheme u) (username u) (password u) (host u) (port u)
       (path u) None (fragment u)).

(** [u.pathname] *)
Definition pathname (u : URL) : string := serializePath (path u).

(** *** The parser instance

    [parse] is the basic URL parser without a base URL for the special
    schemes [http], [https], [ws], [wss] and [ftp], with an ASCII domain
    as host. It answers [None] where the platform reports failure, and
    also on what it does not cover: other schemes, bracketed IPv6
    literals, hosts that end in a number (IPv4), and hosts that need
    percent-decoding or IDNA processing. *)

Definition isAlpha (c : ascii) : bool :=
  let n := code c in
  ((65 <=? n) && (n <=? 90) || (97 <=? n) && (n <=? 122))%N.

Definition isDigit (c : ascii) : bool :=
  let n := code c in ((48 <=? n) && (n <=? 57))%N.

Definition isHexDigit (c : ascii) : bool :=
  let n := code c in
  isDigit c || ((65 <=? n) && (n <=? 70) || (97 <=? n) && (n <=? 102))%N.

Definition asciiLower (c : ascii) : ascii :=
  let n := code c in
  if ((65 <=? n) && (n <=? 90))%N then ascii_of_N (n + 32) else c.

Fixpoint mapChars (f : ascii -> ascii) (s : string) : string :=
  match s with
  | EmptyString => EmptyString
  | String c s' => String (f c) (mapChars f s')
  end.

Fixpoint removeChars (f : ascii -> bool) (s : string) : string :=
  match s with
  | EmptyString => EmptyString
  | String c s' => if f c then removeChars f s' else String c (removeChars f s')
  end.

(** The longest prefix without a character of [stop], and the rest. *)
Fixpoint span (stop : ascii -> bool) (s : string) : string * string :=
  match s with
  | EmptyString => (EmptyString, EmptyString)
  | String c s' =>
      if stop c then (EmptyString, s)
      else let '(a, b) := span stop s' in (String c a, b)
  end.

Definition isC0OrSpace (c : ascii) : bool := (code c <=? 32)%N.
Definition isTabOrNewline (c : ascii) : bool :=
  Ascii.eqb c "009" || Ascii.eqb c "010" || Ascii.eqb c "013".

Definition hexDigit (n : N) : ascii :=
  if (n <? 10)%N then ascii_of_N (48 + n) else ascii_of_N (55 + n).

Definition percentByte (n : N) : string :=
  String "%" (String (hexDigit (n / 16)) (String (hexDigit (n mod 16)) EmptyString)).

(** The percent-encode sets, on code points below 128. *)
Definition inC0ControlSet (c : ascii) : bool :=
  let n := code c in ((n <=? 31) || (126 <? n))%N.
Definition inFragmentSet (c : ascii) : bool :=
  inC0ControlSet c || Ascii.eqb c "034" || charIn c " <>`".
Definition inQuerySet (c : ascii) : bool :=
  inC0ControlSet c || Ascii.eqb c "034" || charIn c " #<>".
Definition inSpecialQuerySet (c : ascii) : bool :=
  inQuerySet c || Ascii.eqb c "'".
Definition inPathSet (c : ascii) : bool :=
  inQuerySet c || charIn c "?^`{}".
Definition inUserinfoSet (c : ascii) : bool :=
  inPathSet c || charIn c "/:;=@[\]|".

(** UTF-8 percent-encode a code point below 256 using a set. *)
Definition encodeChar (set : ascii -> bool) (c : ascii) : string :=
  let n := code c in
  if (n <? 128)%N then
    if set c then percentByte n else String c EmptyString
  else percentByte (192 + n / 64) +:+ percentByte (128 + n mod 64).

Fixpoint encode (set : ascii -> bool) (s : string) : string :=
  match s with
  | EmptyString => EmptyString
  | String c s' => encodeChar set c +:+ encode set s'
  end.

Definition isSpecialScheme (s : string) : bool :=
  bool_decide (s ∈ ["ftp"; "http"; "https"; "ws"; "wss"]).

Definition defaultPort (s : string) : option N :=
  if String.eqb s "ftp" then Some 21%N
  else if String.eqb s "http" || String.eqb s "ws" then Some 80%N
  else if String.eqb s "https" || String.eqb s "wss" then Some 443%N
  else None.

(** Scheme state: the rest of the scheme up to its colon, in lower
    case, and what follows the colon. *)
Fixpoint schemeRest (s : string) : option (string * string) :=
  match s with
  | EmptyString => None
  | String c s' =>
      if Ascii.eqb c ":" then Some (EmptyString, s')
      else if isAlpha c || isDigit c || charIn c "+-." then
        match schemeRest s' with
        | Some (b, r) => Some (String (asciiLower c) b, r)
        | None => None
        end
      else None
  end.

Definition parseScheme (s : string) : option (string * string) :=
  match s with
  | String c _ => if isAlpha c then schemeRest s else None
  | EmptyString => None
  end.

Definition isSlash (c : ascii) : bool := Ascii.eqb c "/" || Ascii.eqb c "\".
Definition endsAuthority (c : ascii) : bool :=
  isSlash c || Ascii.eqb c "?" || Ascii.eqb c "#".

(** Splits at the last [@]: the credentials, if any, and the host and
    port. *)
Fixpoint splitLastAt (s : string) : option string * string :=
  match s with
  | EmptyString => (None, EmptyString)
  | String c s' =>
      match splitLastAt s' with
      | (Some u, h) => (Some (String c u), h)
      | (None, h) =>
          if Ascii.eqb c "@" then (Some EmptyString, h) else (None, String c h)
      end
  end.

(** Authority state on the text before the last [@]: an earlier [@] is
    kept as [%40], the first colon separates the password. *)
Fixpoint credentials (inPassword : bool) (s : string) : string * string :=
  match s with
  | EmptyString => (EmptyString, EmptyString)
  | String c s' =>
      if Ascii.eqb c ":" && negb inPassword then credentials true s'
      else
        let e := if Ascii.eqb c "@" then "%40" else encodeChar inUserinfoSet c in
        let '(u, p) := credentials inPassword s' in
        if inPassword then (u, e +:+ p) else (e +:+ u, p)
  end.

Definition isForbiddenDomainChar (c : ascii) : bool :=
  let n := code c in
  ((n <=? 32) || (n =? 127))%N ||
  charIn c "#/:<>?@[\]^|%".

(** The last label, after one trailing dot is dropped, is a number:
    digits only, or [0x] and hexadecimal digits. *)
Definition isNumberLabel (l : string) : bool :=
  match l with
  | EmptyString => false
  | String "0" (String x r) =>
      if Ascii.eqb x "x" || Ascii.eqb x "X" then allChars isHexDigit r
      else allChars isDigit l
  | _ => allChars isDigit l
  end.

Definition endsInNumber (h : string) : bool :=
  match reverse (splitChar "." h) with
  | EmptyString :: l :: _ => isNumberLabel l
  | l :: _ => isNumberLabel l
  | [] => false
  end.

(** Host parsing of a special URL, for ASCII domains. *)
Definition parseHost (h : string) : option string :=
  let d := mapChars asciiLower h in
  if truthy h
     && allChars (fun c => (code c <? 128)%N && negb (isForbiddenDomainChar c)) h
     && negb (endsInNumber d)
     && forallb (fun l => negb (startsWith "xn--" l)) (splitChar "." d)
  then Some d else None.

Fixpoint decimalValue (acc : N) (s : string) : N :=
  match s with
  | EmptyString => acc
  | String c s' => decimalValue (acc * 10 + (code c - 48))%N s'
  end.

(** Port state. *)
Definition parsePort (sch p : string) : option (option N) :=
  if negb (allChars isDigit p) then None
  else if truthy p then
    let n := decimalValue 0 p in
    if (65535 <? n)%N then None
    else if bool_decide (defaultPort sch = Some n) then Some None
    else Some (Some n)
  else Some None.

Definition isSingleDot (b : string) : bool :=
  let l := mapChars asciiLower b in
  bool_decide (l ∈ ["."; "%2e"]).
Definition isDoubleDot (b : string) : bool :=
  let l := mapChars asciiLower b in
  bool_decide (l ∈ [".."; ".%2e"; "%2e."; "%2e%2e"]).

(** Path state at the end of a segment; [slash] tells whether a slash
    ended it. *)
Definition closeSegment (segs : list string) (buf : string) (slash : bool)
    : list string :=
  if isDoubleDot buf then
    let segs' := removelast segs in
    if slash then segs' else segs' ++ [EmptyString]
  else if isSingleDot buf then
    if slash then segs else segs ++ [EmptyString]
  else segs ++ [buf].

(** Path state of a special URL: the segments, and the input from the
    first [?] or [#] on. *)
Fixpoint pathState (segs : list string) (buf : string) (s : string)
    : list string * string :=
  match s with
  | EmptyString => (closeSegment segs buf false, EmptyString)
  | String c s' =>
      if Ascii.eqb c "?" || Ascii.eqb c "#" then (closeSegment segs buf false, s)
      else if isSlash c then pathState (closeSegment segs buf true) EmptyString s'
      else pathState segs (buf +:+ encodeChar inPathSet c) s'
  end.

(** Query and fragment states on the input from the first [?] or [#]. *)
Definition parseQueryFragment (s : string) : option string * option string :=
  let frag (t : string) :=
    match t with
    | String "#" f => Some (encode inFragmentSet f)
    | _ => None
    end in
  match s with
  | String "?" t =>
      let '(q, r) := span (fun c => Ascii.eqb c "#") t in
      (Some (encode inSpecialQuerySet q), frag r)
  | _ => (None, frag s)
  end.

Definition parse (input : string) : option URL :=
  let s := removeChars isTabOrNewline
             (dropWhileEnd isC0OrSpace (dropWhile isC0OrSpace input)) in
  match parseScheme s with
  | None => None                            (* no scheme, no base *)
  | Some (sch, rest) =>
      if negb (isSpecialScheme sch) then None
      else
        (* special authority slashes, special authority ignore slashes *)
        let '(auth, rest) := span endsAuthority (dropWhile isSlash rest) in
        let '(cred, hostport) := splitLastAt auth in
        let '(h, p) := span (fun c => Ascii.eqb c ":") hostport in
        let '(user, pass) :=
          match cred with
          | Some c => credentials false c
          | None => (EmptyString, EmptyString)
          end in
        match parseHost h, parsePort sch (dropChars 1 p) with
        | Some h', Some port' =>
            (* path start state *)
            let rest := match rest with
                        | String c r => if isSlash c then r else rest
                        | EmptyString => rest
                        end in
            let '(segs, rest) := pathState [] EmptyString rest in
            let '(q, f) := parseQueryFragment rest in
            Some (mkURL sch user pass (Some h') port' (Segments segs) q f)
        | _, _ => None
        end
  end.

End Url.



(** ** Data of the script *)

(** A parsed JSON document. A number is a finite double, hence a
    rational. *)
#[warnings="-register-all"]
Inductive JSON : Type :=
| JNull
| JBool (b : bool)
| JNumber (q : Q)
| JString (s : string)
| JArray (l : list JSON)
| JObject (fields : gmap string JSON).

(** [type PageMedia] *)
Record PageMedia : Type := mkPage {
  link : string;
  images : list string;
  mapIframe : option string
}.

(** [type Product]: an object with arbitrary fields. *)
Abbreviation Product := (gmap string JSON).

(** ['nl' | 'en'] *)
Inductive Lang : Type := NL | EN.

Definition langSegment (l : Lang) : string :=
  match l with NL => "/nl/" | EN => "/en/" end.

(** [p?.k] on a parsed document: only an object has the fields read
    here. *)
Definition getField (j : JSON) (k : string) : option JSON :=
  match j with
  | JObject fields => fields !! k
  | _ => None
  end.

(** [typeof x === 'string' ? x : ''] on a field that may be absent. *)
Definition stringOrEmpty (j : option JSON) : string :=
  match j with
  | Some (JString s) => s
  | _ => EmptyString
  end.

(** A [Set] of strings in insertion order. *)
Definition setAdd (out : list string) (x : string) : list string :=
  if bool_decide (x ∈ out) then out else out ++ [x].

Definition setOf (l : list string) : list string := fold_left setAdd l [].

(** The finite number a [--limit] argument stands for, as [getArgInt]
    returns it ([None] for [undefined]). *)
Abbreviation Limit := (option Q).

(** [ToIntegerOrInfinity] of a finite number: truncation. *)
Definition toInteger (q : Q) : Z := Z.quot (Qnum q) (Zpos (Qden q)).

(** [q < n] for an array length [n]. *)
Definition ltLength (q : Q) (n : nat) : bool :=
  (Qnum q <? Z.of_nat n * Zpos (Qden q))%Z.

(** [Math.max(0, q)] *)
Definition max0 (q : Q) : Q := if (Qnum q <? 0)%Z then 0%Q else q.

(** [a.slice(0, e)] *)
Definition sliceTo {A} (e : Q) (a : list A) : list A :=
  let r := toInteger e in
  let final := if (r <? 0)%Z then Z.max (Z.of_nat (length a) + r) 0
               else Z.min r (Z.of_nat (length a)) in
  take (Z.to_nat final) a.

(** [a.slice(b)] *)
Definition sliceFrom {A} (b : Q) (a : list A) : list A :=
  let r := toInteger b in
  let k := if (r <? 0)%Z then Z.max (Z.of_nat (length a) + r) 0
           else Z.min r (Z.of_nat (length a)) in
  drop (Z.to_nat k) a.

(** ** The functions of the script *)

Section Script.

Variable new_URL : string -> option Url.URL.

Definition normalizeUrlish (input : string) : string :=
  let s := replaceAll "\/" "/" (trim input) in
  match new_URL s with
  | Some u => Url.serialize (Url.setHashEmpty u)
  | None => s
  end.

Definition normalizeForMatch (urlStr : string) : string * string :=
  let normalized := normalizeUrlish urlStr in
  match new_URL normalized with
  | Some u => (Url.serialize u, Url.serialize (Url.setSearchEmpty u))
  | None => (normalized, normalized)
  end.

Definition pathTail (urlStr : string) : option string :=
  let parts :=
    match new_URL urlStr with
    | Some u => filter (fun s => truthy s = true) (splitChar "/" (Url.pathname u))
    | None => filter (fun s => truthy s = true) (splitChar "/" urlStr)
    end in
  last parts.

Definition deriveCandidatesFromOldUrl (oldUrl : string) : list string :=
  let '(full, noQuery) := normalizeForMatch oldUrl in
  fold_left
    (fun out u =>
       setAdd (setAdd (setAdd out
         (replace "/nl/golfreis/" "/nl/" u))
         (replace "/en/golfreis/" "/en/" u))
         (replace "/golfreis/" "/" u))
    [full; noQuery]
    (setOf [full; noQuery]).

End Script.

Definition isAlnumLower (c : ascii) : bool :=
  let n := code c in
  ((97 <=? n) && (n <=? 122) || (48 <=? n) && (n <=? 57))%N.

(** [/[^a-z0-9]+/g] *)
Definition tokenSeparator : Regex.regex :=
  Regex.Plus (Regex.Chr (fun c => negb (isAlnumLower c))).

Definition stopWords : list string :=
  ["golf"; "of"; "the"; "and"; "tour"; "tours"; "short"; "break"; "links";
   "experience"; "test"].

Definition isSlashChar (c : ascii) : bool := Ascii.eqb c "/".

Definition tokenizeSlug (slug : string) : list string :=
  (* .replace(/^\/+/, '').replace(/\/+$/, '') *)
  let cleaned := dropWhileEnd isSlashChar (dropWhile isSlashChar (trim slug)) in
  let lastSeg :=
    default EmptyString
      (last (filter (fun s => truthy s = true) (splitChar "/" cleaned))) in
  let tokens :=
    filter (fun s => truthy s = true)
      (map trim (Regex.split tokenSeparator (toLowerCase lastSeg))) in
  filter (fun t => 3 <= String.length t /\ t ∉ stopWords) tokens.

Definition scorePageForTokens (pageLink : string) (tokens : list string)
    (preferLang : Lang) : nat :=
  let linkLower := toLowerCase pageLink in
  fold_left
    (fun score token => if includes token linkLower then score + 2 else score)
    tokens
    (if includes (langSegment preferLang) linkLower then 3 else 0).

(** The loop of [bestTokenMatch] over the pages, on [best] and
    [bestScore]. *)
Definition bestStep (tokens : list string) (preferLang : Lang)
    (acc : option PageMedia * nat) (p : PageMedia) : option PageMedia * nat :=
  let score := scorePageForTokens (link p) tokens preferLang in
  if snd acc <? score then (Some p, score) else acc.

Definition bestTokenMatch (pages : list PageMedia) (tokens : list string)
    (preferLang : Lang) : option PageMedia :=
  match tokens with
  | [] => None
  | _ =>
      let '(best, bestScore) :=
        fold_left (bestStep tokens preferLang) pages (None, 0) in
      if 2 <=? bestScore then best else None
  end.

(** [Array.prototype.sort] with the comparator
    [(a, b) => a.link.length - b.link.length]: the sort is stable. *)
Fixpoint insertByLength (x : PageMedia) (l : list PageMedia) : list PageMedia :=
  match l with
  | [] => [x]
  | y :: l' =>
      if String.length (link x) <=? String.length (link y) then x :: l
      else y :: insertByLength x l'
  end.

Definition sortByLength (l : list PageMedia) : list PageMedia :=
  foldr insertByLength [] l.

(** The result is [undefined] on an empty list of candidates; the script
    calls it on a non-empty one. *)
Definition preferBestMatch (candidates : list PageMedia) (preferLang : Lang)
    : option PageMedia :=
  let byLang :=
    filter (fun c => includes (langSegment preferLang) (link c) = true) candidates in
  let pool := match byLang with [] => candidates | _ => byLang end in
  head (sortByLength pool).

(** ** The run: [main] *)

(** What the loop of [main] updates: the output array, the two counters
    and the lines written to the error stream. *)
Record State : Type := mkState {
  enriched : list Product;
  matched : nat;
  unmatched : nat;
  stderr : list string
}.

Definition imagesValue (l : list string) : JSON := JArray (map JString l).

Definition diagnostic (oldUrlsRaw : string) : string :=
  "No media match for old_urls: " +:+ oldUrlsRaw +:+ String "010" EmptyString.

Section Main.

Variable new_URL : string -> option Url.URL.

(** One element of the pages file: dropped unless [link] is a string
    and [images] an array; the strings among the images are kept. *)
Definition pageOfJson (p : JSON) : option PageMedia :=
  match getField p "link", getField p "images" with
  | Some (JString l), Some (JArray imgs) =>
      Some (mkPage (normalizeUrlish new_URL l)
              (omap (fun x => match x with JString i => Some i | _ => None end) imgs)
              (match getField p "mapIframe" with
               | Some (JString m) => Some m
               | _ => None
               end))
  | _, _ => None
  end.

Definition pagesOf (pagesJson : list JSON) : list PageMedia :=
  omap pageOfJson pagesJson.

(** The index [byExact]: a later page overwrites an earlier one with
    the same key. *)
Definition indexPage (m : gmap string PageMedia) (p : PageMedia)
    : gmap string PageMedia :=
  let '(full, noQuery) := normalizeForMatch new_URL (link p) in
  <[noQuery := p]> (<[full := p]> m).

Definition byExactOf (pages : list PageMedia) : gmap string PageMedia :=
  fold_left indexPage pages ∅.

(** 1) exact/derived candidates: the first candidate of the first
    legacy URL that is a key of the index. *)
Fixpoint firstHit (byExact : gmap string PageMedia) (cands : list string)
    : option PageMedia :=
  match cands with
  | [] => None
  | cand :: rest =>
      match byExact !! cand with
      | Some hit => Some hit
      | None => firstHit byExact rest
      end
  end.

Fixpoint exactMatch (byExact : gmap string PageMedia) (oldUrls : list string)
    : option PageMedia :=
  match oldUrls with
  | [] => None
  | oldUrl :: rest =>
      match firstHit byExact (deriveCandidatesFromOldUrl new_URL oldUrl) with
      | Some hit => Some hit
      | None => exactMatch byExact rest
      end
  end.

(** 2) fallback: contains tail segment. *)
Definition tailHit (t : string) (p : PageMedia) : bool :=
  includes ("/" +:+ t +:+ "/") (link p) || endsWith ("/" +:+ t) (link p).

Definition uniqTails (oldUrls : list string) : list string :=
  setOf (filter (fun t => truthy t = true) (omap (pathTail new_URL) oldUrls)).

Fixpoint tailCandidates (pages : list PageMedia) (tails : list string)
    : list PageMedia :=
  match tails with
  | [] => []
  | t :: rest =>
      match filter (fun p => tailHit t p = true) pages with
      | [] => tailCandidates pages rest
      | candidates => candidates
      end
  end.

Definition tailMatch (pages : list PageMedia) (oldUrls : list string)
    : option PageMedia :=
  match tailCandidates pages (uniqTails oldUrls) with
  | [] => None
  | candidates => preferBestMatch candidates NL
  end.

(** 3) fallback: tokenize product slug and do a best-score match. *)
Definition tokenMatch (pages : list PageMedia) (slug : string)
    : option PageMedia :=
  let tokens := tokenizeSlug slug in
  match bestTokenMatch pages tokens NL with
  | Some p => Some p
  | None => bestTokenMatch pages tokens EN
  end.

(** [pageMatch] after the three blocks of the loop body. *)
Definition findPageMatch (pages : list PageMedia)
    (byExact : gmap string PageMedia) (oldUrls : list string) (slug : string)
    : option PageMedia :=
  match exactMatch byExact oldUrls with
  | Some p => Some p
  | None =>
      match tailMatch pages oldUrls with
      | Some p => Some p
      | None => if truthy slug then tokenMatch pages slug else None
      end
  end.

Definition oldUrlsRawOf (product : Product) : string :=
  stringOrEmpty (product !! "old_urls").

Definition oldUrlsOf (product : Product) : list string :=
  let oldUrlsRaw := oldUrlsRawOf product in
  if truthy oldUrlsRaw then splitOldUrls oldUrlsRaw else [].

Definition slugOf (product : Product) : string :=
  stringOrEmpty (product !! "slug").

Definition pageMatchOf (pages : list PageMedia)
    (byExact : gmap string PageMedia) (product : Product) : option PageMedia :=
  findPageMatch pages byExact (oldUrlsOf product) (slugOf product).

(** The body of the loop over [toProcess]. *)
Definition processProduct (pages : list PageMedia)
    (byExact : gmap string PageMedia) (st : State) (product : Product) : State :=
  let oldUrlsRaw := oldUrlsRawOf product in
  match pageMatchOf pages byExact product with
  | Some pageMatch =>
      let withImages := <["images" := imagesValue (images pageMatch)]> product in
      let outProduct :=
        match mapIframe pageMatch with
        | Some m =>
            if truthy m then <["mapIframe" := JString m]> withImages
            else withImages
        | None => withImages
        end in
      mkState (enriched st ++ [outProduct]) (S (matched st)) (unmatched st)
        (stderr st)
  | None =>
      let outProduct := <["images" := imagesValue []]> product in
      mkState (enriched st ++ [outProduct]) (matched st) (S (unmatched st))
        (if truthy oldUrlsRaw then stderr st ++ [diagnostic oldUrlsRaw]
         else stderr st)
  end.

(** [main] on the parsed products and pages files: the final state
    holds the array written to the output file, the counters of the
    summary line and the error stream. *)
Definition main (limit : Limit) (products : list Product)
    (pagesJson : list JSON) : State :=
  let pages := pagesOf pagesJson in
  let byExact := byExactOf pages in
  let toProcess :=
    match limit with
    | Some l => sliceTo (max0 l) products
    | None => products
    end in
  let st := fold_left (processProduct pages byExact) toProcess (mkState [] 0 0 []) in
  match limit with
  | Some l =>
      if ltLength l (length products)
      then mkState (enriched st ++ sliceFrom l products) (matched st)
             (unmatched st) (stderr st)
      else st
  | None => st
  end.

End Main.

(** The end-to-end example of the specification. *)
Definition fooProduct : Product :=
  {[ "slug" := JString "/golfreizen/nl/foo-tour";
     "old_urls" := JString "https://x.test/nl/golfreizen/foo-tour" ]}.

Definition fooPageJson : JSON :=
  JObject {[ "link" := JString "https://x.test/nl/foo-tour";
             "images" := JArray [JString "https://x.test/a.jpg"] ]}.

Definition fooPage : PageMedia :=
  mkPage "https://x.test/nl/foo-tour" ["https://x.test/a.jpg"] None.


(** Inputs of further worked examples. *)
Definition barPage : PageMedia :=
  mkPage "https://x.test/nl/bar" ["https://x.test/b.jpg"] None.

Definition otherPage : PageMedia :=
  mkPage "https://x.test/other" ["https://x.test/o.jpg"] None.

Definition shortPage : PageMedia :=
  mkPage "https://x.test/t/foo" ["https://x.test/s.jpg"] None.

Definition longPage : PageMedia :=
  mkPage "https://x.test/abcdefghijk/foo" ["https://x.test/l.jpg"] None.

Definition prioProduct : Product :=
  {[ "slug" := JString "/golfreizen/nl/bar-course";
     "old_urls" := JString "https://x.test/nl/golfreis/foo-tour" ]}.

Definition zzzProduct : Product := {[ "slug" := JString "/golfreizen/nl/zzz" ]}.

Definition lostProduct : Product :=
  {[ "slug" := JString "/golfreizen/nl/zzz";
     "old_urls" := JString "https://x.test/gone" ]}.

(** The cleaning step at the head of [normalizeUrlish]. *)
Definition cleaned (input : string) : string :=
  replaceAll "\/" "/" (trim input).

(** A string the cleaning step leaves as it is: no surrounding white
    space and no escaped slash. *)
Definition isClean (s : string) : Prop :=
  trim s = s /\ includes "\/" s = false.


(** ** Further functions of the scripts *)

(** [args.lastIndexOf(name)]: [None] stands for -1. *)
Fixpoint lastIndexOf (name : string) (args : list string) : option nat :=
  match args with
  | [] => None
  | a :: rest =>
      match lastIndexOf name rest with
      | Some i => Some (S i)
      | None => if bool_decide (a = name) then Some 0 else None
      end
  end.

(** [getArgValue] of every script: the argument after the last [name]. *)
Definition getArgValue (args : list string) (name : string) : option string :=
  match lastIndexOf name args with
  | None => None
  | Some idx => args !! (idx + 1)
  end.

(** [uniq] of the scraper, and [[...new Set(tails)]] of the matcher. *)
Definition uniq (values : list string) : list string := setOf values.

(** [normalizeRel] of the report and rename scripts. *)
Definition normalizeRel (p : string) : string := replaceAll "\" "/" p.

(** [Array.prototype.join] on strings. *)
Fixpoint join (sep : string) (parts : list string) : string :=
  match parts with
  | [] => EmptyString
  | [x] => x
  | x :: rest => x +:+ sep +:+ join sep rest
  end.

(** [safeSlugPath] of the copy script. *)
Definition safeSlugPath (slug : string) : string :=
  let cleaned := dropWhileEnd isSlashChar (dropWhile isSlashChar (trim slug)) in
  let parts :=
    filter (fun p => truthy p = true /\ p <> "." /\ p <> "..")
      (splitChar "/" cleaned) in
  join "/" parts.

(** [String.prototype.indexOf]: [None] stands for -1. *)
Fixpoint indexOf (pat s : string) : option nat :=
  if startsWith pat s then Some 0
  else match s with
       | EmptyString => None
       | String _ s' => option_map S (indexOf pat s')
       end.

Definition uploadsMarker : string := "/wp-content/uploads/".

(** [uploadsRelativePathFromUrl] of the copy script. *)
Definition uploadsRelativePathFromUrl (new_URL : string -> option Url.URL)
    (urlStr : string) : option string :=
  match new_URL urlStr with
  | Some u =>
      match indexOf uploadsMarker (Url.pathname u) with
      | None => None
      | Some idx =>
          Some (dropWhile isSlashChar
                  (dropChars (idx + String.length uploadsMarker) (Url.pathname u)))
      end
  | None => None
  end.

Definition enPage : PageMedia :=
  mkPage "https://x.test/EN/links" ["https://x.test/e.jpg"] None.

Definition ownProduct : Product :=
  {[ "old_urls" := JString " HTTPS://X.test/nl/foo-tour#top " ]}.

Definition mapPage : PageMedia :=
  mkPage "https://x.test/nl/map" ["https://x.test/m.jpg"]
    (Some "<iframe src='m'></iframe>").

Definition mapProduct : Product :=
  {[ "old_urls" := JString "https://x.test/nl/map";
     "images" := JArray [JString "stale.jpg"];
     "mapIframe" := JString "old" ]}.

(** ['0'.repeat(n)] *)
Fixpoint zeros (n : nat) : string :=
  match n with
  | O => EmptyString
  | S k => String "0" (zeros k)
  end.

(** [pad] of the rename script, on a non-negative integer up to 2^53:
    there [String(num)] is the decimal numeral of the number. *)
Definition pad (num : N) (width : nat) : string :=
  let s := Url.decimal num in
  if (width <=? String.length s)%nat then s
  else zeros (width - String.length s) +:+ s.

(** The score of a page in [bestTokenMatch]. *)
Definition pageScore (tokens : list string) (preferLang : Lang)
    (p : PageMedia) : nat :=
  scorePageForTokens (link p) tokens preferLang.

Definition linkLength (p : PageMedia) : nat := String.length (link p).

(** [b] is the first of the shortest links of [pool]. *)
Definition firstShortest (b : PageMedia) (pool : list PageMedia) : Prop :=
  exists before after,
    pool = before ++ b :: after
    /\ (forall q, q ∈ before -> linkLength b < linkLength q)
    /\ (forall q, q ∈ after -> linkLength b <= linkLength q).

(** [k] is the [full] or the [noQuery] URL of the page. *)
Definition isKeyOf (new_URL : string -> option Url.URL) (k : string)
    (p : PageMedia) : Prop :=
  k = (normalizeForMatch new_URL (link p)).1
  \/ k = (normalizeForMatch new_URL (link p)).2.

(** The [images] of a processed product: the empty array or the images
    of a page. *)
Definition imagesFromPages (pages : list PageMedia) (q : Product) : Prop :=
  q !! "images" = Some (JArray [])
  \/ exists p, p ∈ pages /\ q !! "images" = Some (JArray (map JString (images p))).

(** ** Notions the properties are stated with *)

(** A record the parser reads back from its own serialization. *)
Definition reparses (new_URL : string -> option Url.URL) (u : Url.URL) : Prop :=
  new_URL (Url.serialize u) = Some u.

(** What a processed product [q] is to its input [p]: [images] is
    present, and every field but [images] and [mapIframe] is as in [p]. *)
Definition enriches (p q : Product) : Prop :=
  is_Some (q !! "images")
  /\ forall f, f <> "images" -> f <> "mapIframe" -> q !! f = p !! f.

(** The characters a match of [oldUrlsSeparator] is made of, and the
    characters no match holds. *)
Definition isSepOrWhite (c : ascii) : bool := isWhite c || isSep c.
Definition keepChar (c : ascii) : bool := negb (isSepOrWhite c).

Fixpoint filterChars (f : ascii -> bool) (s : string) : string :=
  match s with
  | EmptyString => EmptyString
  | String c s' => if f c then String c (filterChars f s') else filterChars f s'
  end.

Definition concatStr (l : list string) : string :=
  foldr String.append EmptyString l.

Fixpoint takeChars (n : nat) (s : string) : string :=
  match n, s with
  | S n', String c s' => String c (takeChars n' s')
  | _, _ => EmptyString
  end.

(** No two neighbours are both white space. *)
Fixpoint noDoubleWhite (s : string) : bool :=
  match s with
  | String c1 s' =>
      match s' with
      | String c2 _ => negb (isWhite c1 && isWhite c2) && noDoubleWhite s'
      | EmptyString => true
      end
  | EmptyString => true
  end.

Fixpoint lastIsWhite (s : string) : bool :=
  match s with
  | EmptyString => false
  | String c EmptyString => isWhite c
  | String _ s' => lastIsWhite s'
  end.

Definition headIsWhite (s : string) : bool :=
  match s with String c _ => isWhite c | EmptyString => false end.

(** A fragment as [splitOldUrls] leaves it: no comma, semicolon or
    newline, and no two white-space characters in a row. *)
Definition fragOk (f : string) : Prop :=
  allChars (fun c => negb (isSep c)) f = true /\ noDoubleWhite f = true.

Fixpoint nullable (r : Regex.regex) : bool :=
  match r with
  | Regex.Chr _ => false
  | Regex.Seq r1 r2 => nullable r1 && nullable r2
  | Regex.Alt r1 r2 => nullable r1 || nullable r2
  | Regex.Star _ => true
  end.

(** Every character class of [r] lies within [P]. *)
Fixpoint classesIn (P : ascii -> bool) (r : Regex.regex) : Prop :=
  match r with
  | Regex.Chr cls => forall c, cls c = true -> P c = true
  | Regex.Seq r1 r2 | Regex.Alt r1 r2 => classesIn P r1 /\ classesIn P r2
  | Regex.Star r1 => classesIn P r1
  end.

(** What a successful matcher did: it consumed a prefix [m] of characters
    of [P], not empty if [nonempty] is set, and the continuation succeeded
    on the rest. *)
Definition consumed {A : Type} (P : ascii -> bool) (nonempty : bool)
    (s : string) (k : string -> option A) (x : A) : Prop :=
  exists m s', s = m +:+ s' /\ allChars P m = true
               /\ (nonempty = true -> m <> EmptyString) /\ k s' = Some x.

(** ** Name sanitizers of the rename scripts *)

(** [s.replace(r, rep)] for a global regex [r] without capture groups
    and a replacement without [$]: the regex is tried at every index
    from the end of the last match on; a match is replaced, [skip] counts
    its characters still to be passed over; after an empty match the
    search moves on by one character. *)
Fixpoint replaceRegex_go (r : Regex.regex) (rep : string) (skip : nat)
    (s : string) : string :=
  match s with
  | EmptyString =>
      match skip, Regex.matchLength r EmptyString with
      | O, Some _ => rep
      | _, _ => EmptyString
      end
  | String c s' =>
      match skip with
      | S k => replaceRegex_go r rep k s'
      | O =>
          match Regex.matchLength r s with
          | Some (S m) => rep +:+ replaceRegex_go r rep m s'
          | Some O => rep +:+ String c (replaceRegex_go r rep 0 s')
          | None => String c (replaceRegex_go r rep 0 s')
          end
      end
  end.

Definition replaceRegex (r : Regex.regex) (rep s : string) : string :=
  replaceRegex_go r rep 0 s.

Definition isDash (c : ascii) : bool := Ascii.eqb c "-".

Definition isSlugChar (c : ascii) : bool := isAlnumLower c || isDash c.

(** [/[^a-z0-9-]+/g] *)
Definition slugJunk : Regex.regex :=
  Regex.Plus (Regex.Chr (fun c => negb (isSlugChar c))).

(** [/-+/g] *)
Definition dashes : Regex.regex := Regex.Plus (Regex.Chr isDash).

(** [.replace(/^-|-$/g, '')]: the pattern matches a dash at index 0 and
    a dash at the last index, and nothing else. *)
Definition dropFirstDash (s : string) : string :=
  match s with
  | String c r => if isDash c then r else s
  | EmptyString => s
  end.

Fixpoint dropLastDash (s : string) : string :=
  match s with
  | EmptyString => EmptyString
  | String c EmptyString => if isDash c then EmptyString else s
  | String c r => String c (dropLastDash r)
  end.

(** The three replacements that [safeSlugToken] and [slugBaseName]
    share. *)
Definition slugify (s : string) : string :=
  dropLastDash (dropFirstDash (replaceRegex dashes "-" (replaceRegex slugJunk "-" s))).

(** [safeSlugToken] of [seo-rename-from-scrape.ts] *)
Definition safeSlugToken (input : string) : string :=
  takeChars 120 (slugify (trim (toLowerCase input))).

(** [slugBaseName] of the rename script *)
Definition slugBaseName (productSlugPath : string) : string :=
  let parts := filter (fun s => truthy s = true) (splitChar "/" productSlugPath) in
  let last := default "product" (last parts) in
  takeChars 80 (slugify (toLowerCase last)).

Definition headIsDash (s : string) : bool :=
  match s with String c _ => isDash c | EmptyString => false end.

Fixpoint lastIsDash (s : string) : bool :=
  match s with
  | EmptyString => false
  | String c EmptyString => isDash c
  | String _ r => lastIsDash r
  end.

(** No two dashes in a row. *)
Fixpoint noDoubleDash (s : string) : bool :=
  match s with
  | String c s' => negb (isDash c && headIsDash s') && noDoubleDash s'
  | EmptyString => true
  end.

(** What the sanitizers promise of a name. *)
Definition slugShaped (s : string) : Prop :=
  allChars isSlugChar s = true /\ noDoubleDash s = true /\ headIsDash s = false.

(** ** The error stream as text *)

(** The lines of a text: its LINE FEED characters, as every line on the
    stream ends in one. *)
Fixpoint lineCount (s : string) : nat :=
  match s with
  | EmptyString => 0
  | String c s' => (if Ascii.eqb c "010" then 1 else 0) + lineCount s'
  end.

(** What is on the error stream after the writes of a run. *)
Definition stderrText (st : State) : string := concatStr (stderr st).

(** [w] is the message of line 240 for a product of the list whose
    [old_urls] is a non-empty string. *)
Definition diagnosticOf (products : list Product) (w : string) : Prop :=
  exists product,
    product ∈ products
    /\ oldUrlsRawOf product <> EmptyString
    /\ w = "No media match for old_urls: " +:+ oldUrlsRawOf product
           +:+ String "010" EmptyString.

(** ** Texts of URLs and separators *)

(** A URL as [splitOldUrls] returns one. *)
Definition isUrlText (f : string) : Prop :=
  f <> EmptyString /\ trim f = f /\ fragOk f.

(** White space, commas, semicolons and newlines only. *)
Definition isPadding (r : string) : Prop := allChars isSepOrWhite r = true.

Definition hasSep (r : string) : bool :=
  negb (allChars (fun c => negb (isSep c)) r).

(** A run that separates two URLs: white space, commas, semicolons and
    newlines, with a comma, semicolon or newline among them, or else at
    least two characters. *)
Definition isSeparator (r : string) : Prop :=
  isPadding r /\ (hasSep r = true \/ 2 <= String.length r).

(** The text [first r1 f1 r2 f2 ...] for [rest = [(r1, f1); (r2, f2); ...]]. *)
Fixpoint weave (first : string) (rest : list (string * string)) : string :=
  match rest with
  | [] => first
  | (r, f) :: rest' => first +:+ r +:+ weave f rest'
  end.

(** White space only: a blank fragment. *)
Definition allWhite (x : string) : Prop := allChars isWhite x = true.

(** [t] is empty or starts with a character of a URL. *)
Definition noLead (t : string) : Prop :=
  match t with
  | String d _ => isSepOrWhite d = false
  | EmptyString => True
  end.

(** Inputs of the worked examples of tier 2 and the error stream. *)
Definition midPage : PageMedia :=
  mkPage "https://x.test/foo/bar/baz" ["https://x.test/m.jpg"] None.

Definition tailProduct : Product :=
  {[ "slug" := JString "/golfreizen/nl/other-course";
     "old_urls" := JString "https://old.test/a/nope, https://old.test/x/foo; https://old.test/y/other" ]}.

Definition twoLineProduct : Product :=
  {[ "old_urls" := JString ("https://x.test/gone" +:+ String "010" "https://x.test/lost") ]}.

(** * Properties *)

(** ** Worked examples *)

Example splitOldUrls_ex :
  splitOldUrls ("a.com" +:+ String "010" "b.com; c.com,,  d.com")
  = ["a.com"; "b.com"; "c.com"; "d.com"].
Proof. vm_compute. reflexivity. Qed.

Example url_parse_ex1 :
  option_map Url.serialize (Url.parse "  HTTPS://User:p@X.Test:443/a/./b/../c d?x=1 2#Frag ")
  = Some "https://User:p@x.test/a/c%20d?x=1%202#Frag".
Proof. vm_compute. reflexivity. Qed.

Example url_parse_ex2 :
  option_map Url.serialize (Url.parse "http://x.test") = Some "http://x.test/"
  /\ Url.parse "x.test/a" = None /\ Url.parse "\/" = None
  /\ option_map Url.serialize (Url.parse "http:\\x.test:8080\a\..\b") = Some "http://x.test:8080/b".
Proof. vm_compute. repeat split. Qed.

(** The end-to-end example of the specification, as the code runs it. *)
Example foo_run :
  deriveCandidatesFromOldUrl Url.parse "https://x.test/nl/golfreizen/foo-tour"
  = ["https://x.test/nl/golfreizen/foo-tour"]
  /\ pagesOf Url.parse [fooPageJson] = [fooPage]
  /\ exactMatch Url.parse (byExactOf Url.parse [fooPage]) (oldUrlsOf fooProduct) = None
  /\ tailMatch Url.parse [fooPage] (oldUrlsOf fooProduct) = Some fooPage
  /\ main Url.parse None [fooProduct] [fooPageJson]
     = mkState [<["images" := imagesValue ["https://x.test/a.jpg"]]> fooProduct] 1 0 [].
Proof. vm_compute. repeat split. Qed.

(** ** Strings *)

Lemma replaceAll_absent pat rep s :
  includes pat s = false -> replaceAll pat rep s = s.
Proof.
  unfold replaceAll. induction s as [|c s IH]; [done|].
  intros H. cbn [includes] in H. apply orb_false_iff in H as [Hst Hin].
  cbn [replaceAll_go]. rewrite Hst. f_equal. by apply IH.
Qed.

Lemma isClean_cleaned s : isClean s -> cleaned s = s.
Proof.
  intros [Ht Hi]. unfold cleaned. rewrite Ht. by apply replaceAll_absent.
Qed.

Lemma dropWhileEnd_cons f c s :
  dropWhileEnd f (String c s)
  = match dropWhileEnd f s with
    | EmptyString => if f c then EmptyString else String c EmptyString
    | r => String c r
    end.
Proof. reflexivity. Qed.

Lemma dropWhileEnd_idem f s :
  dropWhileEnd f (dropWhileEnd f s) = dropWhileEnd f s.
Proof.
  induction s as [|c s IH]; [done|].
  rewrite dropWhileEnd_cons. destruct (dropWhileEnd f s) as [|d r] eqn:E.
  - destruct (f c) eqn:Ec; [done|]. cbn. by rewrite Ec.
  - rewrite dropWhileEnd_cons, IH. done.
Qed.

(** ** URL records *)

Lemma stripTrailingSpaces_idem u :
  Url.stripTrailingSpaces (Url.stripTrailingSpaces u) = Url.stripTrailingSpaces u.
Proof.
  destruct u as [sch us pw h po [s|l] [q|] [f|]]; try done.
  unfold Url.stripTrailingSpaces; cbn. by rewrite dropWhileEnd_idem.
Qed.

Lemma fragment_stripTrailingSpaces u :
  Url.fragment (Url.stripTrailingSpaces u) = Url.fragment u.
Proof. by destruct u as [sch us pw h po [s|l] [q|] [f|]]. Qed.

Lemma query_stripTrailingSpaces u :
  Url.query (Url.stripTrailingSpaces u) = Url.query u.
Proof. by destruct u as [sch us pw h po [s|l] [q|] [f|]]. Qed.

Lemma setHashEmpty_fixed u :
  Url.fragment u = None -> Url.stripTrailingSpaces u = u -> Url.setHashEmpty u = u.
Proof.
  intros Hf Hs. unfold Url.setHashEmpty. destruct u; cbn in *. subst. exact Hs.
Qed.

Lemma setSearchEmpty_fixed u :
  Url.query u = None -> Url.stripTrailingSpaces u = u -> Url.setSearchEmpty u = u.
Proof.
  intros Hq Hs. unfold Url.setSearchEmpty. destruct u; cbn in *. subst. exact Hs.
Qed.

Lemma setHashEmpty_idem u :
  Url.setHashEmpty (Url.setHashEmpty u) = Url.setHashEmpty u.
Proof.
  apply setHashEmpty_fixed.
  - unfold Url.setHashEmpty. by rewrite fragment_stripTrailingSpaces.
  - apply stripTrailingSpaces_idem.
Qed.

Lemma setSearchEmpty_idem u :
  Url.setSearchEmpty (Url.setSearchEmpty u) = Url.setSearchEmpty u.
Proof.
  apply setSearchEmpty_fixed.
  - unfold Url.setSearchEmpty. by rewrite query_stripTrailingSpaces.
  - apply stripTrailingSpaces_idem.
Qed.

Lemma setHashEmpty_setSearchEmpty u :
  Url.setHashEmpty (Url.setSearchEmpty (Url.setHashEmpty u))
  = Url.setSearchEmpty (Url.setHashEmpty u).
Proof.
  apply setHashEmpty_fixed.
  - unfold Url.setSearchEmpty. rewrite fragment_stripTrailingSpaces. cbn.
    unfold Url.setHashEmpty. by rewrite fragment_stripTrailingSpaces.
  - unfold Url.setSearchEmpty. apply stripTrailingSpaces_idem.
Qed.

(** ** Normalization *)

Section Normalization.

Variable new_URL : string -> option Url.URL.


Lemma normalizeUrlish_unparsed s :
  new_URL (cleaned s) = None -> normalizeUrlish new_URL s = cleaned s.
Proof. unfold normalizeUrlish, cleaned. by intros ->. Qed.

Lemma normalizeUrlish_parsed s u :
  new_URL (cleaned s) = Some u ->
  normalizeUrlish new_URL s = Url.serialize (Url.setHashEmpty u).
Proof. unfold normalizeUrlish, cleaned. by intros ->. Qed.

Lemma normalizeForMatch_fails s :
  new_URL (cleaned s) = None ->
  normalizeForMatch new_URL s = (cleaned s, cleaned s).
Proof.
  intros H. unfold normalizeForMatch.
  rewrite (normalizeUrlish_unparsed _ H). by rewrite H.
Qed.

End Normalization.

(** C9, as the code has it: for every parser and every input whose
    cleaned form (trimmed, every escaped slash [\/] replaced by [/]) fails
    URL parsing, [normalizeForMatch] returns that cleaned form as both
    [full] and [noQuery]; it is the trimmed input itself when the trimmed
    input holds no escaped slash. *)
Theorem normalizeForMatch_unparsed (new_URL : string -> option Url.URL) (s : string) :
  new_URL (cleaned s) = None ->
  normalizeForMatch new_URL s = (cleaned s, cleaned s)
  /\ (includes "\/" (trim s) = false ->
      normalizeForMatch new_URL s = (trim s, trim s)).
Proof.
  intros H. pose proof (normalizeForMatch_fails _ _ H) as E.
  split; [exact E|]. intros Hi. rewrite E.
  unfold cleaned. by rewrite (replaceAll_absent _ _ _ Hi).
Qed.

Lemma normalizeForMatch_unparsed_witness :
  Url.parse (cleaned " not a url ") = None
  /\ normalizeForMatch Url.parse " not a url " = ("not a url", "not a url").
Proof.
  split; [by vm_compute|].
  apply (normalizeForMatch_unparsed Url.parse " not a url "); by vm_compute.
Defined.

(** C9 as stated fails: the input [\/] fails URL parsing, before and
    after cleaning, and both forms are [/], not the trimmed input. *)
Lemma normalizeForMatch_not_trimmed_input :
  Url.parse "\/" = None /\ Url.parse (cleaned "\/") = None
  /\ normalizeForMatch Url.parse "\/" = ("/", "/")
  /\ normalizeForMatch Url.parse "\/" <> (trim "\/", trim "\/").
Proof. by vm_compute. Qed.

(** C3, as the code has it: when the two forms that [normalizeForMatch]
    returns for an input are clean (no surrounding white space, no
    escaped slash [\/]) and the parser reads back the serializations of
    the input's URL record without its fragment, and without its fragment
    and query, then [normalizeForMatch] of the [full] form is the same
    pair, [normalizeForMatch] of the [noQuery] form is the [noQuery] form
    twice, and [normalizeUrlish] returns the [full] form as it is. An
    input that does not parse needs the first condition only. *)
Theorem normalizeForMatch_idempotent (new_URL : string -> option Url.URL) (s : string) :
  isClean (normalizeForMatch new_URL s).1 ->
  isClean (normalizeForMatch new_URL s).2 ->
  (forall u, new_URL (cleaned s) = Some u ->
     reparses new_URL (Url.setHashEmpty u)
     /\ reparses new_URL (Url.setSearchEmpty (Url.setHashEmpty u))) ->
  normalizeForMatch new_URL (normalizeForMatch new_URL s).1
  = normalizeForMatch new_URL s
  /\ normalizeForMatch new_URL (normalizeForMatch new_URL s).2
     = ((normalizeForMatch new_URL s).2, (normalizeForMatch new_URL s).2)
  /\ normalizeUrlish new_URL (normalizeForMatch new_URL s).1
     = (normalizeForMatch new_URL s).1.
Proof.
  intros Hfull HnoQuery Hre.
  destruct (new_URL (cleaned s)) as [u|] eqn:Hs.
  - destruct (Hre u eq_refl) as [H1 H2]. unfold reparses in H1, H2.
    set (u1 := Url.setHashEmpty u) in *.
    set (u2 := Url.setSearchEmpty u1) in *.
    assert (normalizeForMatch new_URL s = (Url.serialize u1, Url.serialize u2)) as E.
    { unfold normalizeForMatch. rewrite (normalizeUrlish_parsed _ _ _ Hs).
      fold u1. by rewrite H1. }
    rewrite E in *. cbn [fst snd] in *.
    assert (normalizeUrlish new_URL (Url.serialize u1) = Url.serialize u1) as Hn1.
    { rewrite (normalizeUrlish_parsed _ _ u1)
        by (by rewrite (isClean_cleaned _ Hfull)).
      unfold u1. by rewrite setHashEmpty_idem. }
    split_and!; [| |done].
    + unfold normalizeForMatch. rewrite Hn1. by rewrite H1.
    + unfold normalizeForMatch.
      rewrite (normalizeUrlish_parsed _ _ u2)
        by (by rewrite (isClean_cleaned _ HnoQuery)).
      unfold u2 at 1 2, u1 at 1 2. rewrite setHashEmpty_setSearchEmpty.
      fold u1. fold u2. rewrite H2. unfold u2. by rewrite setSearchEmpty_idem.
  - rewrite (normalizeForMatch_fails _ _ Hs) in *. cbn [fst snd] in *.
    assert (new_URL (cleaned (cleaned s)) = None) as Hs'
      by (by rewrite (isClean_cleaned _ Hfull)).
    rewrite (normalizeForMatch_fails _ _ Hs'), (normalizeUrlish_unparsed _ _ Hs').
    by rewrite (isClean_cleaned _ Hfull).
Qed.

Lemma normalizeForMatch_idempotent_witness :
  normalizeForMatch Url.parse " https:\/\/x.test/a?b=1#c "
  = ("https://x.test/a?b=1", "https://x.test/a")
  /\ normalizeForMatch Url.parse "https://x.test/a?b=1"
     = ("https://x.test/a?b=1", "https://x.test/a")
  /\ normalizeForMatch Url.parse "https://x.test/a"
     = ("https://x.test/a", "https://x.test/a")
  /\ normalizeUrlish Url.parse "https://x.test/a?b=1" = "https://x.test/a?b=1".
Proof.
  split; [by vm_compute|].
  apply (normalizeForMatch_idempotent Url.parse " https:\/\/x.test/a?b=1#c ").
  - by vm_compute.
  - by vm_compute.
  - intros u Hu. vm_compute in Hu. injection Hu as <-. by vm_compute.
Defined.

(** C3 as stated fails: the input [\\/] normalizes to [\/], which
    normalizes to [/]; a second application changes both forms. The same
    happens to a URL that parses, in its query: [https://x.test/?a=\/] is
    a normalized URL, and normalizing it gives [https://x.test/?a=/]. *)
Lemma normalizeForMatch_not_idempotent :
  normalizeForMatch Url.parse "\\/" = ("\/", "\/")
  /\ normalizeForMatch Url.parse (normalizeForMatch Url.parse "\\/").1 = ("/", "/")
  /\ normalizeForMatch Url.parse (normalizeForMatch Url.parse "\\/").1
     <> normalizeForMatch Url.parse "\\/"
  /\ normalizeForMatch Url.parse (normalizeForMatch Url.parse "\\/").2
     <> normalizeForMatch Url.parse "\\/"
  /\ normalizeUrlish Url.parse "https://x.test/?a=\\/" = "https://x.test/?a=\/"
  /\ normalizeUrlish Url.parse "https://x.test/?a=\/" = "https://x.test/?a=/".
Proof. by vm_compute. Qed.

(** ** Tier 3 *)

(** C1, the code at the failing input: one page whose link holds [/nl/]
    and none of the tokens scores 3, the language bonus alone, and
    [bestTokenMatch] returns it; so does tier 3 for a product whose slug
    gives that token. *)
Theorem bestTokenMatch_language_bonus_alone :
  tokenizeSlug "/golfreizen/nl/zzz" = ["zzz"]
  /\ includes "zzz" (toLowerCase (link barPage)) = false
  /\ scorePageForTokens (link barPage) ["zzz"] NL = 3
  /\ bestTokenMatch [barPage] ["zzz"] NL = Some barPage
  /\ tokenMatch [barPage] "/golfreizen/nl/zzz" = Some barPage
  /\ main Url.parse None [zzzProduct]
       [JObject {[ "link" := JString "https://x.test/nl/bar";
                   "images" := JArray [JString "https://x.test/b.jpg"] ]}]
     = mkState [<["images" := imagesValue ["https://x.test/b.jpg"]]> zzzProduct]
         1 0 [].
Proof. by vm_compute. Qed.

(** ** The limit *)

(** C10, the code at the failing input: with two products and the limit
    -1 nothing is processed and both counters stay 0, but the output
    holds the last product only. *)
Theorem main_negative_limit_drops_products :
  main Url.parse (Some (-1)%Q) [fooProduct; zzzProduct] [fooPageJson]
  = mkState [zzzProduct] 0 0 [].
Proof. by vm_compute. Qed.

(** A limit that is not an integer is truncated on both sides: with the
    limit 1/2 and one product nothing is processed and the product is
    passed through. *)
Example main_fractional_limit :
  main Url.parse (Some (1 # 2)%Q) [fooProduct] [fooPageJson]
  = mkState [fooProduct] 0 0 [].
Proof. by vm_compute. Qed.

(** ** Unmatched products *)

Lemma lineCount_app a b : lineCount (a +:+ b) = lineCount a + lineCount b.
Proof.
  induction a as [|c a IH]; [done|].
  change (String c a +:+ b) with (String c (a +:+ b)).
  cbn [lineCount]. rewrite IH. lia.
Qed.

Lemma concatStr_snoc l x : concatStr (l ++ [x]) = concatStr l +:+ x.
Proof.
  induction l as [|y l IH].
  - change (x +:+ EmptyString = x). induction x as [|c x IHx]; [done|].
    change (String c (x +:+ EmptyString) = String c x). by rewrite IHx.
  - change (y +:+ concatStr (l ++ [x]) = (y +:+ concatStr l) +:+ x).
    rewrite IH. generalize (concatStr l). intros z.
    induction y as [|c y IHy]; [done|].
    change (String c (y +:+ (z +:+ x)) = String c ((y +:+ z) +:+ x)).
    by rewrite IHy.
Qed.

Lemma lineCount_message s :
  lineCount ("No media match for old_urls: " +:+ s +:+ String "010" EmptyString)
  = S (lineCount s).
Proof. rewrite !lineCount_app. cbn. lia. Qed.

(** C7, as the code has it: a processed product without a page match is
    appended with [images] set to the empty array, [unmatched] grows by
    one and [matched] stays. When [old_urls] is a non-empty string the
    error stream gets one write, the text [No media match for old_urls: ]
    with the field as it is and a newline; that is one line more than the
    field has newlines, so one line exactly when the field has none.
    Otherwise nothing is written. *)
Theorem unmatched_accounting (new_URL : string -> option Url.URL)
    (pages : list PageMedia) (byExact : gmap string PageMedia)
    (st : State) (product : Product) :
  pageMatchOf new_URL pages byExact product = None ->
  let st' := processProduct new_URL pages byExact st product in
  enriched st' = enriched st ++ [<["images" := JArray []]> product]
  /\ unmatched st' = S (unmatched st)
  /\ matched st' = matched st
  /\ (forall s, product !! "old_urls" = Some (JString s) -> s <> EmptyString ->
        stderr st'
        = stderr st ++ ["No media match for old_urls: " +:+ s
                        +:+ String "010" EmptyString]
        /\ lineCount (stderrText st')
           = lineCount (stderrText st) + S (lineCount s))
  /\ ((forall s, product !! "old_urls" = Some (JString s) -> s = EmptyString) ->
        stderr st' = stderr st).
Proof.
  intros Hno st'. subst st'. unfold processProduct. rewrite Hno.
  cbn [enriched unmatched matched].
  split; [done|]. split; [done|]. split; [done|]. split.
  - intros s Hs Hne. unfold stderrText. cbn [stderr].
    unfold oldUrlsRawOf. rewrite Hs. cbn [stringOrEmpty].
    assert (truthy s = true) as -> by (by destruct s).
    split; [done|].
    unfold diagnostic.
    by rewrite concatStr_snoc, lineCount_app, lineCount_message.
  - intros Hempty. cbn [stderr]. unfold oldUrlsRawOf.
    destruct (product !! "old_urls") as [[| | |s| |]|] eqn:E; try done.
    by rewrite (Hempty s eq_refl).
Qed.

Lemma unmatched_accounting_witness :
  pageMatchOf Url.parse [otherPage] (byExactOf Url.parse [otherPage]) lostProduct = None
  /\ processProduct Url.parse [otherPage] (byExactOf Url.parse [otherPage])
       (mkState [] 0 0 []) lostProduct
     = mkState [<["images" := JArray []]> lostProduct] 0 1
         ["No media match for old_urls: https://x.test/gone"
          +:+ String "010" EmptyString].
Proof.
  split; [by vm_compute|].
  pose proof (unmatched_accounting Url.parse [otherPage]
                (byExactOf Url.parse [otherPage]) (mkState [] 0 0 []) lostProduct) as H.
  destruct H as (He & Hu & Hm & Hs & _); [by vm_compute|].
  destruct (Hs "https://x.test/gone" eq_refl ltac:(discriminate)) as [Hw _].
  destruct (processProduct _ _ _ _ _) as [e m u d]. cbn in *. by subst.
Defined.

(** C7 as stated fails: an [old_urls] field with a newline in it, the
    separator of two legacy URLs, gives an unmatched product one write of
    two lines. *)
Lemma unmatched_two_lines :
  let st := processProduct Url.parse [otherPage] (byExactOf Url.parse [otherPage])
              (mkState [] 0 0 []) twoLineProduct in
  pageMatchOf Url.parse [otherPage] (byExactOf Url.parse [otherPage]) twoLineProduct
  = None
  /\ oldUrlsOf twoLineProduct = ["https://x.test/gone"; "https://x.test/lost"]
  /\ unmatched st = 1
  /\ length (stderr st) = 1
  /\ lineCount (stderrText st) = 2
  /\ lineCount (stderrText st) <> 1.
Proof. by vm_compute. Qed.

(** ** Sets in insertion order *)

Lemma elem_of_setAdd out x c : c ∈ setAdd out x <-> c ∈ out \/ c = x.
Proof.
  unfold setAdd. case_bool_decide as Hx.
  - split; [by left|]. intros [?| ->]; done.
  - rewrite elem_of_app, list_elem_of_singleton. done.
Qed.

Lemma NoDup_setAdd out x : NoDup out -> NoDup (setAdd out x).
Proof.
  intros Hnd. unfold setAdd. case_bool_decide as Hx; [done|].
  apply NoDup_app. split_and!; [done| |apply NoDup_singleton].
  intros y Hy ->%list_elem_of_singleton. done.
Qed.

Lemma elem_of_fold_setAdd l acc c :
  c ∈ fold_left setAdd l acc <-> c ∈ acc \/ c ∈ l.
Proof.
  revert acc. induction l as [|x l IH]; intros acc; cbn.
  - rewrite elem_of_nil. tauto.
  - rewrite IH, elem_of_setAdd, elem_of_cons. tauto.
Qed.

Lemma NoDup_fold_setAdd l acc : NoDup acc -> NoDup (fold_left setAdd l acc).
Proof.
  revert acc. induction l as [|x l IH]; intros acc Hnd; cbn; [done|].
  by apply IH, NoDup_setAdd.
Qed.

Lemma NoDup_setOf l : NoDup (setOf l).
Proof. apply NoDup_fold_setAdd, NoDup_nil_2. Qed.

Lemma elem_of_setOf l c : c ∈ setOf l <-> c ∈ l.
Proof. unfold setOf. rewrite elem_of_fold_setAdd, elem_of_nil. tauto. Qed.

(** ** Candidate derivation *)

(** C2, as the code has it: the candidates of a legacy URL are a list
    without duplicates of exactly the [full] and [noQuery] forms and
    their rewrites of the first [/nl/golfreis/], [/en/golfreis/] and
    [/golfreis/] to [/nl/], [/en/] and [/]. For the product and the page
    of the end-to-end example the legacy URL, which holds [/golfreizen/],
    is its own only candidate, tier 1 finds nothing, tier 2 finds the page
    by the tail [foo-tour], and the run ends with the page's images on the
    product, matched 1 and unmatched 0. *)
Theorem deriveCandidates_golfreis :
  (forall (new_URL : string -> option Url.URL) (oldUrl c : string),
     let full := (normalizeForMatch new_URL oldUrl).1 in
     let noQuery := (normalizeForMatch new_URL oldUrl).2 in
     NoDup (deriveCandidatesFromOldUrl new_URL oldUrl)
     /\ (c ∈ deriveCandidatesFromOldUrl new_URL oldUrl <->
         c ∈ [full; noQuery;
              replace "/nl/golfreis/" "/nl/" full;
              replace "/en/golfreis/" "/en/" full;
              replace "/golfreis/" "/" full;
              replace "/nl/golfreis/" "/nl/" noQuery;
              replace "/en/golfreis/" "/en/" noQuery;
              replace "/golfreis/" "/" noQuery]))
  /\ deriveCandidatesFromOldUrl Url.parse "https://x.test/nl/golfreizen/foo-tour"
     = ["https://x.test/nl/golfreizen/foo-tour"]
  /\ deriveCandidatesFromOldUrl Url.parse "https://x.test/nl/golfreis/foo-tour?a=1"
     = ["https://x.test/nl/golfreis/foo-tour?a=1";
        "https://x.test/nl/golfreis/foo-tour";
        "https://x.test/nl/foo-tour?a=1";
        "https://x.test/nl/foo-tour"]
  /\ exactMatch Url.parse (byExactOf Url.parse (pagesOf Url.parse [fooPageJson]))
       (oldUrlsOf fooProduct) = None
  /\ tailMatch Url.parse (pagesOf Url.parse [fooPageJson]) (oldUrlsOf fooProduct)
     = Some fooPage
  /\ main Url.parse None [fooProduct] [fooPageJson]
     = mkState [<["images" := imagesValue ["https://x.test/a.jpg"]]> fooProduct]
         1 0 [].
Proof.
  split; [|by vm_compute].
  intros new_URL oldUrl c full noQuery. unfold deriveCandidatesFromOldUrl.
  destruct (normalizeForMatch new_URL oldUrl) as [f n] eqn:E.
  subst full noQuery. cbn [fst snd fold_left]. split.
  - repeat apply NoDup_setAdd. apply NoDup_nil_2.
  - rewrite !elem_of_setAdd, elem_of_setOf, !elem_of_cons, elem_of_nil. tauto.
Qed.

(** C2 as stated fails on the example: the derivation does not give
    [https://x.test/nl/foo-tour] and tier 1 does not hit. *)
Lemma deriveCandidates_keeps_golfreizen :
  ("https://x.test/nl/foo-tour"
     ∉ deriveCandidatesFromOldUrl Url.parse "https://x.test/nl/golfreizen/foo-tour")
  /\ exactMatch Url.parse (byExactOf Url.parse (pagesOf Url.parse [fooPageJson]))
       (oldUrlsOf fooProduct) = None.
Proof.
  split; [|by vm_compute].
  assert (deriveCandidatesFromOldUrl Url.parse "https://x.test/nl/golfreizen/foo-tour"
          = ["https://x.test/nl/golfreizen/foo-tour"]) as -> by (by vm_compute).
  by intros ?%list_elem_of_singleton.
Qed.

(** ** Tier 1 *)

Section Tier1.

Variable new_URL : string -> option Url.URL.

Lemma firstHit_app byExact a b :
  firstHit byExact (a ++ b)
  = match firstHit byExact a with
    | Some p => Some p
    | None => firstHit byExact b
    end.
Proof.
  induction a as [|c a IH]; cbn; [done|]. by destruct (byExact !! c).
Qed.

Lemma exactMatch_firstHit byExact oldUrls :
  exactMatch new_URL byExact oldUrls
  = firstHit byExact (oldUrls ≫= deriveCandidatesFromOldUrl new_URL).
Proof.
  induction oldUrls as [|u us IH]; cbn; [done|].
  by rewrite firstHit_app, IH.
Qed.

Lemma firstHit_is_Some (byExact : gmap string PageMedia) cands c :
  c ∈ cands -> is_Some (byExact !! c) ->
  exists p before c0 after,
    firstHit byExact cands = Some p
    /\ cands = before ++ c0 :: after
    /\ (forall x, x ∈ before -> byExact !! x = None)
    /\ byExact !! c0 = Some p.
Proof.
  induction cands as [|d cands IH]; intros Hin Hc.
  - by apply elem_of_nil in Hin.
  - cbn. destruct (byExact !! d) as [p|] eqn:Hd.
    + exists p, [], d, cands. split_and!; try done.
      intros x Hx. by apply elem_of_nil in Hx.
    + apply elem_of_cons in Hin as [->|Hin].
      { rewrite Hd in Hc. by destruct Hc. }
      destruct (IH Hin Hc) as (p & before & c0 & after & H1 & H2 & H3 & H4).
      exists p, (d :: before), c0, after. split_and!; try done.
      * by rewrite H2.
      * intros x [->|Hx]%elem_of_cons; [done|by apply H3].
Qed.

Lemma byExactOf_lookup pages (m : gmap string PageMedia) k p :
  fold_left (indexPage new_URL) pages m !! k = Some p ->
  m !! k = Some p
  \/ (p ∈ pages
      /\ (k = (normalizeForMatch new_URL (link p)).1
          \/ k = (normalizeForMatch new_URL (link p)).2)).
Proof.
  revert m. induction pages as [|x pages IH]; intros m; cbn; [by left|].
  intros H. destruct (IH _ H) as [Hm|[Hin Hk]].
  - unfold indexPage in Hm.
    destruct (normalizeForMatch new_URL (link x)) as [f n] eqn:E.
    destruct (decide (n = k)) as [->|Hn].
    { rewrite lookup_insert_eq in Hm. injection Hm as ->. right.
      split; [left|]. rewrite E. by right. }
    rewrite lookup_insert_ne in Hm by done.
    destruct (decide (f = k)) as [->|Hf].
    { rewrite lookup_insert_eq in Hm. injection Hm as ->. right.
      split; [left|]. rewrite E. by left. }
    rewrite lookup_insert_ne in Hm by done. by left.
  - right. split; [by right|done].
Qed.

End Tier1.

(** C4: when some candidate derived from a product's legacy URLs is a
    key of the exact index, the page match is the page the index holds
    for the first such candidate in order, whatever the slug is; that page
    is one of the pages and the candidate is its [full] or [noQuery]
    URL. *)
Theorem tier1_priority (new_URL : string -> option Url.URL)
    (pages : list PageMedia) (product : Product) (oldUrl cand : string) :
  oldUrl ∈ oldUrlsOf product ->
  cand ∈ deriveCandidatesFromOldUrl new_URL oldUrl ->
  is_Some (byExactOf new_URL pages !! cand) ->
  exists p before c after,
    pageMatchOf new_URL pages (byExactOf new_URL pages) product = Some p
    /\ (forall slug,
          findPageMatch new_URL pages (byExactOf new_URL pages)
            (oldUrlsOf product) slug = Some p)
    /\ oldUrlsOf product ≫= deriveCandidatesFromOldUrl new_URL
       = before ++ c :: after
    /\ (forall x, x ∈ before -> byExactOf new_URL pages !! x = None)
    /\ byExactOf new_URL pages !! c = Some p
    /\ p ∈ pages
    /\ (c = (normalizeForMatch new_URL (link p)).1
        \/ c = (normalizeForMatch new_URL (link p)).2).
Proof.
  intros Hu Hc Hhit.
  assert (cand ∈ oldUrlsOf product ≫= deriveCandidatesFromOldUrl new_URL) as Hin.
  { apply list_elem_of_bind. by exists oldUrl. }
  destruct (firstHit_is_Some _ _ _ Hin Hhit)
    as (p & before & c & after & H1 & H2 & H3 & H4).
  assert (forall slug,
            findPageMatch new_URL pages (byExactOf new_URL pages)
              (oldUrlsOf product) slug = Some p) as Hall.
  { intros slug. unfold findPageMatch. by rewrite exactMatch_firstHit, H1. }
  exists p, before, c, after. split_and!; try done.
  - apply Hall.
  - destruct (byExactOf_lookup _ _ _ _ _ H4) as [Hm|[? ?]]; [|done].
    by rewrite lookup_empty in Hm.
  - destruct (byExactOf_lookup _ _ _ _ _ H4) as [Hm|[? ?]]; [|done].
    by rewrite lookup_empty in Hm.
Qed.

Lemma tier1_priority_witness :
  tokenMatch [fooPage; barPage] (slugOf prioProduct) = Some barPage
  /\ exists p before c after,
       pageMatchOf Url.parse [fooPage; barPage]
         (byExactOf Url.parse [fooPage; barPage]) prioProduct = Some p
       /\ (forall slug,
             findPageMatch Url.parse [fooPage; barPage]
               (byExactOf Url.parse [fooPage; barPage])
               (oldUrlsOf prioProduct) slug = Some p)
       /\ oldUrlsOf prioProduct ≫= deriveCandidatesFromOldUrl Url.parse
          = before ++ c :: after
       /\ (forall x, x ∈ before ->
             byExactOf Url.parse [fooPage; barPage] !! x = None)
       /\ byExactOf Url.parse [fooPage; barPage] !! c = Some p
       /\ p ∈ [fooPage; barPage]
       /\ (c = (normalizeForMatch Url.parse (link p)).1
           \/ c = (normalizeForMatch Url.parse (link p)).2).
Proof.
  split; [by vm_compute|].
  apply (tier1_priority Url.parse [fooPage; barPage] prioProduct
           "https://x.test/nl/golfreis/foo-tour" "https://x.test/nl/foo-tour").
  - assert (oldUrlsOf prioProduct = ["https://x.test/nl/golfreis/foo-tour"])
      as -> by (by vm_compute).
    by apply list_elem_of_singleton.
  - assert (deriveCandidatesFromOldUrl Url.parse "https://x.test/nl/golfreis/foo-tour"
            = ["https://x.test/nl/golfreis/foo-tour"; "https://x.test/nl/foo-tour"])
      as -> by (by vm_compute).
    right. left.
  - exists fooPage. by vm_compute.
Defined.

(** ** Tier 2 *)

Lemma head_insertByLength x l :
  head (insertByLength x l)
  = match head l with
    | Some y =>
        if String.length (link x) <=? String.length (link y) then Some x else Some y
    | None => Some x
    end.
Proof. destruct l as [|y l]; cbn; [done|]. by case_match. Qed.

Lemma head_sortByLength_min l b :
  head (sortByLength l) = Some b ->
  b ∈ l /\ forall q, q ∈ l -> String.length (link b) <= String.length (link q).
Proof.
  revert b. induction l as [|x l IH]; intros b; [done|].
  cbn [sortByLength foldr]. fold (sortByLength l). rewrite head_insertByLength.
  destruct (head (sortByLength l)) as [y|] eqn:Hy.
  - destruct (IH y eq_refl) as [Hin Hmin].
    destruct (String.length (link x) <=? String.length (link y)) eqn:Hle;
      intros [= <-].
    + apply Nat.leb_le in Hle. split; [left|].
      intros q [->|Hq]%elem_of_cons; [lia|]. specialize (Hmin q Hq). lia.
    + apply Nat.leb_gt in Hle. split; [by right|].
      intros q [->|Hq]%elem_of_cons; [lia|]. by apply Hmin.
  - intros [= <-]. destruct l as [|z l].
    + split; [left|]. by intros q ->%list_elem_of_singleton.
    + cbn [sortByLength foldr] in Hy. fold (sortByLength l) in Hy.
      rewrite head_insertByLength in Hy. by repeat case_match.
Qed.

Lemma head_sortByLength_is_Some l : l <> [] -> is_Some (head (sortByLength l)).
Proof.
  destruct l as [|x l]; [done|]. intros _.
  cbn [sortByLength foldr]. fold (sortByLength l). rewrite head_insertByLength.
  by repeat case_match.
Qed.

Lemma filter_no_hit {A} (P : A -> Prop) `{!forall x, Decision (P x)} (l : list A) :
  (forall x, x ∈ l -> ~ P x) -> filter P l = [].
Proof.
  induction l as [|x l IH]; intros Hno; [done|].
  rewrite filter_cons. destruct (decide (P x)) as [Hx|_].
  - exfalso. apply (Hno x); [left|done].
  - apply IH. intros y Hy. apply Hno. by right.
Qed.

Lemma tailCandidates_first pages before t after :
  (forall t' p, t' ∈ before -> p ∈ pages -> tailHit t' p = false) ->
  (exists p, p ∈ pages /\ tailHit t p = true) ->
  tailCandidates pages (before ++ t :: after)
  = filter (fun p => tailHit t p = true) pages
  /\ filter (fun p => tailHit t p = true) pages <> [].
Proof.
  intros Hbefore (p & Hp & Hhit).
  assert (filter (fun p => tailHit t p = true) pages <> []) as Hne.
  { intros E. assert (p ∈ filter (fun p => tailHit t p = true) pages) as Hin
      by (by apply list_elem_of_filter).
    rewrite E in Hin. by apply elem_of_nil in Hin. }
  split; [|done].
  induction before as [|t' before IH]; cbn.
  - by destruct (filter (fun p => tailHit t p = true) pages).
  - rewrite filter_no_hit.
    + apply IH. intros t'' q Ht'' Hq. apply Hbefore; [by right|done].
    + intros q Hq. rewrite (Hbefore t' q); [done|left|done].
Qed.

(** C5: when tier 1 finds nothing, tier 2 decides the match of the
    product, whatever its slug. The tails are distinct; the candidates
    are the pages hit by the first tail that hits any page, through
    [/<tail>/] or a final [/<tail>], and no other: pages that only a later
    tail hits are not among them; the pool is the candidates whose link
    holds [/nl/] if there is one and all candidates otherwise; the match
    is a page of the pool with the shortest link. With two candidates of
    link lengths 20 and 30, neither holding [/nl/], the one of length 20
    is chosen in either order. *)
Theorem tail_fallback (new_URL : string -> option Url.URL)
    (pages : list PageMedia) (byExact : gmap string PageMedia)
    (oldUrls before after : list string) (t : string) :
  exactMatch new_URL byExact oldUrls = None ->
  uniqTails new_URL oldUrls = before ++ t :: after ->
  (forall t' p, t' ∈ before -> p ∈ pages -> tailHit t' p = false) ->
  (exists p, p ∈ pages /\ tailHit t p = true) ->
  let candidates := filter (fun p => tailHit t p = true) pages in
  let byLang := filter (fun p => includes "/nl/" (link p) = true) candidates in
  let pool := match byLang with [] => candidates | _ => byLang end in
  NoDup (uniqTails new_URL oldUrls)
  /\ tailCandidates pages (uniqTails new_URL oldUrls) = candidates
  /\ (exists best,
        tailMatch new_URL pages oldUrls = Some best
        /\ (forall slug,
              findPageMatch new_URL pages byExact oldUrls slug = Some best)
        /\ (forall product,
              oldUrlsOf product = oldUrls ->
              pageMatchOf new_URL pages byExact product = Some best)
        /\ best ∈ pool
        /\ (includes ("/" +:+ t +:+ "/") (link best) = true
            \/ endsWith ("/" +:+ t) (link best) = true)
        /\ forall q, q ∈ pool ->
             String.length (link best) <= String.length (link q))
  /\ (forall a b,
        String.length (link a) = 20 -> String.length (link b) = 30 ->
        includes "/nl/" (link a) = false -> includes "/nl/" (link b) = false ->
        preferBestMatch [a; b] NL = Some a /\ preferBestMatch [b; a] NL = Some a).
Proof.
  intros Hexact Htails Hbefore Hhit candidates byLang pool.
  destruct (tailCandidates_first pages before t after Hbefore Hhit) as [Hc Hne].
  fold candidates in Hc, Hne.
  split_and!.
  - apply NoDup_setOf.
  - by rewrite Htails.
  - assert (pool <> []) as Hpool.
    { unfold pool. by destruct byLang. }
    destruct (head_sortByLength_is_Some pool Hpool) as [best Hbest].
    exists best. destruct (head_sortByLength_min _ _ Hbest) as [Hin Hmin].
    assert (tailMatch new_URL pages oldUrls = Some best) as Htail.
    { unfold tailMatch. rewrite Htails, Hc.
      destruct candidates as [|c cs] eqn:E; [done|]. exact Hbest. }
    assert (forall slug,
              findPageMatch new_URL pages byExact oldUrls slug = Some best) as Hfind.
    { intros slug. unfold findPageMatch. by rewrite Hexact, Htail. }
    split; [done|]. split; [done|]. split.
    { intros product <-. apply Hfind. }
    split; [done|]. split; [|done].
    assert (best ∈ candidates) as Hcand.
    { unfold pool in Hin. destruct byLang as [|x l] eqn:E; [done|].
      rewrite <- E in Hin. unfold byLang in Hin.
      by apply list_elem_of_filter in Hin as [_ Hin]. }
    apply list_elem_of_filter in Hcand as [Hh _].
    unfold tailHit in Hh. by apply orb_true_iff in Hh.
  - intros a b Ha Hb Hna Hnb. unfold preferBestMatch, langSegment.
    rewrite !filter_cons, filter_nil.
    repeat case_decide; try congruence.
    cbn. rewrite Ha, Hb. done.
Qed.

(** Three legacy URLs with the tails [nope], [foo] and [other]: no page
    is hit by [nope]; [foo] hits a page of link length 30 by its end, one
    through [/foo/] and one of link length 20 by its end; [other] would
    hit a fourth page, which stays out. Tier 1 finds nothing, and the
    product gets the page of length 20. *)
Lemma tail_fallback_witness :
  let pages := [longPage; otherPage; midPage; shortPage] in
  String.length (link shortPage) = 20 /\ String.length (link longPage) = 30
  /\ tailHit "other" otherPage = true
  /\ tailCandidates pages (uniqTails Url.parse (oldUrlsOf tailProduct))
     = [longPage; midPage; shortPage]
  /\ pageMatchOf Url.parse pages (byExactOf Url.parse pages) tailProduct
     = Some shortPage.
Proof.
  intros pages. split; [done|]. split; [done|]. split; [by vm_compute|].
  destruct (tail_fallback Url.parse pages (byExactOf Url.parse pages)
              (oldUrlsOf tailProduct) ["nope"] ["other"] "foo")
    as (_ & Hcand & (best & Hbest & _ & Hpage & _) & _).
  - by vm_compute.
  - by vm_compute.
  - intros t' p ->%list_elem_of_singleton Hp.
    repeat (apply elem_of_cons in Hp as [->|Hp]; [by vm_compute|]).
    by apply elem_of_nil in Hp.
  - exists midPage. split; [|by vm_compute]. right. right. left.
  - split; [rewrite Hcand; by vm_compute|].
    rewrite (Hpage tailProduct eq_refl). rewrite <- Hbest. by vm_compute.
Defined.

(** ** The limit and the frame *)


Section Frame.

Variable new_URL : string -> option Url.URL.
Variable pages : list PageMedia.
Variable byExact : gmap string PageMedia.

Lemma processProduct_enriched st p :
  exists q,
    enriched (processProduct new_URL pages byExact st p) = enriched st ++ [q]
    /\ enriches p q.
Proof.
  unfold processProduct.
  destruct (pageMatchOf new_URL pages byExact p) as [pm|]; cbn [enriched];
    eexists; (split; [reflexivity|]).
  - split.
    + destruct (mapIframe pm) as [m|]; [destruct (truthy m)|];
        by simplify_map_eq.
    + intros f H1 H2.
      destruct (mapIframe pm) as [m|]; [destruct (truthy m)|];
        by simplify_map_eq.
  - split; [by simplify_map_eq|]. intros f H1 H2. by simplify_map_eq.
Qed.

Lemma fold_processProduct_enriched l st :
  exists out,
    enriched (fold_left (processProduct new_URL pages byExact) l st)
    = enriched st ++ out
    /\ Forall2 enriches l out.
Proof.
  revert st. induction l as [|p l IH]; intros st; cbn [fold_left].
  - exists []. by rewrite app_nil_r.
  - destruct (processProduct_enriched st p) as (q & Hq & Hpq).
    destruct (IH (processProduct new_URL pages byExact st p)) as (out & Ho & Hall).
    exists (q :: out). split; [|by constructor].
    by rewrite Ho, Hq, <- app_assoc.
Qed.

End Frame.

Lemma sliceTo_integer {A} (k : Z) (a : list A) :
  (0 <= k <= Z.of_nat (length a))%Z ->
  sliceTo (max0 (inject_Z k)) a = take (Z.to_nat k) a.
Proof.
  intros Hk. unfold sliceTo, max0, toInteger, inject_Z. cbn [Qnum Qden].
  destruct (k <? 0)%Z eqn:E; [lia|]. cbn [Qnum Qden].
  rewrite Z.quot_1_r, E. f_equal. lia.
Qed.

Lemma sliceFrom_integer {A} (k : Z) (a : list A) :
  (0 <= k <= Z.of_nat (length a))%Z ->
  sliceFrom (inject_Z k) a = drop (Z.to_nat k) a.
Proof.
  intros Hk. unfold sliceFrom, toInteger, inject_Z. cbn [Qnum Qden].
  rewrite Z.quot_1_r. destruct (k <? 0)%Z eqn:E; [lia|]. f_equal. lia.
Qed.

(** C6: with [n] products and an integer limit [k], [0 <= k < n], the
    output has [n] elements; the element at an index from [k] on is the
    input product at that index; the element at an index below [k] has an
    [images] field and agrees with the input product at that index on
    every field but [images] and [mapIframe]. *)
Theorem limit_boundary (new_URL : string -> option Url.URL)
    (pagesJson : list JSON) (products : list Product) (k : Z) :
  (0 <= k < Z.of_nat (length products))%Z ->
  let out := enriched (main new_URL (Some (inject_Z k)) products pagesJson) in
  length out = length products
  /\ (forall (i : nat) p, (k <= Z.of_nat i)%Z ->
        products !! i = Some p -> out !! i = Some p)
  /\ (forall (i : nat) p, (Z.of_nat i < k)%Z ->
        products !! i = Some p ->
        exists q, out !! i = Some q /\ enriches p q).
Proof.
  intros Hk out. subst out. unfold main.
  rewrite sliceTo_integer by lia.
  assert (ltLength (inject_Z k) (length products) = true) as ->.
  { unfold ltLength, inject_Z. cbn. lia. }
  cbn [enriched]. rewrite sliceFrom_integer by lia.
  set (n := Z.to_nat k).
  destruct (fold_processProduct_enriched new_URL (pagesOf new_URL pagesJson)
              (byExactOf new_URL (pagesOf new_URL pagesJson))
              (take n products) (mkState [] 0 0 []))
    as (out1 & -> & Hall).
  cbn [enriched app].
  assert (length out1 = n) as Hlen.
  { rewrite <- (Forall2_length _ _ _ Hall), length_take. lia. }
  split_and!.
  - rewrite length_app, length_drop. lia.
  - intros i p Hi Hp. rewrite lookup_app_r by lia.
    rewrite lookup_drop, Hlen, <- Hp. f_equal. lia.
  - intros i p Hi Hp.
    assert (take n products !! i = Some p) as Ht.
    { rewrite lookup_take_lt by lia. done. }
    destruct (Forall2_lookup_l _ _ _ _ _ Hall Ht) as (q & Hq & Hpq).
    exists q. split; [|done]. rewrite lookup_app_l; [done|].
    apply lookup_lt_Some in Hq. done.
Qed.

Lemma limit_boundary_witness :
  let out := enriched (main Url.parse (Some (inject_Z 1))
                         [fooProduct; zzzProduct; lostProduct] [fooPageJson]) in
  length out = 3
  /\ out !! 1 = Some zzzProduct /\ out !! 2 = Some lostProduct
  /\ exists q, out !! 0 = Some q /\ enriches fooProduct q.
Proof.
  destruct (limit_boundary Url.parse [fooPageJson]
              [fooProduct; zzzProduct; lostProduct] 1) as (Hl & Hrest & Hproc).
  - cbn. lia.
  - cbv zeta. split_and!.
    + exact Hl.
    + apply (Hrest 1); [lia|done].
    + apply (Hrest 2); [lia|done].
    + apply (Hproc 0); [lia|done].
Defined.

(** ** Splitting *)


Lemma str_app_cons x a b : String x a +:+ b = String x (a +:+ b).
Proof. reflexivity. Qed.

Lemma str_app_assoc a b c : (a +:+ b) +:+ c = a +:+ (b +:+ c).
Proof.
  induction a as [|x a IH]; [done|]. by rewrite !str_app_cons, IH.
Qed.

Lemma str_app_nil_r a : a +:+ "" = a.
Proof. induction a as [|x a IH]; [done|]. by rewrite str_app_cons, IH. Qed.

Lemma str_length_app a b :
  String.length (a +:+ b) = String.length a + String.length b.
Proof.
  induction a as [|x a IH]; [done|]. rewrite str_app_cons. cbn. by rewrite IH.
Qed.

Lemma allChars_app P a b : allChars P (a +:+ b) = allChars P a && allChars P b.
Proof.
  induction a as [|x a IH]; [done|].
  rewrite str_app_cons. cbn. by rewrite IH, andb_assoc.
Qed.

Lemma filterChars_app f a b :
  filterChars f (a +:+ b) = filterChars f a +:+ filterChars f b.
Proof.
  induction a as [|x a IH]; [done|]. rewrite str_app_cons. cbn.
  destruct (f x); by rewrite ?str_app_cons, IH.
Qed.

Section MatcherFacts.

Context {A : Type}.
Variable P : ascii -> bool.


Lemma starLoop_sound (m : string -> (string -> option A) -> option A) :
  (forall s k x, m s k = Some x -> consumed P false s k x) ->
  forall fuel s k x, Regex.starLoop m fuel s k = Some x -> consumed P false s k x.
Proof.
  intros Hm. induction fuel as [|fuel IH]; intros s k x; cbn [Regex.starLoop].
  - intros Hk. exists EmptyString, s. by split_and!.
  - destruct (m s _) as [y|] eqn:E.
    + intros [= ->]. apply Hm in E as (m1 & s1 & -> & Hm1 & _ & Hk).
      destruct (_ <? _); [|done].
      apply IH in Hk as (m2 & s2 & -> & Hm2 & _ & Hk).
      exists (m1 +:+ m2), s2. split_and!; try done.
      * by rewrite str_app_assoc.
      * by rewrite allChars_app, Hm1, Hm2.
    + intros Hk. exists EmptyString, s. by split_and!.
Qed.

Lemma matcher_sound r :
  classesIn P r ->
  forall s (k : string -> option A) (x : A),
    Regex.matcher r s k = Some x -> consumed P (negb (nullable r)) s k x.
Proof.
  induction r as [cls|r1 IH1 r2 IH2|r1 IH1 r2 IH2|r1 IH1];
    intros Hcls s k x; cbn [Regex.matcher nullable].
  - destruct s as [|c s]; [done|]. destruct (cls c) eqn:Ec; [|done].
    intros Hk. exists (String c EmptyString), s. split_and!; try done.
    cbn. by rewrite (Hcls c Ec).
  - destruct Hcls as [H1 H2]. intros H.
    apply (IH1 H1) in H as (m1 & s1 & -> & Hm1 & Hn1 & H).
    apply (IH2 H2) in H as (m2 & s2 & -> & Hm2 & Hn2 & H).
    exists (m1 +:+ m2), s2. split_and!; try done.
    + by rewrite str_app_assoc.
    + by rewrite allChars_app, Hm1, Hm2.
    + rewrite negb_andb. intros [Hn|Hn]%orb_true_iff.
      * specialize (Hn1 Hn). by destruct m1.
      * specialize (Hn2 Hn). destruct m1; [done|]. done.
  - destruct Hcls as [H1 H2].
    destruct (Regex.matcher r1 s k) as [y|] eqn:E.
    + intros [= ->]. apply (IH1 H1) in E as (m1 & s1 & -> & Hm1 & Hn1 & H).
      exists m1, s1. split_and!; try done.
      rewrite negb_orb. intros [Hn _]%andb_true_iff. by apply Hn1.
    + intros H. apply (IH2 H2) in H as (m2 & s2 & -> & Hm2 & Hn2 & H).
      exists m2, s2. split_and!; try done.
      rewrite negb_orb. intros [_ Hn]%andb_true_iff. by apply Hn2.
  - intros H. apply starLoop_sound in H; [done|].
    intros s0 k0 x0 H0. apply (IH1 Hcls) in H0 as (m1 & s1 & -> & Hm1 & _ & H0).
    exists m1, s1. by split_and!.
Qed.

Lemma starLoop_total (m : string -> (string -> option A) -> option A)
    fuel s k :
  k s <> None -> Regex.starLoop m fuel s k <> None.
Proof. intros Hk. destruct fuel; cbn; [done|]. by destruct (m s _). Qed.

End MatcherFacts.

Lemma matchLength_sound P r s n :
  classesIn P r -> Regex.matchLength r s = Some n ->
  exists m s', s = m +:+ s' /\ allChars P m = true /\ n = String.length m
               /\ (nullable r = false -> n <> 0).
Proof.
  intros Hcls H. apply (matcher_sound P r Hcls) in H as (m & s' & -> & Hm & Hn & H).
  exists m, s'. injection H as <-. split_and!; try done.
  - rewrite str_length_app. lia.
  - intros Hnull. rewrite str_length_app. rewrite Hnull in Hn.
    specialize (Hn eq_refl). destruct m; [done|]. cbn. lia.
Qed.

Lemma oldUrlsSeparator_classes : classesIn isSepOrWhite oldUrlsSeparator.
Proof.
  unfold isSepOrWhite. cbn. split_and!; intros c ->; by rewrite ?orb_true_r.
Qed.

Lemma sep_matches c s :
  isSep c = true -> Regex.matchLength oldUrlsSeparator (String c s) <> None.
Proof.
  intros Hc. unfold Regex.matchLength, oldUrlsSeparator.
  cbn [Regex.matcher]. case_match; [done|].
  exfalso. revert H. apply starLoop_total.
  cbn [Regex.matcher Regex.Plus]. rewrite Hc.
  apply starLoop_total, starLoop_total. done.
Qed.

Lemma white2_matches c1 c2 s :
  isWhite c1 = true -> isWhite c2 = true ->
  Regex.matchLength oldUrlsSeparator (String c1 (String c2 s)) <> None.
Proof.
  intros H1 H2. unfold Regex.matchLength, oldUrlsSeparator.
  cbn [Regex.matcher]. case_match; [done|].
  cbn [Regex.AtLeast2 Regex.matcher]. rewrite H1, H2.
  apply starLoop_total. done.
Qed.

Lemma noDoubleWhite_snoc f c :
  noDoubleWhite f = true -> (lastIsWhite f = true -> isWhite c = false) ->
  noDoubleWhite (f +:+ String c EmptyString) = true.
Proof.
  induction f as [|x f IH]; [done|]. intros Hf Hlast.
  rewrite str_app_cons. destruct f as [|y f].
  - change (negb (isWhite x && isWhite c) && true = true).
    change (isWhite x = true -> isWhite c = false) in Hlast.
    destruct (isWhite x); [by rewrite Hlast|done].
  - rewrite str_app_cons in *. cbn [noDoubleWhite] in *.
    apply andb_true_iff in Hf as [-> Hf]. cbn [negb andb]. by apply IH.
Qed.

Lemma lastIsWhite_snoc f c : lastIsWhite (f +:+ String c EmptyString) = isWhite c.
Proof.
  induction f as [|x f IH]; [done|]. rewrite str_app_cons.
  destruct f as [|y f]; [done|]. rewrite str_app_cons in *. exact IH.
Qed.

Lemma fragOk_empty : fragOk EmptyString.
Proof. done. Qed.

Lemma fragOk_tail c s : fragOk (String c s) -> fragOk s.
Proof.
  intros [Ha Hn]. cbn in Ha. apply andb_true_iff in Ha as [_ Ha].
  split; [done|]. destruct s as [|d s]; [done|].
  cbn [noDoubleWhite] in Hn. by apply andb_true_iff in Hn as [_ Hn].
Qed.

Lemma split_go_fragOk s skip frag :
  (skip = 0 -> fragOk frag /\ (lastIsWhite frag = true -> headIsWhite s = false)) ->
  (skip <> 0 -> frag = EmptyString) ->
  Forall fragOk (Regex.split_go oldUrlsSeparator skip frag s).
Proof.
  revert skip frag. induction s as [|c s IH]; intros skip frag H0 Hskip.
  - cbn. constructor; [|constructor].
    destruct skip; [by apply H0|]. rewrite Hskip by done. apply fragOk_empty.
  - cbn [Regex.split_go]. destruct skip as [|skip].
    + destruct (H0 eq_refl) as [[Ha Hn] Hlast]. cbn in Hlast.
      destruct (Regex.matchLength oldUrlsSeparator (String c s)) as [[|m]|] eqn:E.
      * apply (matchLength_sound _ _ _ _ oldUrlsSeparator_classes) in E
          as (? & ? & _ & _ & _ & Hnz). by specialize (Hnz eq_refl).
      * constructor; [done|]. apply IH; [|done].
        intros _. split; [apply fragOk_empty|done].
      * assert (isSep c = false) as Hc.
        { destruct (isSep c) eqn:Hc; [|done]. by apply (sep_matches c s) in Hc. }
        apply IH; [|done]. intros _. split; [split|].
        -- rewrite allChars_app, Ha. cbn. by rewrite Hc.
        -- by apply noDoubleWhite_snoc.
        -- rewrite lastIsWhite_snoc. intros Hw. destruct s as [|d s]; [done|].
           cbn. destruct (isWhite d) eqn:Hd; [|done].
           by apply (white2_matches c d s Hw) in Hd.
    + rewrite Hskip by done. apply IH; [|done].
      intros _. split; [apply fragOk_empty|done].
Qed.

Lemma fragOk_dropWhile f s : fragOk s -> fragOk (dropWhile f s).
Proof.
  induction s as [|c s IH]; [done|]. intros H. cbn.
  destruct (f c); [|done]. by apply IH, (fragOk_tail c).
Qed.

Lemma dropWhileEnd_head f s d r :
  dropWhileEnd f s = String d r -> exists t, s = String d t.
Proof.
  destruct s as [|c s]; [done|]. rewrite dropWhileEnd_cons.
  destruct (dropWhileEnd f s); [destruct (f c)|]; intros [= -> _]; by eexists.
Qed.

Lemma fragOk_dropWhileEnd f s : fragOk s -> fragOk (dropWhileEnd f s).
Proof.
  induction s as [|c s IH]; [done|]. intros H.
  pose proof (IH (fragOk_tail _ _ H)) as [Ha Hn].
  destruct H as [Ha' Hn']. cbn in Ha'. apply andb_true_iff in Ha' as [Hc _].
  rewrite dropWhileEnd_cons. destruct (dropWhileEnd f s) as [|d r] eqn:E.
  - destruct (f c); [done|]. split; cbn; [by rewrite Hc|done].
  - split; [cbn; by rewrite Hc|].
    apply dropWhileEnd_head in E as [t ->].
    cbn [noDoubleWhite] in Hn'. apply andb_true_iff in Hn' as [Hcd _].
    cbn [noDoubleWhite]. cbn [noDoubleWhite] in Hn. by rewrite Hcd.
Qed.

Lemma fragOk_trim s : fragOk s -> fragOk (trim s).
Proof. intros H. by apply fragOk_dropWhileEnd, fragOk_dropWhile. Qed.

Lemma dropWhile_head_false f s :
  match dropWhile f s with String c _ => f c = false | EmptyString => True end.
Proof.
  induction s as [|c s IH]; [done|]. cbn. destruct (f c) eqn:E; [done|]. done.
Qed.

Lemma trim_idem s : trim (trim s) = trim s.
Proof.
  unfold trim. pose proof (dropWhile_head_false isWhite s) as H.
  destruct (dropWhile isWhite s) as [|c t] eqn:E; [done|].
  assert (dropWhile isWhite (dropWhileEnd isWhite (String c t))
          = dropWhileEnd isWhite (String c t)) as ->.
  { rewrite dropWhileEnd_cons.
    destruct (dropWhileEnd isWhite t); rewrite ?H; cbn; by rewrite H. }
  apply dropWhileEnd_idem.
Qed.

Lemma filterChars_dropWhile f g s :
  (forall c, g c = true -> f c = false) ->
  filterChars f (dropWhile g s) = filterChars f s.
Proof.
  intros Hfg. induction s as [|c s IH]; [done|]. cbn.
  destruct (g c) eqn:E; [|done]. by rewrite (Hfg c E).
Qed.

Lemma filterChars_dropWhileEnd f g s :
  (forall c, g c = true -> f c = false) ->
  filterChars f (dropWhileEnd g s) = filterChars f s.
Proof.
  intros Hfg. induction s as [|c s IH]; [done|]. rewrite dropWhileEnd_cons.
  cbn [filterChars]. rewrite <- IH.
  destruct (dropWhileEnd g s) as [|d r]; [|done].
  destruct (g c) eqn:E; [by rewrite (Hfg c E)|done].
Qed.

Lemma keepChar_white c : isWhite c = true -> keepChar c = false.
Proof. unfold keepChar, isSepOrWhite. by intros ->. Qed.

Lemma filterChars_trim s : filterChars keepChar (trim s) = filterChars keepChar s.
Proof.
  unfold trim.
  rewrite filterChars_dropWhileEnd, filterChars_dropWhile;
    auto using keepChar_white.
Qed.

Lemma takeChars_app m s : takeChars (String.length m) (m +:+ s) = m.
Proof.
  induction m as [|c m IH]; [by destruct s|].
  rewrite str_app_cons. cbn. by rewrite IH.
Qed.

Lemma split_go_content s skip frag :
  allChars isSepOrWhite (takeChars skip s) = true ->
  filterChars keepChar (concatStr (Regex.split_go oldUrlsSeparator skip frag s))
  = filterChars keepChar frag +:+ filterChars keepChar s.
Proof.
  revert skip frag. induction s as [|c s IH]; intros skip frag Hskip.
  - cbn. by rewrite !str_app_nil_r.
  - cbn [Regex.split_go]. destruct skip as [|skip].
    + destruct (Regex.matchLength oldUrlsSeparator (String c s)) as [[|m]|] eqn:E.
      * assert (filterChars keepChar
                  (concatStr (Regex.split_go oldUrlsSeparator 0
                                (String c EmptyString) s))
                = filterChars keepChar (String c s)) as E'.
        { rewrite IH by done. by rewrite <- filterChars_app. }
        destruct frag as [|x frag]; [done|].
        cbn [concatStr foldr]. fold (concatStr (Regex.split_go oldUrlsSeparator 0
                                                 (String c EmptyString) s)).
        by rewrite filterChars_app, E'.
      * apply (matchLength_sound _ _ _ _ oldUrlsSeparator_classes) in E
          as (mm & rest & Hs & Hmm & Hlen & _).
        destruct mm as [|c' mm]; [done|]. rewrite str_app_cons in Hs.
        injection Hs as <- ->. injection Hlen as ->.
        cbn in Hmm. apply andb_true_iff in Hmm as [Hc Hmm].
        cbn [concatStr foldr].
        fold (concatStr (Regex.split_go oldUrlsSeparator (String.length mm)
                           EmptyString (mm +:+ rest))).
        rewrite filterChars_app, IH by (by rewrite takeChars_app).
        cbn [filterChars].
        assert (keepChar c = false) as -> by (unfold keepChar; by rewrite Hc).
        done.
      * rewrite IH by done. rewrite filterChars_app, str_app_assoc.
        f_equal. by rewrite <- filterChars_app.
    + cbn in Hskip. apply andb_true_iff in Hskip as [Hc Hskip].
      rewrite IH by done. cbn [filterChars].
        assert (keepChar c = false) as -> by (unfold keepChar; by rewrite Hc).
        done.
Qed.

Lemma concatStr_trimmed (l : list string) :
  filterChars keepChar
    (concatStr (filter (fun s => truthy s = true) (map trim l)))
  = filterChars keepChar (concatStr l).
Proof.
  induction l as [|x l IH]; [done|].
  cbn [map]. rewrite filter_cons. cbn [concatStr foldr].
  fold (concatStr l). rewrite filterChars_app, <- IH, <- (filterChars_trim x).
  case_decide as Hx.
  - cbn [concatStr foldr]. by rewrite filterChars_app.
  - destruct (trim x); [done|]. by cbn in Hx.
Qed.

(** * Further properties *)

(** ** Command-line arguments *)

Lemma lastIndexOf_None name args : lastIndexOf name args = None <-> name ∉ args.
Proof.
  induction args as [|a args IH]; cbn.
  - split; [intros _; apply not_elem_of_nil|done].
  - destruct (lastIndexOf name args) as [i|].
    + split; [done|]. intros Hn. exfalso. apply Hn. right.
      destruct (decide (name ∈ args)) as [|Hno]; [done|].
      by apply IH in Hno.
    + case_bool_decide as Ha.
      * split; [done|]. intros Hn. exfalso. apply Hn. subst. left.
      * split; [|done]. intros _ [->|Hin]%elem_of_cons; [done|].
        by apply (proj1 IH).
Qed.

Lemma lastIndexOf_Some name args i :
  lastIndexOf name args = Some i ->
  exists before after,
    args = before ++ name :: after /\ length before = i /\ name ∉ after.
Proof.
  revert i. induction args as [|a args IH]; intros i; cbn; [done|].
  destruct (lastIndexOf name args) as [j|] eqn:E.
  - intros [= <-]. destruct (IH j eq_refl) as (before & after & -> & <- & Hno).
    by exists (a :: before), after.
  - case_bool_decide as Ha; [|done]. intros [= <-]. subst a.
    exists [], args. split_and!; try done. by apply lastIndexOf_None.
Qed.

Lemma lastIndexOf_last name before after :
  name ∉ after -> lastIndexOf name (before ++ name :: after) = Some (length before).
Proof.
  intros Hno. induction before as [|b before IH]; cbn.
  - apply lastIndexOf_None in Hno as ->. by rewrite bool_decide_true.
  - by rewrite IH.
Qed.

(** X1: [getArgValue] returns the argument that follows the last
    occurrence of the flag; it returns nothing exactly when the flag does
    not occur or is the last argument. *)
Theorem getArgValue_last_occurrence (args : list string) (name v : string) :
  (getArgValue args name = Some v <->
   exists before after, args = before ++ name :: v :: after /\ name ∉ v :: after)
  /\ (getArgValue args name = None <->
      name ∉ args \/ exists before, args = before ++ [name]).
Proof.
  unfold getArgValue. split; split.
  - destruct (lastIndexOf name args) as [i|] eqn:E; [|done].
    apply lastIndexOf_Some in E as (before & after & -> & <- & Hno).
    rewrite lookup_app_r by lia.
    replace (length before + 1 - length before) with 1 by lia.
    destruct after as [|w after]; [done|]. intros [= ->]. by exists before, after.
  - intros (before & after & -> & Hno).
    rewrite (lastIndexOf_last name before (v :: after) Hno).
    rewrite lookup_app_r by lia.
    by replace (length before + 1 - length before) with 1 by lia.
  - destruct (lastIndexOf name args) as [i|] eqn:E.
    + apply lastIndexOf_Some in E as (before & after & -> & <- & Hno).
      rewrite lookup_app_r by lia.
      replace (length before + 1 - length before) with 1 by lia.
      destruct after as [|w after]; [|done]. intros _. right. by exists before.
    + intros _. left. by apply lastIndexOf_None.
  - intros [Hno|(before & ->)].
    + by apply lastIndexOf_None in Hno as ->.
    + rewrite (lastIndexOf_last name before []) by apply not_elem_of_nil.
      rewrite lookup_app_r by lia.
      by replace (length before + 1 - length before) with 1 by lia.
Qed.

(** ** Lists without duplicates *)

Lemma setAdd_elem out x : x ∈ out -> setAdd out x = out.
Proof. intros Hx. unfold setAdd. by rewrite bool_decide_true. Qed.

Lemma fold_setAdd_NoDup l acc :
  NoDup (acc ++ l) -> fold_left setAdd l acc = acc ++ l.
Proof.
  revert acc. induction l as [|x l IH]; intros acc Hnd; cbn.
  - by rewrite app_nil_r.
  - apply NoDup_app in Hnd as Hnd'. destruct Hnd' as (_ & Hdis & _).
    unfold setAdd at 2. rewrite bool_decide_false.
    + rewrite IH; [by rewrite <- app_assoc|]. by rewrite <- app_assoc.
    + intros Hx. apply (Hdis x Hx). left.
Qed.

(** X2: [uniq] returns a list without duplicates that has exactly the
    members of its input; an input without duplicates is returned as it
    is, so [uniq] is idempotent. *)
Theorem uniq_members (values : list string) :
  NoDup (uniq values)
  /\ (forall x, x ∈ uniq values <-> x ∈ values)
  /\ (NoDup values -> uniq values = values)
  /\ uniq (uniq values) = uniq values.
Proof.
  unfold uniq. split; [|split; [|split]].
  - apply NoDup_setOf.
  - intros x. apply elem_of_setOf.
  - intros Hnd. by apply (fold_setAdd_NoDup values []).
  - apply (fold_setAdd_NoDup (setOf values) []), NoDup_setOf.
Qed.

(** ** Paths *)

Lemma normalizeRel_cons c p :
  normalizeRel (String c p)
  = String (if Ascii.eqb "\" c then "/"%char else c) (normalizeRel p).
Proof.
  unfold normalizeRel, replaceAll. cbn [replaceAll_go startsWith].
  destruct (Ascii.eqb "\" c); reflexivity.
Qed.

(** X3: [normalizeRel] returns a string of the same length without any
    backslash; a string without backslash is returned as it is, so
    [normalizeRel] is idempotent. *)
Theorem normalizeRel_no_backslash (p : string) :
  charIn "\" (normalizeRel p) = false
  /\ String.length (normalizeRel p) = String.length p
  /\ (charIn "\" p = false -> normalizeRel p = p)
  /\ normalizeRel (normalizeRel p) = normalizeRel p.
Proof.
  assert (forall q, charIn "\" q = false -> normalizeRel q = q) as Hid.
  { induction q as [|c q IH]; [done|]. rewrite normalizeRel_cons. cbn [charIn].
    intros [Hc Hq]%orb_false_iff. by rewrite Hc, IH. }
  assert (forall q, charIn "\" (normalizeRel q) = false) as Hno.
  { induction q as [|c q IH]; [done|]. rewrite normalizeRel_cons. cbn [charIn].
    rewrite IH. by destruct (Ascii.eqb "\" c) eqn:E; [|rewrite E]. }
  assert (forall q, String.length (normalizeRel q) = String.length q) as Hlen.
  { induction q as [|c q IH]; [done|]. rewrite normalizeRel_cons.
    cbn [String.length]. by rewrite IH. }
  split; [apply Hno|]. split; [apply Hlen|]. split; [apply Hid|apply Hid, Hno].
Qed.

Lemma charIn_rev_app c a b :
  charIn c (String.rev_app a b) = charIn c a || charIn c b.
Proof.
  revert b. induction a as [|x a IH]; intros b; [done|].
  cbn [String.rev_app charIn]. rewrite IH. cbn [charIn].
  by destruct (Ascii.eqb c x), (charIn c a), (charIn c b).
Qed.

Lemma splitChar_go_no_sep sep cur s :
  charIn sep cur = false ->
  Forall (fun f => charIn sep f = false) (splitChar_go sep cur s).
Proof.
  revert cur. induction s as [|c s IH]; intros cur Hcur; cbn [splitChar_go].
  - constructor; [|constructor]. unfold String.rev.
    by rewrite charIn_rev_app, Hcur.
  - destruct (Ascii.eqb c sep) eqn:E.
    + constructor; [|by apply IH]. unfold String.rev.
      by rewrite charIn_rev_app, Hcur.
    + apply IH. cbn [charIn]. by rewrite Ascii.eqb_sym, E, Hcur.
Qed.

Lemma splitChar_no_sep sep s :
  Forall (fun f => charIn sep f = false) (splitChar sep s).
Proof. by apply splitChar_go_no_sep. Qed.

(** X4: for every parser, a tail that [pathTail] returns is not empty
    and holds no slash; so the patterns [/<tail>/] and [/<tail>] of tier 2
    name one whole segment. *)
Theorem pathTail_segment (new_URL : string -> option Url.URL) (urlStr t : string) :
  pathTail new_URL urlStr = Some t ->
  t <> EmptyString /\ charIn "/" t = false.
Proof.
  unfold pathTail. intros Hlast. apply last_Some_elem_of in Hlast.
  destruct (new_URL urlStr) as [u|];
    apply list_elem_of_filter in Hlast as [Ht Hin];
    (split; [by destruct t|]);
    exact (proj1 (Forall_forall (fun f => charIn "/" f = false) _)
             (splitChar_no_sep _ _) _ Hin).
Qed.

Lemma pathTail_segment_witness :
  pathTail Url.parse "https://x.test/nl/golfreis/foo-tour/?a=b/c" = Some "foo-tour"
  /\ "foo-tour" <> EmptyString /\ charIn "/" "foo-tour" = false.
Proof.
  split; [by vm_compute|].
  apply (pathTail_segment Url.parse "https://x.test/nl/golfreis/foo-tour/?a=b/c").
  by vm_compute.
Defined.

(** ** Candidate derivation, continued *)

Lemma startsWith_includes a b s :
  startsWith (a +:+ b) s = true -> includes b s = true.
Proof.
  revert s. induction a as [|x a IH]; intros s.
  - change (EmptyString +:+ b) with b. intros H. destruct s; cbn; by rewrite H.
  - rewrite str_app_cons. destruct s as [|y s]; [done|]. cbn [startsWith].
    intros [_ H]%andb_true_iff. cbn [includes]. rewrite (IH s H).
    by rewrite orb_true_r.
Qed.

Lemma includes_suffix a b s :
  includes (a +:+ b) s = true -> includes b s = true.
Proof.
  induction s as [|y s IH].
  - cbn [includes]. rewrite orb_false_r. apply startsWith_includes.
  - cbn [includes]. intros [H|H]%orb_true_iff.
    + by apply startsWith_includes in H.
    + rewrite (IH H). by rewrite orb_true_r.
Qed.

Lemma replace_absent pat rep s :
  includes pat s = false -> replace pat rep s = s.
Proof.
  induction s as [|c s IH]; [done|]. cbn [includes replace].
  intros [-> H]%orb_false_iff. by rewrite IH.
Qed.

Lemma head_setAdd out x y : head out = Some x -> head (setAdd out y) = Some x.
Proof.
  intros H. unfold setAdd. case_bool_decide; [done|]. by destruct out.
Qed.

Lemma length_setAdd out x : length (setAdd out x) <= S (length out).
Proof.
  unfold setAdd. case_bool_decide; [lia|]. rewrite length_app. cbn. lia.
Qed.

(** X5: for every parser, the first candidate of a legacy URL is its
    [full] form, there are at most eight candidates, and a URL without
    [/golfreis/] in either form has these two forms as its only
    candidates. *)
Theorem deriveCandidates_first (new_URL : string -> option Url.URL) (oldUrl : string) :
  let full := (normalizeForMatch new_URL oldUrl).1 in
  let noQuery := (normalizeForMatch new_URL oldUrl).2 in
  head (deriveCandidatesFromOldUrl new_URL oldUrl) = Some full
  /\ length (deriveCandidatesFromOldUrl new_URL oldUrl) <= 8
  /\ (includes "/golfreis/" full = false ->
      includes "/golfreis/" noQuery = false ->
      deriveCandidatesFromOldUrl new_URL oldUrl = setOf [full; noQuery]).
Proof.
  intros full noQuery. subst full noQuery. unfold deriveCandidatesFromOldUrl.
  destruct (normalizeForMatch new_URL oldUrl) as [f n]. cbn [fst snd fold_left].
  split; [|split].
  - do 6 apply head_setAdd. unfold setOf. cbn [fold_left].
    apply head_setAdd. unfold setAdd. by rewrite bool_decide_false by apply not_elem_of_nil.
  - repeat (etrans; [apply length_setAdd|]; apply le_n_S). cbn. lia.
  - intros Hf Hn.
    assert (forall s, includes "/golfreis/" s = false ->
                      replace "/nl/golfreis/" "/nl/" s = s
                      /\ replace "/en/golfreis/" "/en/" s = s
                      /\ replace "/golfreis/" "/" s = s) as Hrep.
    { intros s Hs. split_and!; apply replace_absent; try done.
      - destruct (includes "/nl/golfreis/" s) eqn:E; [|done].
        apply (includes_suffix "/nl" "/golfreis/") in E. congruence.
      - destruct (includes "/en/golfreis/" s) eqn:E; [|done].
        apply (includes_suffix "/en" "/golfreis/") in E. congruence. }
    destruct (Hrep f Hf) as (-> & -> & ->). destruct (Hrep n Hn) as (-> & -> & ->).
    assert (f ∈ setOf [f; n]) as Hfin by (apply elem_of_setOf; left).
    assert (n ∈ setOf [f; n]) as Hnin by (apply elem_of_setOf; right; left).
    by rewrite !(setAdd_elem _ f Hfin), !(setAdd_elem _ n Hnin).
Qed.

(** ** Tier 3, continued *)

Section BestToken.

Variable tokens : list string.
Variable preferLang : Lang.

Local Abbreviation score := (pageScore tokens preferLang).

(** The loop either leaves the accumulator, when no page scores above
    it, or ends on the first page with the highest score. *)
Lemma bestLoop_spec pages acc :
  (fold_left (bestStep tokens preferLang) pages acc = acc
   /\ forall q, q ∈ pages -> score q <= snd acc)
  \/ (exists before p after,
        pages = before ++ p :: after
        /\ fold_left (bestStep tokens preferLang) pages acc = (Some p, score p)
        /\ snd acc < score p
        /\ (forall q, q ∈ before -> score q < score p)
        /\ (forall q, q ∈ after -> score q <= score p)).
Proof.
  revert acc. induction pages as [|x l IH]; intros acc; cbn [fold_left].
  - left. split; [done|]. intros q Hq. by apply elem_of_nil in Hq.
  - unfold bestStep at 2 4. fold (score x).
    destruct (snd acc <? score x) eqn:E.
    + apply Nat.ltb_lt in E.
      destruct (IH (Some x, score x)) as [[Hr Hall]|(before & p & after & -> & Hr & Hlt & Hb & Ha)].
      * right. exists [], x, l. split_and!; try done.
        intros q Hq. by apply elem_of_nil in Hq.
      * right. exists (x :: before), p, after. cbn [snd] in Hlt.
        split_and!; try done; [lia|].
        intros q [->|Hq]%elem_of_cons; [done|by apply Hb].
    + apply Nat.ltb_ge in E.
      destruct (IH acc) as [[Hr Hall]|(before & p & after & -> & Hr & Hlt & Hb & Ha)].
      * left. split; [done|]. intros q [->|Hq]%elem_of_cons; [done|by apply Hall].
      * right. exists (x :: before), p, after. split_and!; try done.
        intros q [->|Hq]%elem_of_cons; [lia|by apply Hb].
Qed.

Lemma bestTokenMatch_None_scores pages :
  tokens <> [] -> bestTokenMatch pages tokens preferLang = None ->
  forall q, q ∈ pages -> score q < 2.
Proof.
  intros Hne. unfold bestTokenMatch. destruct tokens as [|t ts] eqn:Et; [done|].
  rewrite <- Et.
  destruct (bestLoop_spec pages (None, 0))
    as [[-> Hall]|(before & p & after & -> & -> & Hlt & Hb & Ha)].
  - intros _ q Hq. specialize (Hall q Hq). cbn in Hall. lia.
  - destruct (2 <=? score p) eqn:E; [done|]. apply Nat.leb_gt in E.
    intros _ q [Hq|[->|Hq]%elem_of_cons]%elem_of_app.
    + specialize (Hb q Hq). lia.
    + done.
    + specialize (Ha q Hq). lia.
Qed.

End BestToken.

(** X6: a page that [bestTokenMatch] returns scores at least 2, no page
    scores higher, and every page before it in the list scores strictly
    lower: ties go to the page met first. *)
Theorem bestTokenMatch_first_best (pages : list PageMedia)
    (tokens : list string) (preferLang : Lang) (p : PageMedia) :
  bestTokenMatch pages tokens preferLang = Some p ->
  tokens <> []
  /\ 2 <= pageScore tokens preferLang p
  /\ exists before after,
       pages = before ++ p :: after
       /\ (forall q, q ∈ before ->
             pageScore tokens preferLang q < pageScore tokens preferLang p)
       /\ (forall q, q ∈ after ->
             pageScore tokens preferLang q <= pageScore tokens preferLang p).
Proof.
  unfold bestTokenMatch. destruct tokens as [|t ts] eqn:Et; [done|].
  rewrite <- Et.
  destruct (bestLoop_spec tokens preferLang pages (None, 0))
    as [[-> Hall]|(before & p' & after & -> & -> & Hlt & Hb & Ha)]; [done|].
  destruct (2 <=? pageScore tokens preferLang p') eqn:E; [|done].
  intros [= ->]. apply Nat.leb_le in E. split; [by rewrite Et|].
  split; [done|]. by exists before, after.
Qed.

Lemma bestTokenMatch_first_best_witness :
  bestTokenMatch [otherPage; fooPage; barPage] ["foo"; "bar"] NL = Some fooPage
  /\ 2 <= pageScore ["foo"; "bar"] NL fooPage
  /\ pageScore ["foo"; "bar"] NL fooPage = pageScore ["foo"; "bar"] NL barPage.
Proof.
  split; [by vm_compute|]. split; [|by vm_compute].
  apply (bestTokenMatch_first_best [otherPage; fooPage; barPage] ["foo"; "bar"] NL).
  by vm_compute.
Defined.

(** X7: [bestTokenMatch] returns nothing exactly when there are no
    tokens or every page scores below 2. *)
Theorem bestTokenMatch_none (pages : list PageMedia) (tokens : list string)
    (preferLang : Lang) :
  bestTokenMatch pages tokens preferLang = None
  <-> tokens = [] \/ forall q, q ∈ pages -> pageScore tokens preferLang q < 2.
Proof.
  split.
  - intros H. destruct tokens as [|t ts] eqn:Et; [by left|]. right.
    rewrite <- Et in *. apply bestTokenMatch_None_scores; [by rewrite Et|done].
  - intros [->|Hall]; [done|]. unfold bestTokenMatch.
    destruct tokens as [|t ts] eqn:Et; [done|]. rewrite <- Et in *.
    destruct (bestLoop_spec tokens preferLang pages (None, 0))
      as [[-> _]|(before & p & after & -> & -> & _)]; [done|].
    assert (pageScore tokens preferLang p < 2) as Hp.
    { apply Hall. apply elem_of_app. right. left. }
    destruct (2 <=? pageScore tokens preferLang p) eqn:E; [|done].
    apply Nat.leb_le in E. lia.
Qed.

Lemma score_fold link (tokens : list string) n :
  fold_left (fun score token => if includes token link then score + 2 else score)
    tokens n
  = n + 2 * length (filter (fun t => includes t link = true) tokens).
Proof.
  revert n. induction tokens as [|t ts IH]; intros n; cbn [fold_left].
  - rewrite filter_nil. cbn. lia.
  - rewrite IH, filter_cons. destruct (includes t link) eqn:E.
    + rewrite decide_True by done. cbn [length]. lia.
    + rewrite decide_False by done. lia.
Qed.

Lemma pageScore_formula tokens preferLang p :
  pageScore tokens preferLang p
  = (if includes (langSegment preferLang) (toLowerCase (link p)) then 3 else 0)
    + 2 * length (filter (fun t => includes t (toLowerCase (link p)) = true) tokens).
Proof. unfold pageScore, scorePageForTokens. apply score_fold. Qed.

Lemma bestLoop_stays tokens preferLang pages p :
  (forall q, q ∈ pages -> pageScore tokens preferLang q <= 3) ->
  fold_left (bestStep tokens preferLang) pages (Some p, 3) = (Some p, 3).
Proof.
  induction pages as [|x l IH]; intros Hall; cbn [fold_left]; [done|].
  unfold bestStep at 2. fold (pageScore tokens preferLang x). cbn [snd].
  assert (pageScore tokens preferLang x <= 3) as Hx by (apply Hall; left).
  apply Nat.ltb_ge in Hx as ->. apply IH. intros q Hq. apply Hall. by right.
Qed.

Lemma bestLoop_bonus_only tokens preferLang pages :
  (forall q, q ∈ pages ->
     pageScore tokens preferLang q
     = if includes (langSegment preferLang) (toLowerCase (link q)) then 3 else 0) ->
  fold_left (bestStep tokens preferLang) pages (None, 0)
  = match head (filter (fun q => includes (langSegment preferLang)
                                   (toLowerCase (link q)) = true) pages) with
    | Some p => (Some p, 3)
    | None => (None, 0)
    end.
Proof.
  induction pages as [|x l IH]; intros Hall; cbn [fold_left]; [done|].
  unfold bestStep at 2. fold (pageScore tokens preferLang x). cbn [snd].
  rewrite filter_cons, (Hall x) by left.
  destruct (includes (langSegment preferLang) (toLowerCase (link x))) eqn:E.
  - rewrite decide_True by done. cbn [head Nat.ltb Nat.leb].
    apply bestLoop_stays. intros q Hq. rewrite Hall by (by right).
    destruct (includes _ (toLowerCase (link q))); lia.
  - rewrite decide_False by done. cbn [Nat.ltb Nat.leb].
    apply IH. intros q Hq. apply Hall. by right.
Qed.

(** X8: when the slug gives tokens and the Dutch pass finds nothing, no
    token occurs in any link, and tier 3 returns the first page whose
    lower-cased link holds [/en/], if there is one. *)
Theorem tokenMatch_english_fallback (pages : list PageMedia) (slug : string) :
  tokenizeSlug slug <> [] ->
  bestTokenMatch pages (tokenizeSlug slug) NL = None ->
  (forall q t, q ∈ pages -> t ∈ tokenizeSlug slug ->
     includes t (toLowerCase (link q)) = false)
  /\ tokenMatch pages slug
     = head (filter (fun q => includes "/en/" (toLowerCase (link q)) = true) pages).
Proof.
  intros Hne Hnl.
  pose proof (bestTokenMatch_None_scores _ _ _ Hne Hnl) as Hlow.
  assert (forall q, q ∈ pages ->
            filter (fun t => includes t (toLowerCase (link q)) = true)
              (tokenizeSlug slug) = []) as Hnohit.
  { intros q Hq. specialize (Hlow q Hq). rewrite pageScore_formula in Hlow.
    destruct (filter _ _); [done|]. cbn [length] in Hlow. lia. }
  split.
  - intros q t Hq Ht. specialize (Hnohit q Hq).
    destruct (includes t (toLowerCase (link q))) eqn:E; [|done].
    assert (t ∈ filter (fun t => includes t (toLowerCase (link q)) = true)
                  (tokenizeSlug slug)) as Hin by (by apply list_elem_of_filter).
    rewrite Hnohit in Hin. by apply elem_of_nil in Hin.
  - unfold tokenMatch. rewrite Hnl. unfold bestTokenMatch.
    destruct (tokenizeSlug slug) as [|t ts] eqn:Et; [done|]. rewrite <- Et in *.
    rewrite bestLoop_bonus_only.
    + change (langSegment EN) with "/en/". by destruct (head _).
    + intros q Hq. rewrite pageScore_formula, (Hnohit q Hq). cbn [length]. lia.
Qed.

Lemma tokenMatch_english_fallback_witness :
  tokenMatch [otherPage; enPage; shortPage] "/golfreizen/schotland/zzz"
  = Some enPage.
Proof.
  destruct (tokenMatch_english_fallback [otherPage; enPage; shortPage]
              "/golfreizen/schotland/zzz") as [_ ->]; by vm_compute.
Defined.

(** ** Tier 2, continued *)

Lemma firstShortest_exists l : l <> [] -> exists b, firstShortest b l.
Proof.
  induction l as [|x l IH]; [done|]. intros _.
  destruct l as [|y l].
  - exists x, [], []. split_and!; try done; intros q Hq; by apply elem_of_nil in Hq.
  - destruct IH as (b & before & after & Hl & Hb & Ha); [done|].
    destruct (decide (linkLength x <= linkLength b)) as [Hle|Hgt].
    + exists x, [], (y :: l). split_and!; try done.
      * intros q Hq. by apply elem_of_nil in Hq.
      * intros q Hq. rewrite Hl in Hq.
        apply elem_of_app in Hq as [Hq|[->|Hq]%elem_of_cons].
        -- specialize (Hb q Hq). lia.
        -- done.
        -- specialize (Ha q Hq). lia.
    + exists b, (x :: before), after. split_and!; try done.
      * by rewrite Hl.
      * intros q [->|Hq]%elem_of_cons; [lia|by apply Hb].
Qed.

Lemma head_sortByLength_first b l :
  firstShortest b l -> head (sortByLength l) = Some b.
Proof.
  intros (before & after & -> & Hb & Ha).
  induction before as [|x before IH].
  - cbn [app sortByLength foldr]. fold (sortByLength after).
    rewrite head_insertByLength.
    destruct (head (sortByLength after)) as [y|] eqn:Hy; [|done].
    apply head_sortByLength_min in Hy as [Hy _]. specialize (Ha y Hy).
    unfold linkLength in Ha. by apply Nat.leb_le in Ha as ->.
  - cbn [app sortByLength foldr]. fold (sortByLength (before ++ b :: after)).
    rewrite head_insertByLength, IH.
    + assert (linkLength b < linkLength x) as Hx by (apply Hb; left).
      unfold linkLength in Hx. by apply Nat.leb_gt in Hx as ->.
    + intros q Hq. apply Hb. by right.
Qed.

(** X9: [preferBestMatch] returns nothing only for no candidates. The
    page it returns is the first of the shortest links of the pool: the
    candidates whose link holds the language segment if there are any,
    all candidates otherwise; so it holds the segment whenever some
    candidate does. *)
Theorem preferBestMatch_first_shortest (candidates : list PageMedia)
    (preferLang : Lang) :
  let byLang :=
    filter (fun c => includes (langSegment preferLang) (link c) = true) candidates in
  let pool := match byLang with [] => candidates | _ => byLang end in
  (preferBestMatch candidates preferLang = None <-> candidates = [])
  /\ forall b, preferBestMatch candidates preferLang = Some b ->
       b ∈ candidates
       /\ firstShortest b pool
       /\ ((exists c, c ∈ candidates
                      /\ includes (langSegment preferLang) (link c) = true) ->
           includes (langSegment preferLang) (link b) = true).
Proof.
  intros byLang pool. unfold preferBestMatch. fold byLang. fold pool.
  assert (candidates <> [] -> pool <> []) as Hpool.
  { intros Hc. unfold pool. by destruct byLang. }
  assert (forall q, q ∈ pool -> q ∈ candidates) as Hsub.
  { intros q. unfold pool. destruct byLang eqn:E; [done|]. rewrite <- E.
    unfold byLang. by intros [_ ?]%list_elem_of_filter. }
  split.
  - split.
    + intros Hnone. destruct candidates as [|c cs]; [done|].
      destruct (head_sortByLength_is_Some pool) as [b Hb]; [by apply Hpool|].
      congruence.
    + intros ->. done.
  - intros b Hb.
    assert (pool <> []) as Hne by (intros E; by rewrite E in Hb).
    destruct (firstShortest_exists pool Hne) as [b' Hb'].
    rewrite (head_sortByLength_first b' pool Hb') in Hb. injection Hb as ->.
    assert (b ∈ pool) as Hin.
    { destruct Hb' as (before & after & -> & _). apply elem_of_app. right. left. }
    split_and!; [by apply Hsub|done|].
    intros (c & Hc & Hlang).
    assert (c ∈ byLang) as Hcb by (by apply list_elem_of_filter).
    unfold pool in Hin. destruct byLang eqn:E; [by apply elem_of_nil in Hcb|].
    rewrite <- E in Hin. unfold byLang in Hin.
    by apply list_elem_of_filter in Hin as [? _].
Qed.

(** ** The exact index *)

Section ExactIndex.

Variable new_URL : string -> option Url.URL.

Lemma indexPage_lookup_key m p k :
  isKeyOf new_URL k p -> indexPage new_URL m p !! k = Some p.
Proof.
  unfold isKeyOf, indexPage.
  destruct (normalizeForMatch new_URL (link p)) as [f n]. cbn [fst snd].
  intros [->| ->]; [|by rewrite lookup_insert_eq].
  destruct (decide (n = f)) as [->|Hne]; [by rewrite lookup_insert_eq|].
  by rewrite lookup_insert_ne, lookup_insert_eq.
Qed.

Lemma indexPage_lookup_other m p k :
  ~ isKeyOf new_URL k p -> indexPage new_URL m p !! k = m !! k.
Proof.
  unfold isKeyOf, indexPage.
  destruct (normalizeForMatch new_URL (link p)) as [f n]. cbn [fst snd].
  intros Hno. rewrite !lookup_insert_ne; [done|intros ->; tauto|intros ->; tauto].
Qed.

Lemma fold_indexPage_other pages m k :
  (forall q, q ∈ pages -> ~ isKeyOf new_URL k q) ->
  fold_left (indexPage new_URL) pages m !! k = m !! k.
Proof.
  revert m. induction pages as [|x l IH]; intros m Hall; cbn [fold_left]; [done|].
  rewrite IH by (intros q Hq; apply Hall; by right).
  apply indexPage_lookup_other, Hall. left.
Qed.

Lemma byExactOf_last before p after k :
  isKeyOf new_URL k p ->
  (forall q, q ∈ after -> ~ isKeyOf new_URL k q) ->
  byExactOf new_URL (before ++ p :: after) !! k = Some p.
Proof.
  intros Hk Hafter. unfold byExactOf. rewrite fold_left_app. cbn [fold_left].
  rewrite fold_indexPage_other by done. by apply indexPage_lookup_key.
Qed.

Lemma fold_indexPage_is_Some pages m k :
  is_Some (m !! k) \/ (exists q, q ∈ pages /\ isKeyOf new_URL k q) ->
  is_Some (fold_left (indexPage new_URL) pages m !! k).
Proof.
  revert m. induction pages as [|x l IH]; intros m; cbn [fold_left].
  - intros [H|(q & Hq & _)]; [done|by apply elem_of_nil in Hq].
  - intros H. apply IH.
    destruct (decide (isKeyOf new_URL k x)) as [Hx|Hx].
    + left. rewrite indexPage_lookup_key; done.
    + rewrite indexPage_lookup_other by done.
      destruct H as [H|(q & [->|Hq]%elem_of_cons & Hk)]; [by left|done|].
      right. by exists q.
Qed.

Lemma deriveCandidates_head oldUrl :
  exists rest,
    deriveCandidatesFromOldUrl new_URL oldUrl
    = (normalizeForMatch new_URL oldUrl).1 :: rest.
Proof.
  unfold deriveCandidatesFromOldUrl.
  destruct (normalizeForMatch new_URL oldUrl) as [f n]. cbn [fst snd fold_left].
  match goal with |- exists rest, ?l = _ => assert (head l = Some f) as Hh end.
  { do 6 apply head_setAdd. unfold setOf. cbn [fold_left].
    apply head_setAdd. unfold setAdd.
    by rewrite bool_decide_false by apply not_elem_of_nil. }
  match goal with |- exists rest, ?l = _ => destruct l as [|c cs] end; [done|].
  injection Hh as ->. by exists cs.
Qed.

End ExactIndex.

(** X10: for every parser, the exact index has an entry for a key
    exactly when the key is the [full] or [noQuery] URL of some page, and
    the entry is the last page of the list with that key. *)
Theorem byExactOf_last_wins (new_URL : string -> option Url.URL)
    (pages : list PageMedia) (k : string) :
  (is_Some (byExactOf new_URL pages !! k)
   <-> exists q, q ∈ pages /\ isKeyOf new_URL k q)
  /\ forall before p after,
       pages = before ++ p :: after ->
       isKeyOf new_URL k p ->
       (forall q, q ∈ after -> ~ isKeyOf new_URL k q) ->
       byExactOf new_URL pages !! k = Some p.
Proof.
  split.
  - split.
    + intros [p Hp]. destruct (byExactOf_lookup _ _ _ _ _ Hp) as [Hm|[Hin Hk]].
      * by rewrite lookup_empty in Hm.
      * by exists p.
    + intros H. apply fold_indexPage_is_Some. by right.
  - intros before p after -> Hk Hafter. by apply byExactOf_last.
Qed.

(** X11: for every parser, when the [full] form of a product's first
    legacy URL is a key of a page and of no later page, the product is
    matched to that page: the first probe of tier 1 decides. *)
Theorem exactMatch_own_url (new_URL : string -> option Url.URL)
    (before after : list PageMedia) (p : PageMedia) (product : Product)
    (oldUrl : string) (rest : list string) :
  oldUrlsOf product = oldUrl :: rest ->
  isKeyOf new_URL (normalizeForMatch new_URL oldUrl).1 p ->
  (forall q, q ∈ after ->
     ~ isKeyOf new_URL (normalizeForMatch new_URL oldUrl).1 q) ->
  pageMatchOf new_URL (before ++ p :: after)
    (byExactOf new_URL (before ++ p :: after)) product = Some p.
Proof.
  intros Hurls Hk Hafter. unfold pageMatchOf, findPageMatch. rewrite Hurls.
  cbn [exactMatch]. destruct (deriveCandidates_head new_URL oldUrl) as [cs ->].
  cbn [firstHit]. by rewrite (byExactOf_last new_URL before p after _ Hk Hafter).
Qed.

Lemma exactMatch_own_url_witness :
  pageMatchOf Url.parse [barPage; fooPage; otherPage]
    (byExactOf Url.parse [barPage; fooPage; otherPage]) ownProduct = Some fooPage.
Proof.
  apply (exactMatch_own_url Url.parse [barPage] [otherPage] fooPage ownProduct
           "HTTPS://X.test/nl/foo-tour#top" []).
  - by vm_compute.
  - right. by vm_compute.
  - intros q ->%list_elem_of_singleton. intros [H|H]; by vm_compute in H.
Defined.

(** ** Products without legacy URLs *)

(** X12: for every parser, a product whose [old_urls] is absent, not a
    string or empty skips tiers 1 and 2: its match is the tier-3 match of
    its slug, and nothing when the slug is absent or empty too. *)
Theorem no_old_urls_tier3_only (new_URL : string -> option Url.URL)
    (pages : list PageMedia) (byExact : gmap string PageMedia) (product : Product) :
  oldUrlsRawOf product = EmptyString ->
  pageMatchOf new_URL pages byExact product
  = if truthy (slugOf product) then tokenMatch pages (slugOf product) else None.
Proof.
  intros Hraw. unfold pageMatchOf, findPageMatch, oldUrlsOf. rewrite Hraw.
  cbn [truthy exactMatch]. unfold tailMatch, uniqTails. done.
Qed.

Lemma no_old_urls_tier3_only_witness :
  pageMatchOf Url.parse [otherPage] (byExactOf Url.parse [otherPage])
    {[ "old_urls" := JNumber 7%Q; "title" := JString "x" ]} = None.
Proof.
  rewrite (no_old_urls_tier3_only Url.parse [otherPage]
             (byExactOf Url.parse [otherPage])); by vm_compute.
Defined.

(** ** Matched products *)

(** X13: a processed product with a page match is appended with the
    page's images as [images]; [mapIframe] becomes the page's when that is
    a non-empty string and keeps the product's own value otherwise; every
    other field is kept; [matched] grows by one, [unmatched] and the error
    stream stay. *)
Theorem matched_accounting (new_URL : string -> option Url.URL)
    (pages : list PageMedia) (byExact : gmap string PageMedia)
    (st : State) (product : Product) (pageMatch : PageMedia) :
  pageMatchOf new_URL pages byExact product = Some pageMatch ->
  let st' := processProduct new_URL pages byExact st product in
  matched st' = S (matched st)
  /\ unmatched st' = unmatched st
  /\ stderr st' = stderr st
  /\ exists q,
       enriched st' = enriched st ++ [q]
       /\ q !! "images" = Some (JArray (map JString (images pageMatch)))
       /\ q !! "mapIframe"
          = match mapIframe pageMatch with
            | Some m => if truthy m then Some (JString m) else product !! "mapIframe"
            | None => product !! "mapIframe"
            end
       /\ forall f, f <> "images" -> f <> "mapIframe" -> q !! f = product !! f.
Proof.
  intros Hm st'. subst st'. unfold processProduct. rewrite Hm. cbn.
  split_and!; try done. eexists. split; [reflexivity|].
  destruct (mapIframe pageMatch) as [m|]; [destruct (truthy m)|];
    split_and!; try (intros f H1 H2); by simplify_map_eq.
Qed.

Lemma matched_accounting_witness :
  processProduct Url.parse [mapPage] (byExactOf Url.parse [mapPage])
    (mkState [] 0 0 []) mapProduct
  = mkState [ {[ "old_urls" := JString "https://x.test/nl/map";
                 "images" := JArray [JString "https://x.test/m.jpg"];
                 "mapIframe" := JString "<iframe src='m'></iframe>" ]} ]
      1 0 [].
Proof.
  pose proof (matched_accounting Url.parse [mapPage] (byExactOf Url.parse [mapPage])
                (mkState [] 0 0 []) mapProduct mapPage) as H.
  destruct H as (_ & _ & _ & _); [by vm_compute|]. by vm_compute.
Defined.

(** ** The counters of a run *)

Section Counters.

Variable new_URL : string -> option Url.URL.
Variable pages : list PageMedia.
Variable byExact : gmap string PageMedia.

Lemma processProduct_counts st p :
  let st' := processProduct new_URL pages byExact st p in
  matched st' + unmatched st' = S (matched st + unmatched st)
  /\ length (stderr st') + unmatched st <= length (stderr st) + unmatched st'.
Proof.
  unfold processProduct.
  destruct (pageMatchOf new_URL pages byExact p); cbn; [lia|].
  destruct (truthy (oldUrlsRawOf p)); rewrite ?length_app; cbn; lia.
Qed.

Lemma fold_processProduct_counts l st :
  let st' := fold_left (processProduct new_URL pages byExact) l st in
  matched st' + unmatched st' = matched st + unmatched st + length l
  /\ length (stderr st') + unmatched st <= length (stderr st) + unmatched st'.
Proof.
  revert st. induction l as [|p l IH]; intros st; cbn [fold_left length].
  - lia.
  - destruct (IH (processProduct new_URL pages byExact st p)) as [H1 H2].
    destruct (processProduct_counts st p) as [H3 H4]. cbv zeta in *. lia.
Qed.

Lemma processProduct_stderr products st p :
  p ∈ products ->
  Forall (diagnosticOf products) (stderr st) ->
  Forall (diagnosticOf products) (stderr (processProduct new_URL pages byExact st p)).
Proof.
  intros Hp Hst. unfold processProduct.
  destruct (pageMatchOf new_URL pages byExact p); cbn [stderr]; [done|].
  destruct (oldUrlsRawOf p) as [|c r] eqn:E; cbn [truthy]; [done|].
  apply Forall_app. split; [done|]. apply Forall_singleton.
  exists p. rewrite E. split_and!; done.
Qed.

Lemma fold_processProduct_stderr products l st :
  l ⊆ products ->
  Forall (diagnosticOf products) (stderr st) ->
  Forall (diagnosticOf products)
    (stderr (fold_left (processProduct new_URL pages byExact) l st)).
Proof.
  revert st. induction l as [|p l IH]; intros st Hl Hst; cbn [fold_left]; [done|].
  apply IH.
  - intros x Hx. apply Hl. by right.
  - apply processProduct_stderr; [|done]. apply Hl. left.
Qed.

End Counters.

Lemma lineCount_writes products l :
  (forall product, product ∈ products -> lineCount (oldUrlsRawOf product) = 0) ->
  Forall (diagnosticOf products) l ->
  lineCount (concatStr l) = length l.
Proof.
  intros Hone. induction 1 as [|w l (q & Hq & _ & ->) _ IH]; [done|].
  change (concatStr (?a :: l)) with (a +:+ concatStr l).
  rewrite lineCount_app, lineCount_message, IH, (Hone q Hq). done.
Qed.

Lemma sliceTo_length {A} (e : Q) (a : list A) : length (sliceTo e a) <= length a.
Proof. unfold sliceTo. rewrite length_take. lia. Qed.

(** X14: for every parser and every limit, [matched] and [unmatched]
    count the processed products, so their sum is at most the number of
    products. The error stream has at most one write for each unmatched
    product, and every write is the message [No media match for
    old_urls: ] with the [old_urls] of a product of the input that has a
    non-empty one, and a newline; when no [old_urls] holds a newline,
    every write is one line. Without a limit the sum is the number of
    products and the output holds, in order, the enriched form of every
    product. *)
Theorem main_counters (new_URL : string -> option Url.URL) (limit : Limit)
    (products : list Product) (pagesJson : list JSON) :
  let st := main new_URL limit products pagesJson in
  matched st + unmatched st <= length products
  /\ length (stderr st) <= unmatched st
  /\ Forall (diagnosticOf products) (stderr st)
  /\ ((forall product, product ∈ products ->
         lineCount (oldUrlsRawOf product) = 0) ->
      lineCount (stderrText st) = length (stderr st))
  /\ (limit = None ->
      matched st + unmatched st = length products
      /\ Forall2 enriches products (enriched st)).
Proof.
  intros st.
  assert (Forall (diagnosticOf products) (stderr st)) as Hwrites.
  { subst st. unfold main.
    set (pages := pagesOf new_URL pagesJson).
    set (byExact := byExactOf new_URL pages).
    destruct limit as [l|].
    - assert (Forall (diagnosticOf products)
                (stderr (fold_left (processProduct new_URL pages byExact)
                           (sliceTo (max0 l) products) (mkState [] 0 0 []))))
        as H.
      { apply fold_processProduct_stderr; [|done].
        unfold sliceTo. apply subseteq_take. }
      by destruct (ltLength l (length products)).
    - by apply fold_processProduct_stderr. }
  assert (matched st + unmatched st <= length products
          /\ length (stderr st) <= unmatched st
          /\ (limit = None ->
              matched st + unmatched st = length products
              /\ Forall2 enriches products (enriched st))) as (H1 & H2 & H3).
  { clear Hwrites. subst st. unfold main.
    set (pages := pagesOf new_URL pagesJson).
    set (byExact := byExactOf new_URL pages).
    destruct limit as [l|].
    - destruct (fold_processProduct_counts new_URL pages byExact
                  (sliceTo (max0 l) products) (mkState [] 0 0 [])) as [Hsum Herr].
      cbn [matched unmatched stderr length] in Hsum, Herr.
      pose proof (sliceTo_length (max0 l) products) as Hlen.
      destruct (ltLength l (length products)); cbn [matched unmatched stderr];
        (split; [lia|split; [lia|done]]).
    - destruct (fold_processProduct_counts new_URL pages byExact products
                  (mkState [] 0 0 [])) as [Hsum Herr].
      cbn [matched unmatched stderr length] in Hsum, Herr.
      split; [lia|]. split; [lia|]. intros _. split; [lia|].
      destruct (fold_processProduct_enriched new_URL pages byExact products
                  (mkState [] 0 0 [])) as (out & -> & Hall). done. }
  split; [done|]. split; [done|]. split; [done|]. split; [|done].
  intros Hone. unfold stderrText. by apply (lineCount_writes products).
Qed.

Lemma main_counters_witness :
  let st := main Url.parse None [fooProduct; zzzProduct; lostProduct]
              [fooPageJson] in
  matched st + unmatched st = 3
  /\ Forall2 enriches [fooProduct; zzzProduct; lostProduct] (enriched st)
  /\ lineCount (stderrText st) = length (stderr st).
Proof.
  destruct (main_counters Url.parse None [fooProduct; zzzProduct; lostProduct]
              [fooPageJson]) as (_ & _ & _ & Hlines & H).
  destruct (H eq_refl) as [H1 H2]. split; [exact H1|]. split; [exact H2|].
  apply Hlines. intros product Hp.
  repeat (apply elem_of_cons in Hp as [->|Hp]; [by vm_compute|]).
  by apply elem_of_nil in Hp.
Defined.

(** X15: for every parser, a limit that is not below the number of
    products gives the run without a limit: every product is processed
    and none is appended a second time. *)
Theorem main_limit_at_least_length (new_URL : string -> option Url.URL)
    (l : Q) (products : list Product) (pagesJson : list JSON) :
  ltLength l (length products) = false ->
  main new_URL (Some l) products pagesJson = main new_URL None products pagesJson.
Proof.
  intros Hl. unfold main. rewrite Hl.
  assert (sliceTo (max0 l) products = products) as ->; [|done].
  unfold ltLength in Hl. apply Z.ltb_ge in Hl.
  assert (0 <= Qnum l)%Z as Hnum by nia.
  unfold sliceTo, max0. destruct (Qnum l <? 0)%Z eqn:E; [lia|].
  unfold toInteger.
  assert (Z.of_nat (length products) <= Qnum l ÷ Z.pos (Qden l))%Z as Hq.
  { rewrite Z.quot_div_nonneg by lia. apply Z.div_le_lower_bound; lia. }
  destruct (Qnum l ÷ Z.pos (Qden l) <? 0)%Z eqn:E'; [lia|].
  rewrite Z.min_r by lia. rewrite Nat2Z.id. apply firstn_all.
Qed.

Lemma main_limit_at_least_length_witness :
  main Url.parse (Some (5 # 2)%Q) [fooProduct; zzzProduct] [fooPageJson]
  = main Url.parse None [fooProduct; zzzProduct] [fooPageJson].
Proof.
  apply (main_limit_at_least_length Url.parse (5 # 2)%Q [fooProduct; zzzProduct]).
  by vm_compute.
Defined.

(** ** Tokens *)

Lemma tokenSeparator_classes :
  classesIn (fun c => negb (isAlnumLower c)) tokenSeparator.
Proof. cbn. by split. Qed.

Lemma nonalnum_matches c s :
  isAlnumLower c = false ->
  Regex.matchLength tokenSeparator (String c s) <> None.
Proof.
  intros Hc. unfold Regex.matchLength, tokenSeparator, Regex.Plus.
  cbn [Regex.matcher]. rewrite Hc. cbn [negb]. apply starLoop_total. done.
Qed.

Lemma split_go_tokens s skip frag :
  allChars isAlnumLower frag = true ->
  Forall (fun f => allChars isAlnumLower f = true)
    (Regex.split_go tokenSeparator skip frag s).
Proof.
  revert skip frag. induction s as [|c s IH]; intros skip frag Hfrag.
  - by repeat constructor.
  - cbn [Regex.split_go]. destruct skip as [|skip]; [|by apply IH].
    destruct (Regex.matchLength tokenSeparator (String c s)) as [[|m]|] eqn:E.
    + apply (matchLength_sound _ _ _ _ tokenSeparator_classes) in E
        as (? & ? & _ & _ & _ & Hnz). by specialize (Hnz eq_refl).
    + constructor; [done|]. by apply IH.
    + apply IH. rewrite allChars_app, Hfrag. cbn.
      destruct (isAlnumLower c) eqn:Hc; [done|].
      by apply (nonalnum_matches c s) in Hc.
Qed.

Lemma allChars_dropWhile P f s :
  allChars P s = true -> allChars P (dropWhile f s) = true.
Proof.
  induction s as [|c s IH]; [done|]. cbn. intros [Hc Hs]%andb_true_iff.
  destruct (f c); [by apply IH|]. cbn. by rewrite Hc, Hs.
Qed.

Lemma allChars_dropWhileEnd P f s :
  allChars P s = true -> allChars P (dropWhileEnd f s) = true.
Proof.
  induction s as [|c s IH]; [done|]. cbn [allChars].
  intros [Hc Hs]%andb_true_iff. rewrite dropWhileEnd_cons.
  specialize (IH Hs). destruct (dropWhileEnd f s).
  - destruct (f c); [done|]. cbn. by rewrite Hc.
  - cbn [allChars] in *. by rewrite Hc, IH.
Qed.

(** X16: every token of a slug is made of the characters [a-z] and
    [0-9] only, has at least three of them, and is no stop word. *)
Theorem tokenizeSlug_tokens (slug : string) :
  Forall (fun t => allChars isAlnumLower t = true
                   /\ 3 <= String.length t
                   /\ t ∉ stopWords)
    (tokenizeSlug slug).
Proof.
  unfold tokenizeSlug. apply Forall_forall. intros t Ht.
  apply list_elem_of_filter in Ht as [[Hlen Hstop] Ht].
  apply list_elem_of_filter in Ht as [_ Ht].
  apply list_elem_of_fmap in Ht as (g & -> & Hg).
  split_and!; try done.
  apply allChars_dropWhileEnd, allChars_dropWhile.
  refine (proj1 (Forall_forall (fun f => allChars isAlnumLower f = true) _) _ g Hg).
  unfold Regex.split.
  destruct (toLowerCase _) as [|c s]; [by repeat constructor|].
  by apply split_go_tokens.
Qed.

(** X17: the score of a page is 0 exactly when its lower-cased link
    holds neither the language segment nor any token; it is never 1 and at
    most 3 plus twice the number of tokens. *)
Theorem pageScore_range (tokens : list string) (preferLang : Lang) (p : PageMedia) :
  (pageScore tokens preferLang p = 0
   <-> includes (langSegment preferLang) (toLowerCase (link p)) = false
       /\ forall t, t ∈ tokens -> includes t (toLowerCase (link p)) = false)
  /\ pageScore tokens preferLang p <> 1
  /\ pageScore tokens preferLang p <= 3 + 2 * length tokens.
Proof.
  rewrite pageScore_formula.
  pose proof (length_filter (fun t => includes t (toLowerCase (link p)) = true)
                tokens) as Hle.
  split; [|destruct (includes (langSegment preferLang) _); lia].
  split.
  - intros H. destruct (includes (langSegment preferLang) _); [lia|].
    split; [done|]. intros t Ht.
    destruct (includes t (toLowerCase (link p))) eqn:E; [|done].
    assert (t ∈ filter (fun t => includes t (toLowerCase (link p)) = true) tokens)
      as Hin by (by apply list_elem_of_filter).
    destruct (filter _ tokens); [by apply elem_of_nil in Hin|]. cbn in H. lia.
  - intros [-> Hall]. rewrite filter_no_hit; [done|].
    intros t Ht. by rewrite (Hall t Ht).
Qed.

(** ** Splitting, continued *)

Lemma filterChars_empty f s :
  filterChars f s = EmptyString -> allChars (fun c => negb (f c)) s = true.
Proof.
  induction s as [|c s IH]; [done|]. cbn. destruct (f c); [done|]. apply IH.
Qed.

Lemma allChars_filterChars f s :
  allChars (fun c => negb (f c)) s = true -> filterChars f s = EmptyString.
Proof.
  induction s as [|c s IH]; [done|]. cbn.
  destruct (f c); [done|]. apply IH.
Qed.

Lemma splitOldUrls_content s :
  filterChars keepChar (concatStr (splitOldUrls s)) = filterChars keepChar s.
Proof.
  unfold splitOldUrls. rewrite concatStr_trimmed.
  destruct s as [|c s]; [done|]. unfold Regex.split. by rewrite split_go_content.
Qed.

Lemma split_fragOk s : Forall fragOk (Regex.split oldUrlsSeparator s).
Proof.
  destruct s as [|c s]; [by repeat constructor|].
  apply split_go_fragOk; [|done]. intros _. split; [apply fragOk_empty|done].
Qed.

Lemma trim_head_keeps g c r :
  trim g = String c r -> isWhite c = false.
Proof.
  unfold trim. intros H. apply dropWhileEnd_head in H as [t Ht].
  pose proof (dropWhile_head_false isWhite g) as Hh. by rewrite Ht in Hh.
Qed.

(** A fragment that [splitOldUrls] returns starts with a character that
    is neither white space nor a separator. *)
Lemma splitOldUrls_head_keep s f :
  f ∈ splitOldUrls s -> exists c r, f = String c r /\ keepChar c = true.
Proof.
  unfold splitOldUrls. intros [Ht Hf]%list_elem_of_filter.
  apply list_elem_of_fmap in Hf as (g & -> & Hg).
  destruct (trim g) as [|c r] eqn:E; [done|]. exists c, r. split; [done|].
  pose proof (trim_head_keeps _ _ _ E) as Hw.
  assert (fragOk (String c r)) as [Ha _].
  { rewrite <- E. apply fragOk_trim.
    exact (proj1 (Forall_forall _ _) (split_fragOk s) _ Hg). }
  cbn in Ha. apply andb_true_iff in Ha as [Hc _].
  unfold keepChar, isSepOrWhite. rewrite Hw. by destruct (isSep c).
Qed.

(** X18: [splitOldUrls] returns no URL exactly when the text holds
    nothing but white space, commas and semicolons. *)
Theorem splitOldUrls_nothing (oldUrls : string) :
  splitOldUrls oldUrls = [] <-> allChars isSepOrWhite oldUrls = true.
Proof.
  split.
  - intros E. pose proof (splitOldUrls_content oldUrls) as H. rewrite E in H.
    symmetry in H. apply filterChars_empty in H.
    erewrite <- H. clear. induction oldUrls as [|c s IH]; [done|]. cbn.
    rewrite IH. unfold keepChar. by rewrite negb_involutive.
  - intros Hall. destruct (splitOldUrls oldUrls) as [|f fs] eqn:E; [done|].
    exfalso. destruct (splitOldUrls_head_keep oldUrls f) as (c & r & -> & Hc).
    { rewrite E. left. }
    pose proof (splitOldUrls_content oldUrls) as H. rewrite E in H.
    rewrite (allChars_filterChars keepChar oldUrls) in H.
    + cbn [concatStr foldr] in H. rewrite str_app_cons in H. cbn [filterChars] in H.
      by rewrite Hc in H.
    + erewrite <- Hall. clear. induction oldUrls as [|c s IH]; [done|]. cbn.
      rewrite IH. unfold keepChar. by rewrite negb_involutive.
Qed.

Lemma matcher_Chr {A} cls c s (k : string -> option A) :
  Regex.matcher (Regex.Chr cls) (String c s) k = if cls c then k s else None.
Proof. reflexivity. Qed.

Lemma starLoop_white_stuck {A} fuel s (k : string -> option A) :
  headIsWhite s = false ->
  Regex.starLoop (Regex.matcher (Regex.Chr isWhite)) fuel s k = k s.
Proof.
  intros Hs. destruct fuel as [|fuel]; [done|]. cbn [Regex.starLoop].
  destruct s as [|c s]; [done|]. rewrite matcher_Chr. cbn in Hs. by rewrite Hs.
Qed.

Lemma sepPart_fails {A} r2 s (k : string -> option A) :
  match s with String c _ => isSep c = false | EmptyString => True end ->
  Regex.matcher (Regex.Seq (Regex.Plus (Regex.Chr isSep)) r2) s k = None.
Proof.
  intros Hs. cbn [Regex.matcher Regex.Plus]. destruct s as [|c s]; [done|].
  by rewrite Hs.
Qed.

Lemma fragOk_head c s : fragOk (String c s) -> isSep c = false.
Proof.
  intros [Ha _]. cbn in Ha. apply andb_true_iff in Ha as [Hc _].
  by destruct (isSep c).
Qed.

Lemma fragOk_second c s :
  fragOk (String c s) -> isWhite c = true -> headIsWhite s = false.
Proof.
  intros [_ Hn] Hw. destruct s as [|d s]; [done|].
  cbn [noDoubleWhite] in Hn. rewrite Hw in Hn. cbn. by destruct (isWhite d).
Qed.

Lemma fragOk_head_opt s :
  fragOk s -> match s with String c _ => isSep c = false | EmptyString => True end.
Proof. destruct s as [|c s]; [done|]. apply fragOk_head. Qed.

(** The first alternative, [\s*[\n,;]+\s*], finds no match. *)
Lemma alt1_fails {A} r2 s (k : string -> option A) :
  fragOk s ->
  Regex.starLoop (Regex.matcher (Regex.Chr isWhite)) (String.length s) s
    (fun s' => Regex.matcher (Regex.Seq (Regex.Plus (Regex.Chr isSep)) r2) s' k)
  = None.
Proof.
  intros Hok. destruct s as [|c s].
  - cbn [String.length Regex.starLoop]. by apply sepPart_fails.
  - cbn [String.length Regex.starLoop]. rewrite matcher_Chr.
    rewrite (sepPart_fails r2 (String c s)) by exact (fragOk_head c s Hok).
    destruct (isWhite c) eqn:Hw; [|done].
    assert ((String.length s <? S (String.length s)) = true) as ->
      by (apply Nat.ltb_lt; lia).
    rewrite starLoop_white_stuck by (by apply (fragOk_second c)).
    rewrite sepPart_fails; [done|]. apply fragOk_head_opt. by apply (fragOk_tail c).
Qed.

(** The second alternative, [\s{2,}], finds no match. *)
Lemma alt2_fails {A} s (k : string -> option A) :
  fragOk s -> Regex.matcher (Regex.AtLeast2 (Regex.Chr isWhite)) s k = None.
Proof.
  intros Hok. unfold Regex.AtLeast2. cbn [Regex.matcher].
  destruct s as [|c s]; [done|]. destruct (isWhite c) eqn:Hw; [|done].
  pose proof (fragOk_second c s Hok Hw) as Hs.
  destruct s as [|d s]; [done|]. cbn in Hs. by rewrite Hs.
Qed.

Lemma fragOk_no_match s :
  fragOk s -> Regex.matchLength oldUrlsSeparator s = None.
Proof.
  intros Hok. unfold Regex.matchLength, oldUrlsSeparator.
  change (Regex.matcher (Regex.Alt ?a ?b) s ?k)
    with (match Regex.matcher a s k with
          | Some x => Some x
          | None => Regex.matcher b s k
          end).
  rewrite alt2_fails by done.
  change (Regex.matcher (Regex.Seq (Regex.Star ?w) ?r) s ?k)
    with (Regex.starLoop (Regex.matcher w) (String.length s) s
            (fun s' => Regex.matcher r s' k)).
  by rewrite alt1_fails.
Qed.

Lemma split_go_no_match s frag :
  fragOk s -> Regex.split_go oldUrlsSeparator 0 frag s = [frag +:+ s].
Proof.
  revert frag. induction s as [|c s IH]; intros frag Hok.
  - cbn. by rewrite str_app_nil_r.
  - cbn [Regex.split_go]. rewrite (fragOk_no_match _ Hok).
    rewrite IH by (by apply (fragOk_tail c)). by rewrite str_app_assoc.
Qed.

Lemma splitOldUrls_clean f :
  f <> EmptyString -> trim f = f -> fragOk f -> splitOldUrls f = [f].
Proof.
  intros Hne Ht Hok. unfold splitOldUrls, Regex.split.
  destruct f as [|c r]; [done|]. rewrite split_go_no_match by done.
  cbn [map]. change (EmptyString +:+ String c r) with (String c r).
  rewrite Ht. by rewrite filter_cons, decide_True, filter_nil.
Qed.

Lemma splitOldUrls_fragment s f :
  f ∈ splitOldUrls s -> f <> EmptyString /\ trim f = f /\ fragOk f.
Proof.
  unfold splitOldUrls. intros [Ht Hf]%list_elem_of_filter.
  apply list_elem_of_fmap in Hf as (g & -> & Hg). split_and!.
  - by destruct (trim g).
  - apply trim_idem.
  - apply fragOk_trim. exact (proj1 (Forall_forall _ _) (split_fragOk s) _ Hg).
Qed.

(** X19: a non-empty text without white space at its ends, without
    comma, semicolon or newline and without two white-space characters in
    a row is one URL: [splitOldUrls] returns it alone. So splitting a URL
    that [splitOldUrls] returned gives that URL again. *)
Theorem splitOldUrls_single :
  (forall f, f <> EmptyString -> trim f = f -> fragOk f -> splitOldUrls f = [f])
  /\ (forall oldUrls f, f ∈ splitOldUrls oldUrls -> splitOldUrls f = [f]).
Proof.
  split; [apply splitOldUrls_clean|].
  intros s f Hf. apply splitOldUrls_fragment in Hf as (? & ? & ?).
  by apply splitOldUrls_clean.
Qed.

(** ** Folder names of the copy script *)

Lemma rev_app_rev_app a b c :
  String.rev_app (String.rev_app a b) c = String.rev_app b (a +:+ c).
Proof.
  revert b c. induction a as [|x a IH]; intros b c; [done|].
  cbn [String.rev_app]. rewrite IH. by rewrite str_app_cons.
Qed.

Lemma rev_app_app b c :
  String.rev_app b c = String.rev_app b EmptyString +:+ c.
Proof.
  revert c. induction b as [|x b IH]; intros c; [done|].
  cbn [String.rev_app]. rewrite IH, (IH (String x EmptyString)).
  by rewrite str_app_assoc.
Qed.

Lemma rev_rev_app x cur :
  String.rev (String.rev_app x cur) = String.rev cur +:+ x.
Proof.
  unfold String.rev. by rewrite rev_app_rev_app, rev_app_app, str_app_nil_r.
Qed.

Lemma splitChar_go_app sep cur x s :
  charIn sep x = false ->
  splitChar_go sep cur (x +:+ s) = splitChar_go sep (String.rev_app x cur) s.
Proof.
  revert cur. induction x as [|c x IH]; intros cur; [done|].
  cbn [charIn]. intros [Hc Hx]%orb_false_iff.
  rewrite str_app_cons. cbn [splitChar_go String.rev_app].
  rewrite Ascii.eqb_sym, Hc. by apply IH.
Qed.

(** Splitting a joined list gives the list back, when no part holds the
    separator. *)
Lemma splitChar_join sep parts :
  parts <> [] ->
  Forall (fun p => charIn sep p = false) parts ->
  splitChar sep (join (String sep EmptyString) parts) = parts.
Proof.
  induction parts as [|x parts IH]; [done|]. intros _ Hall.
  apply Forall_cons in Hall as [Hx Hall]. unfold splitChar.
  destruct parts as [|y parts].
  - cbn [join]. rewrite <- (str_app_nil_r x) at 1.
    rewrite splitChar_go_app by done. cbn [splitChar_go].
    by rewrite rev_rev_app.
  - change (join (String sep EmptyString) (x :: y :: parts))
      with (x +:+ String sep (join (String sep EmptyString) (y :: parts))).
    rewrite splitChar_go_app by done. cbn [splitChar_go].
    rewrite Ascii.eqb_refl, rev_rev_app. cbn. f_equal. by apply IH.
Qed.

(** X20: the folder name that [safeSlugPath] returns is empty or made
    of segments that are never empty, [.] or [..]: it has no slash at
    either end, no double slash and no step out of the folder. *)
Theorem safeSlugPath_segments (slug : string) :
  safeSlugPath slug = EmptyString
  \/ Forall (fun p => p <> EmptyString /\ p <> "." /\ p <> "..")
       (splitChar "/" (safeSlugPath slug)).
Proof.
  unfold safeSlugPath.
  set (cleaned := dropWhileEnd isSlashChar (dropWhile isSlashChar (trim slug))).
  set (parts := filter (fun p => truthy p = true /\ p <> "." /\ p <> "..")
                  (splitChar "/" cleaned)).
  destruct parts as [|x rest] eqn:E; [by left|]. right. rewrite <- E.
  rewrite (splitChar_join "/" parts).
  - apply Forall_forall. intros p Hp. unfold parts in Hp.
    apply list_elem_of_filter in Hp as [(Ht & H1 & H2) _].
    split_and!; try done. by destruct p.
  - by rewrite E.
  - apply Forall_forall. intros p Hp. unfold parts in Hp.
    apply list_elem_of_filter in Hp as [_ Hp].
    exact (proj1 (Forall_forall (fun f => charIn "/" f = false) _)
             (splitChar_no_sep _ _) _ Hp).
Qed.

(** ** Upload paths of the copy script *)

Lemma startsWith_split pat s :
  startsWith pat s = true ->
  exists rest, s = pat +:+ rest /\ dropChars (String.length pat) s = rest.
Proof.
  revert s. induction pat as [|a pat IH]; intros s.
  - intros _. by exists s.
  - destruct s as [|b s]; [done|]. cbn [startsWith].
    intros [Hab H]%andb_true_iff. apply Ascii.eqb_eq in Hab as ->.
    destruct (IH s H) as (rest & -> & Hd). exists rest. by rewrite str_app_cons.
Qed.

Lemma indexOf_Some pat s i :
  indexOf pat s = Some i ->
  exists prefix rest,
    s = prefix +:+ pat +:+ rest /\ String.length prefix = i
    /\ dropChars (i + String.length pat) s = rest.
Proof.
  revert i. induction s as [|c s IH]; intros i.
  - cbn [indexOf]. destruct (startsWith pat EmptyString) eqn:E; [|done].
    intros [= <-]. apply startsWith_split in E as (rest & -> & Hd).
    by exists EmptyString, rest.
  - cbn [indexOf]. destruct (startsWith pat (String c s)) eqn:E.
    + intros [= <-]. apply startsWith_split in E as (rest & E & Hd).
      by exists EmptyString, rest.
    + destruct (indexOf pat s) as [j|] eqn:Ej; [|done]. intros [= <-].
      destruct (IH j eq_refl) as (prefix & rest & -> & <- & Hd).
      exists (String c prefix), rest. by rewrite str_app_cons.
Qed.

Lemma indexOf_None pat s : indexOf pat s = None <-> includes pat s = false.
Proof.
  induction s as [|c s IH]; cbn [indexOf includes].
  - destruct (startsWith pat EmptyString); [done|]. by rewrite orb_false_r.
  - destruct (startsWith pat (String c s)); [done|]. cbn [orb].
    rewrite <- IH. by destruct (indexOf pat s).
Qed.

Lemma dropWhile_split f s :
  exists pre, s = pre +:+ dropWhile f s /\ allChars f pre = true.
Proof.
  induction s as [|c s IH]; [by exists EmptyString|]. cbn [dropWhile].
  destruct (f c) eqn:E; [|by exists EmptyString].
  destruct IH as (pre & Hs & Hpre). exists (String c pre).
  rewrite str_app_cons. split; [by rewrite <- Hs|]. cbn. by rewrite E, Hpre.
Qed.

(** X21: for every parser, [uploadsRelativePathFromUrl] returns nothing
    exactly when the URL does not parse or its path does not hold
    [/wp-content/uploads/]; what it returns does not start with a slash,
    and the path is some prefix, the marker, further slashes if any, and
    the returned path. *)
Theorem uploadsRelativePath_shape (new_URL : string -> option Url.URL)
    (urlStr : string) :
  (uploadsRelativePathFromUrl new_URL urlStr = None
   <-> new_URL urlStr = None
       \/ exists u, new_URL urlStr = Some u
                    /\ includes uploadsMarker (Url.pathname u) = false)
  /\ forall rel,
       uploadsRelativePathFromUrl new_URL urlStr = Some rel ->
       startsWith "/" rel = false
       /\ exists u prefix slashes,
            new_URL urlStr = Some u
            /\ Url.pathname u = prefix +:+ uploadsMarker +:+ slashes +:+ rel
            /\ allChars isSlashChar slashes = true.
Proof.
  unfold uploadsRelativePathFromUrl.
  destruct (new_URL urlStr) as [u|]; [|split; [split; [by left|done]|done]].
  destruct (indexOf uploadsMarker (Url.pathname u)) as [i|] eqn:E.
  - split.
    + split; [done|]. intros [|(u' & [= <-] & Hno)]; [done|].
      apply indexOf_None in Hno. congruence.
    + intros rel [= <-]. split.
      * pose proof (dropWhile_head_false isSlashChar
                      (dropChars (i + String.length uploadsMarker) (Url.pathname u))) as H.
        destruct (dropWhile _ _) as [|c r]; [done|]. cbn [startsWith].
        unfold isSlashChar in H. by rewrite Ascii.eqb_sym, H.
      * apply indexOf_Some in E as (prefix & rest & Hp & _ & Hd).
        change (dropChars (i + 20) (Url.pathname u) = rest) in Hd. rewrite Hd.
        destruct (dropWhile_split isSlashChar rest) as (slashes & Hr & Hs).
        exists u, prefix, slashes. split_and!; try done. by rewrite <- Hr.
  - split; [|done]. split; [|done]. intros _. right. exists u.
    split; [done|]. by apply indexOf_None.
Qed.

(** ** Where a match comes from *)

Lemma tailCandidates_subset (pages : list PageMedia) tails p :
  p ∈ tailCandidates pages tails -> p ∈ pages.
Proof.
  induction tails as [|t tails IH]; cbn [tailCandidates].
  - intros H. by apply elem_of_nil in H.
  - destruct (filter (fun p => tailHit t p = true) pages) as [|c cs] eqn:E; [done|].
    rewrite <- E. by intros [_ ?]%list_elem_of_filter.
Qed.

Lemma preferBestMatch_elem candidates preferLang b :
  preferBestMatch candidates preferLang = Some b -> b ∈ candidates.
Proof.
  unfold preferBestMatch. intros [Hin _]%head_sortByLength_min.
  destruct (filter _ candidates) as [|c cs] eqn:E; [done|].
  rewrite <- E in Hin. by apply list_elem_of_filter in Hin as [_ ?].
Qed.

Lemma bestTokenMatch_elem pages tokens preferLang p :
  bestTokenMatch pages tokens preferLang = Some p -> p ∈ pages.
Proof.
  unfold bestTokenMatch. destruct tokens as [|t ts] eqn:Et; [done|].
  rewrite <- Et.
  destruct (bestLoop_spec tokens preferLang pages (None, 0))
    as [[-> _]|(before & p' & after & -> & -> & _)]; [done|].
  destruct (2 <=? _); [|done]. intros [= ->]. apply elem_of_app. right. left.
Qed.

Lemma pageMatchOf_elem new_URL (pages : list PageMedia) product p :
  pageMatchOf new_URL pages (byExactOf new_URL pages) product = Some p ->
  p ∈ pages.
Proof.
  unfold pageMatchOf, findPageMatch.
  destruct (exactMatch _ _ _) as [q|] eqn:E1.
  - intros [= <-]. rewrite exactMatch_firstHit in E1.
    assert (forall cs, firstHit (byExactOf new_URL pages) cs = Some q ->
                       exists c, byExactOf new_URL pages !! c = Some q) as Hhit.
    { induction cs as [|c cs IH]; [done|]. cbn.
      destruct (byExactOf new_URL pages !! c) eqn:Ec; [|done].
      intros [= <-]. by exists c. }
    destruct (Hhit _ E1) as [c Hc].
    destruct (byExactOf_lookup _ _ _ _ _ Hc) as [Hm|[? _]]; [|done].
    by rewrite lookup_empty in Hm.
  - destruct (tailMatch _ _ _) as [q|] eqn:E2.
    + intros [= <-]. unfold tailMatch in E2.
      destruct (tailCandidates pages _) as [|c cs] eqn:E; [done|].
      apply preferBestMatch_elem in E2. rewrite <- E in E2.
      by apply tailCandidates_subset in E2.
    + destruct (truthy _); [|done]. unfold tokenMatch.
      destruct (bestTokenMatch pages _ NL) as [q|] eqn:E3.
      * intros [= <-]. by apply bestTokenMatch_elem in E3.
      * apply bestTokenMatch_elem.
Qed.

(** X22: for every parser, whatever tier decides, the page a product is
    matched to is one of the pages of the run. *)
Theorem pageMatch_is_a_page (new_URL : string -> option Url.URL)
    (pagesJson : list JSON) (product : Product) (p : PageMedia) :
  pageMatchOf new_URL (pagesOf new_URL pagesJson)
    (byExactOf new_URL (pagesOf new_URL pagesJson)) product = Some p ->
  p ∈ pagesOf new_URL pagesJson
  /\ exists j l imgs,
       j ∈ pagesJson
       /\ getField j "link" = Some (JString l)
       /\ getField j "images" = Some (JArray imgs)
       /\ link p = normalizeUrlish new_URL l.
Proof.
  intros H. apply pageMatchOf_elem in H. split; [done|].
  unfold pagesOf in H. apply list_elem_of_omap in H as (j & Hj & Hp).
  unfold pageOfJson in Hp.
  destruct (getField j "link") as [[| | |l| |]|] eqn:El; try done.
  destruct (getField j "images") as [[| | | |imgs|]|] eqn:Ei; try done.
  injection Hp as <-. by exists j, l, imgs.
Qed.

Lemma pageMatch_is_a_page_witness :
  fooPage ∈ pagesOf Url.parse [JNull; fooPageJson].
Proof.
  apply (pageMatch_is_a_page Url.parse [JNull; fooPageJson] fooProduct fooPage).
  by vm_compute.
Defined.

Section OutputImages.

Variable new_URL : string -> option Url.URL.
Variable pages : list PageMedia.

Lemma fold_processProduct_images l st :
  Forall (imagesFromPages pages) (enriched st) ->
  Forall (imagesFromPages pages)
    (enriched (fold_left (processProduct new_URL pages (byExactOf new_URL pages)) l st)).
Proof.
  revert st. induction l as [|x l IH]; intros st Hst; cbn [fold_left]; [done|].
  apply IH. unfold processProduct.
  destruct (pageMatchOf new_URL pages (byExactOf new_URL pages) x) as [pm|] eqn:E;
    cbn [enriched]; apply Forall_app; (split; [done|]); apply Forall_singleton.
  - right. exists pm. split; [by apply (pageMatchOf_elem new_URL pages x)|].
    destruct (mapIframe pm) as [m|]; [destruct (truthy m)|]; by simplify_map_eq.
  - left. by simplify_map_eq.
Qed.

End OutputImages.

(** X23: for every parser and without a limit, every product of the
    output has an [images] field that is an array of strings: the empty
    array, or the images of one of the pages of the run. *)
Theorem main_images_from_pages (new_URL : string -> option Url.URL)
    (products : list Product) (pagesJson : list JSON) :
  Forall (imagesFromPages (pagesOf new_URL pagesJson))
    (enriched (main new_URL None products pagesJson)).
Proof. unfold main. by apply fold_processProduct_images. Qed.

(** ** Decimal numbers *)

Lemma decimalValue_app a x y :
  Url.decimalValue a (x +:+ y) = Url.decimalValue (Url.decimalValue a x) y.
Proof.
  revert a. induction x as [|c x IH]; intros a; [done|].
  rewrite str_app_cons. cbn [Url.decimalValue]. apply IH.
Qed.

Lemma code_digit n : (n < 10)%N -> code (ascii_of_N (48 + n)) = (48 + n)%N.
Proof.
  intros Hn. unfold code. apply N_ascii_embedding. lia.
Qed.

Lemma isDigit_digit n : (n < 10)%N -> Url.isDigit (ascii_of_N (48 + n)) = true.
Proof.
  intros Hn. unfold Url.isDigit. rewrite code_digit by done.
  apply andb_true_iff. split; apply N.leb_le; lia.
Qed.

Lemma decimal_go_S fuel n acc :
  Url.decimal_go (S fuel) n acc
  = if (n <? 10)%N then String (ascii_of_N (48 + n mod 10)) acc
    else Url.decimal_go fuel (n / 10)
           (String (ascii_of_N (48 + n mod 10)) acc).
Proof. reflexivity. Qed.

(** With enough fuel the digits of [n] are put before [acc]: at least
    one digit, digits only, and read back they give [n]. *)
Lemma decimal_go_spec f n acc :
  (n < 2 ^ N.of_nat (S f))%N ->
  exists d,
    Url.decimal_go (S f) n acc = d +:+ acc
    /\ d <> EmptyString
    /\ allChars Url.isDigit d = true
    /\ forall a, Url.decimalValue a d = (a * 10 ^ N.of_nat (String.length d) + n)%N.
Proof.
  revert n acc. induction f as [|f IH]; intros n acc Hn.
  - assert (n < 10)%N as Hlt by (cbn in Hn; lia).
    rewrite decimal_go_S. apply N.ltb_lt in Hlt as Hb. rewrite Hb.
    rewrite N.mod_small by done.
    exists (String (ascii_of_N (48 + n)) EmptyString). split_and!; try done.
    + cbn. by rewrite isDigit_digit.
    + intros a. cbn. rewrite code_digit by done. lia.
  - rewrite decimal_go_S. destruct (n <? 10)%N eqn:Hb.
    + apply N.ltb_lt in Hb. rewrite N.mod_small by done.
      exists (String (ascii_of_N (48 + n)) EmptyString). split_and!; try done.
      * cbn. by rewrite isDigit_digit.
      * intros a. cbn. rewrite code_digit by done. lia.
    + apply N.ltb_ge in Hb.
      assert (n mod 10 < 10)%N as Hmod by (apply N.mod_lt; lia).
      destruct (IH (n / 10)%N (String (ascii_of_N (48 + n mod 10)) acc))
        as (d & Hd & Hne & Hdig & Hval).
      { rewrite Nat2N.inj_succ, N.pow_succ_r' in Hn.
        apply N.Div0.div_lt_upper_bound.
        rewrite Nat2N.inj_succ, N.pow_succ_r' in *. lia. }
      exists (d +:+ String (ascii_of_N (48 + n mod 10)) EmptyString).
      split_and!.
      * rewrite Hd. by rewrite str_app_assoc.
      * by destruct d.
      * rewrite allChars_app, Hdig. cbn. by rewrite isDigit_digit.
      * intros a. rewrite decimalValue_app, Hval, str_length_app. cbn.
        rewrite code_digit by done.
        replace (N.of_nat (String.length d + 1)) with (N.succ (N.of_nat (String.length d))) by lia.
        rewrite N.pow_succ_r'.
        pose proof (N.div_mod n 10 ltac:(lia)) as Hdm.
        rewrite (N.add_comm 48 (n mod 10)), N.add_sub.
        set (P := (10 ^ N.of_nat (String.length d))%N).
        replace (a * (10 * P))%N with (a * P * 10)%N by ring.
        generalize (a * P)%N. intros aP. lia.
Qed.

Lemma decimal_spec n :
  Url.decimal n <> EmptyString
  /\ allChars Url.isDigit (Url.decimal n) = true
  /\ Url.decimalValue 0 (Url.decimal n) = n.
Proof.
  unfold Url.decimal.
  destruct (decimal_go_spec (N.to_nat (N.log2 n)) n EmptyString)
    as (d & -> & Hne & Hdig & Hval).
  { rewrite Nat2N.inj_succ, N2Nat.id. destruct (N.eq_dec n 0%N) as [->|Hn].
    - cbn. lia.
    - apply N.log2_spec. lia. }
  rewrite str_app_nil_r. split; [done|]. split; [done|]. rewrite Hval. lia.
Qed.

Lemma decimalValue_zeros k s :
  Url.decimalValue 0 (zeros k +:+ s) = Url.decimalValue 0 s.
Proof. induction k as [|k IH]; [done|]. cbn [zeros]. by rewrite str_app_cons. Qed.

Lemma length_zeros k : String.length (zeros k) = k.
Proof. induction k as [|k IH]; [done|]. cbn. by rewrite IH. Qed.

Lemma allChars_zeros k : allChars Url.isDigit (zeros k) = true.
Proof. induction k as [|k IH]; [done|]. cbn [zeros allChars]. by rewrite IH. Qed.

Lemma pad_value num width : Url.decimalValue 0 (pad num width) = num.
Proof.
  unfold pad. destruct (_ <=? _); [apply decimal_spec|].
  rewrite decimalValue_zeros. apply decimal_spec.
Qed.

(** X24: for a non-negative integer up to 2^53, [pad] returns digits
    only, at least [width] of them and never fewer than the number has;
    read as a decimal number they give the number back, so different
    numbers are padded to different strings. *)
Theorem pad_keeps_number (num : N) (width : nat) :
  (num <= 2 ^ 53)%N ->
  allChars Url.isDigit (pad num width) = true
  /\ String.length (pad num width)
     = Nat.max width (String.length (Url.decimal num))
  /\ Url.decimalValue 0 (pad num width) = num
  /\ forall other, (other <= 2 ^ 53)%N ->
       pad other width = pad num width -> other = num.
Proof.
  intros _. split_and!.
  - unfold pad. destruct (_ <=? _); [apply decimal_spec|].
    rewrite allChars_app, allChars_zeros. apply decimal_spec.
  - unfold pad. destruct (width <=? String.length (Url.decimal num)) eqn:E.
    + apply Nat.leb_le in E. lia.
    + apply Nat.leb_gt in E. rewrite str_length_app, length_zeros. lia.
  - apply pad_value.
  - intros other _ H. by rewrite <- (pad_value other width), H, pad_value.
Qed.

Lemma pad_keeps_number_witness :
  pad 7 2 = "07" /\ pad 123 2 = "123" /\ Url.decimalValue 0 (pad 7 2) = 7%N.
Proof.
  split; [by vm_compute|]. split; [by vm_compute|].
  destruct (pad_keeps_number 7 2) as (_ & _ & H & _); [by vm_compute|exact H].
Defined.

(** ** Names from slugs *)

Lemma length_dropWhile f s :
  String.length (dropWhile f s) <= String.length s.
Proof.
  induction s as [|c s IH]; [done|]. cbn [dropWhile].
  destruct (f c); cbn [String.length]; lia.
Qed.

Lemma starLoop_greedy {A} cls fuel s (k : string -> option A) :
  (forall t, k t <> None) -> String.length s <= fuel ->
  Regex.starLoop (Regex.matcher (Regex.Chr cls)) fuel s k = k (dropWhile cls s).
Proof.
  intros Hk. revert s. induction fuel as [|fuel IH]; intros s Hs.
  - destruct s; [done|]. cbn in Hs. lia.
  - cbn [Regex.starLoop]. destruct s as [|c s]; [done|].
    rewrite matcher_Chr. cbn [dropWhile]. destruct (cls c); [|done].
    assert ((String.length s <? String.length (String c s)) = true) as ->.
    { apply Nat.ltb_lt. cbn. lia. }
    rewrite IH by (cbn in Hs; lia).
    destruct (k (dropWhile cls s)) eqn:E; [done|]. by apply Hk in E.
Qed.

Lemma matchLength_Plus cls c s :
  Regex.matchLength (Regex.Plus (Regex.Chr cls)) (String c s)
  = if cls c
    then Some (S (String.length s - String.length (dropWhile cls s)))
    else None.
Proof.
  unfold Regex.matchLength, Regex.Plus.
  change (Regex.matcher (Regex.Seq ?a ?b) ?x ?k)
    with (Regex.matcher a x (fun s' => Regex.matcher b s' k)).
  rewrite matcher_Chr. destruct (cls c); [|done].
  change (Regex.matcher (Regex.Star ?a) ?x ?k)
    with (Regex.starLoop (Regex.matcher a) (String.length x) x k).
  rewrite starLoop_greedy; [|done|done].
  pose proof (length_dropWhile cls s). f_equal. cbn [String.length]. lia.
Qed.

Lemma matchLength_Plus_nil cls :
  Regex.matchLength (Regex.Plus (Regex.Chr cls)) "" = None.
Proof. reflexivity. Qed.

Lemma replaceRegex_go_junk skip s :
  allChars isSlugChar (replaceRegex_go slugJunk "-" skip s) = true.
Proof.
  revert skip. induction s as [|c s IH]; intros skip.
  - cbn [replaceRegex_go]. unfold slugJunk. rewrite matchLength_Plus_nil.
    by destruct skip.
  - cbn [replaceRegex_go]. destruct skip as [|k]; [|apply IH].
    unfold slugJunk at 1. rewrite matchLength_Plus.
    destruct (isSlugChar c) eqn:Hc; cbn [negb].
    + cbn [allChars]. by rewrite Hc, IH.
    + rewrite allChars_app, IH. done.
Qed.

Lemma replaceRegex_go_chars P r rep skip s :
  allChars P rep = true -> allChars P s = true ->
  allChars P (replaceRegex_go r rep skip s) = true.
Proof.
  intros Hrep. revert skip. induction s as [|c s IH]; intros skip Hs.
  - cbn [replaceRegex_go]. destruct skip; [|done]. by case_match.
  - cbn [allChars] in Hs. apply andb_true_iff in Hs as [Hc Hs].
    cbn [replaceRegex_go]. destruct skip as [|k]; [|by apply IH].
    destruct (Regex.matchLength r (String c s)) as [[|m]|].
    + rewrite allChars_app, Hrep. cbn [allChars]. by rewrite Hc, IH.
    + rewrite allChars_app, Hrep. by rewrite IH.
    + cbn [allChars]. by rewrite Hc, IH.
Qed.

Lemma noDoubleDash_cons c s :
  noDoubleDash (String c s) = negb (isDash c && headIsDash s) && noDoubleDash s.
Proof. reflexivity. Qed.

Lemma headIsDash_dropWhile s : headIsDash (dropWhile isDash s) = false.
Proof.
  induction s as [|c s IH]; [done|]. cbn [dropWhile].
  destruct (isDash c) eqn:Hc; [done|]. cbn [headIsDash]. done.
Qed.

Lemma matchLength_dashes c s :
  Regex.matchLength dashes (String c s)
  = if isDash c
    then Some (S (String.length s - String.length (dropWhile isDash s)))
    else None.
Proof. apply matchLength_Plus. Qed.

(** [skip] passes over the run of dashes at the head of [s]. *)
Lemma replaceRegex_go_dashes s :
  noDoubleDash (replaceRegex_go dashes "-" 0 s) = true
  /\ forall skip,
       skip = String.length s - String.length (dropWhile isDash s) ->
       noDoubleDash (replaceRegex_go dashes "-" skip s) = true
       /\ headIsDash (replaceRegex_go dashes "-" skip s) = false.
Proof.
  induction s as [|c s [IH0 IH]].
  - split; [done|]. intros skip ->. done.
  - pose proof (length_dropWhile isDash s) as Hlen. split.
    + cbn [replaceRegex_go]. rewrite matchLength_dashes.
      destruct (isDash c) eqn:Hc.
      * destruct (IH _ eq_refl) as [H1 H2].
        change ("-" +:+ ?x) with (String "-" x).
        rewrite noDoubleDash_cons, H1, H2. done.
      * rewrite noDoubleDash_cons, Hc, IH0. done.
    + intros skip ->. cbn [dropWhile]. destruct (isDash c) eqn:Hc.
      * replace (String.length (String c s) - String.length (dropWhile isDash s))
          with (S (String.length s - String.length (dropWhile isDash s)))
          by (cbn [String.length]; lia).
        cbn [replaceRegex_go]. by apply IH.
      * rewrite Nat.sub_diag. cbn [replaceRegex_go].
        rewrite !matchLength_dashes, Hc.
        rewrite noDoubleDash_cons, Hc, IH0. cbn [headIsDash]. by rewrite Hc.
Qed.

Lemma dropFirstDash_shape s :
  allChars isSlugChar s = true -> noDoubleDash s = true ->
  slugShaped (dropFirstDash s).
Proof.
  intros Hs Hd. destruct s as [|c s]; [done|]. cbn [dropFirstDash].
  cbn [allChars] in Hs. apply andb_true_iff in Hs as [Hc Hs].
  rewrite noDoubleDash_cons in Hd. apply andb_true_iff in Hd as [Hh Hd].
  destruct (isDash c) eqn:E.
  - split_and!; try done. by destruct (headIsDash s).
  - split_and!; cbn [allChars headIsDash]; rewrite ?Hc, ?Hs, ?noDoubleDash_cons, ?E, ?Hd; done.
Qed.

Lemma dropLastDash_cons c d r :
  dropLastDash (String c (String d r)) = String c (dropLastDash (String d r)).
Proof. reflexivity. Qed.

Lemma dropLastDash_empty s :
  dropLastDash s = "" -> s = "" \/ exists c, s = String c "" /\ isDash c = true.
Proof.
  destruct s as [|c [|d r]]; [by left| |done].
  cbn. destruct (isDash c) eqn:E; [|done]. right. by exists c.
Qed.

Lemma headIsDash_dropLastDash c d r :
  headIsDash (dropLastDash (String c (String d r))) = isDash c.
Proof. reflexivity. Qed.

Lemma dropLastDash_shape s :
  slugShaped s ->
  slugShaped (dropLastDash s) /\ lastIsDash (dropLastDash s) = false.
Proof.
  intros (Hs & Hd & Hh).
  assert (allChars isSlugChar (dropLastDash s) = true
          /\ noDoubleDash (dropLastDash s) = true
          /\ lastIsDash (dropLastDash s) = false) as (H1 & H2 & H3).
  { clear Hh. induction s as [|c s IH]; [done|].
    cbn [allChars] in Hs. apply andb_true_iff in Hs as [Hc Hs].
    rewrite noDoubleDash_cons in Hd. apply andb_true_iff in Hd as [Hcd Hd].
    destruct s as [|d r].
    - cbn. destruct (isDash c) eqn:E; [done|]. cbn. by rewrite Hc, E.
    - rewrite dropLastDash_cons. destruct (IH Hs Hd) as (I1 & I2 & I3).
      destruct (dropLastDash (String d r)) as [|e t] eqn:E.
      + apply dropLastDash_empty in E as [?|(x & [= -> ->] & Hx)]; [done|].
        cbn [headIsDash] in Hcd. rewrite Hx, andb_true_r in Hcd.
        cbn. rewrite Hc. by destruct (isDash c).
      + split_and!.
        * cbn [allChars] in I1 |- *. by rewrite Hc, I1.
        * rewrite noDoubleDash_cons, I2, andb_true_r.
          destruct r as [|r0 r1].
          { cbn in E. destruct (isDash d); [done|]. injection E as <- <-. done. }
          { rewrite dropLastDash_cons in E. injection E as <- <-. done. }
        * done. }
  split; [split_and!; try done|done].
  destruct s as [|c [|d r]]; [done| |done].
  cbn in *. by rewrite Hh.
Qed.

Lemma slugify_shape s :
  slugShaped (slugify s) /\ lastIsDash (slugify s) = false.
Proof.
  unfold slugify. apply dropLastDash_shape, dropFirstDash_shape.
  - apply replaceRegex_go_chars; [done|]. apply replaceRegex_go_junk.
  - apply (proj1 (replaceRegex_go_dashes _)).
Qed.

Lemma takeChars_all n s : String.length s <= n -> takeChars n s = s.
Proof.
  revert n. induction s as [|c s IH]; intros [|n] H; try done.
  - cbn in H. lia.
  - cbn [takeChars]. rewrite IH; [done|]. cbn in H. lia.
Qed.

Lemma length_takeChars n s :
  String.length (takeChars n s) = Nat.min n (String.length s).
Proof.
  revert n. induction s as [|c s IH]; intros [|n]; try done.
  cbn [takeChars String.length]. rewrite IH. lia.
Qed.

Lemma takeChars_shape n s : slugShaped s -> slugShaped (takeChars n s).
Proof.
  intros (Hs & Hd & Hh). split_and!.
  - clear Hd Hh. revert n. induction s as [|c s IH]; intros [|n]; try done.
    cbn [allChars] in Hs. apply andb_true_iff in Hs as [Hc Hs].
    cbn [takeChars allChars]. by rewrite Hc, IH.
  - clear Hs Hh. revert n. induction s as [|c s IH]; intros [|n]; try done.
    rewrite noDoubleDash_cons in Hd. apply andb_true_iff in Hd as [Hcd Hd].
    cbn [takeChars]. rewrite noDoubleDash_cons, IH, andb_true_r by done.
    destruct (isDash c); [|done]. cbn [andb] in *.
    destruct s as [|d r]; [by destruct n|]. destruct n; [done|]. done.
  - destruct s, n; done.
Qed.

Lemma truncated_shape n s :
  slugShaped s -> lastIsDash s = false ->
  let r := takeChars n s in
  slugShaped r /\ String.length r <= n
  /\ (String.length r < n -> r = s /\ lastIsDash r = false).
Proof.
  intros Hs Hl r. subst r. split_and!.
  - by apply takeChars_shape.
  - rewrite length_takeChars. lia.
  - rewrite length_takeChars. intros H.
    rewrite takeChars_all by lia. done.
Qed.

(** X25: [safeSlugToken] returns, for every input, at most 120
    characters, all of them lower-case letters, digits or dashes, with no
    two dashes in a row and no dash in front; a result shorter than 120
    characters does not end in a dash either. *)
Theorem safeSlugToken_shape input :
  let r := safeSlugToken input in
  slugShaped r /\ String.length r <= 120
  /\ (String.length r < 120 -> lastIsDash r = false).
Proof.
  intros r. subst r. unfold safeSlugToken.
  destruct (slugify_shape (trim (toLowerCase input))) as [H1 H2].
  destruct (truncated_shape 120 _ H1 H2) as (H3 & H4 & H5).
  split_and!; [done|done|]. intros H. by apply H5.
Qed.

(** X27: [slugBaseName] returns, for every path, at most 80 characters,
    all of them lower-case letters, digits or dashes, with no two dashes
    in a row and no dash in front; a result shorter than 80 characters
    does not end in a dash either. *)
Theorem slugBaseName_shape productSlugPath :
  let r := slugBaseName productSlugPath in
  slugShaped r /\ String.length r <= 80
  /\ (String.length r < 80 -> lastIsDash r = false).
Proof.
  intros r. subst r. unfold slugBaseName.
  set (l := default "product" _).
  destruct (slugify_shape (toLowerCase l)) as [H1 H2].
  destruct (truncated_shape 80 _ H1 H2) as (H3 & H4 & H5).
  split_and!; [done|done|]. intros H. by apply H5.
Qed.

Lemma slugChar_plain c :
  isSlugChar c = true -> lowerChar c = c /\ isWhite c = false.
Proof.
  destruct c as [[] [] [] [] [] [] [] []]; vm_compute; intros H;
    first [discriminate H | split; reflexivity].
Qed.

Lemma toLowerCase_slug s :
  allChars isSlugChar s = true -> toLowerCase s = s.
Proof.
  induction s as [|c s IH]; [done|]. cbn [allChars toLowerCase].
  intros [Hc Hs]%andb_true_iff. destruct (slugChar_plain c Hc) as [-> _].
  by rewrite IH.
Qed.

Lemma dropWhileEnd_none f s :
  allChars (fun c => negb (f c)) s = true -> dropWhileEnd f s = s.
Proof.
  induction s as [|c s IH]; [done|]. cbn [allChars].
  intros [Hc Hs]%andb_true_iff. rewrite dropWhileEnd_cons, IH by done.
  apply negb_true_iff in Hc. rewrite Hc. by destruct s.
Qed.

Lemma trim_slug s : allChars isSlugChar s = true -> trim s = s.
Proof.
  intros Hs. unfold trim.
  assert (allChars (fun c => negb (isWhite c)) s = true) as Hw.
  { induction s as [|c s IH]; [done|]. cbn [allChars] in Hs |- *.
    apply andb_true_iff in Hs as [Hc Hs].
    destruct (slugChar_plain c Hc) as [_ ->]. by rewrite IH. }
  assert (dropWhile isWhite s = s) as ->.
  { destruct s as [|c s]; [done|]. cbn [allChars] in Hw.
    apply andb_true_iff in Hw as [Hc _]. apply negb_true_iff in Hc.
    cbn [dropWhile]. by rewrite Hc. }
  by apply dropWhileEnd_none.
Qed.

Lemma matchLength_slugJunk c s :
  Regex.matchLength slugJunk (String c s)
  = if negb (isSlugChar c)
    then Some (S (String.length s
                  - String.length (dropWhile (fun c => negb (isSlugChar c)) s)))
    else None.
Proof. apply matchLength_Plus. Qed.

Lemma replaceRegex_junk_none s :
  allChars isSlugChar s = true -> replaceRegex slugJunk "-" s = s.
Proof.
  unfold replaceRegex. induction s as [|c s IH]; [done|]. cbn [allChars].
  intros [Hc Hs]%andb_true_iff. cbn [replaceRegex_go].
  rewrite matchLength_slugJunk, Hc. cbn [negb]. by rewrite IH.
Qed.

Lemma replaceRegex_dashes_none s :
  noDoubleDash s = true -> replaceRegex dashes "-" s = s.
Proof.
  unfold replaceRegex. induction s as [|c s IH]; [done|].
  rewrite noDoubleDash_cons. intros [Hcd Hs]%andb_true_iff.
  cbn [replaceRegex_go]. rewrite matchLength_dashes.
  destruct (isDash c) eqn:Hc; [|by rewrite IH].
  cbn [andb negb] in Hcd. apply negb_true_iff in Hcd.
  assert (dropWhile isDash s = s) as ->.
  { destruct s as [|d r]; [done|]. cbn [headIsDash] in Hcd.
    cbn [dropWhile]. by rewrite Hcd. }
  rewrite Nat.sub_diag. cbv beta iota. rewrite IH by done.
  apply Ascii.eqb_eq in Hc as ->. reflexivity.
Qed.

Lemma dropLastDash_none s : lastIsDash s = false -> dropLastDash s = s.
Proof.
  induction s as [|c s IH]; [done|]. destruct s as [|d r].
  - cbn. by intros ->.
  - intros H. rewrite dropLastDash_cons, IH; done.
Qed.

Lemma dropLastDash_shorter s :
  lastIsDash s = true -> String.length (dropLastDash s) < String.length s.
Proof.
  induction s as [|c s IH]; [done|]. destruct s as [|d r].
  - cbn. intros ->. cbn. lia.
  - intros H. rewrite dropLastDash_cons. specialize (IH H).
    cbn [String.length] in *. lia.
Qed.

Lemma safeSlugToken_on_shaped r :
  slugShaped r -> safeSlugToken r = takeChars 120 (dropLastDash r).
Proof.
  intros (Hs & Hd & Hh). unfold safeSlugToken, slugify.
  rewrite toLowerCase_slug, trim_slug by done.
  rewrite replaceRegex_junk_none, replaceRegex_dashes_none by done.
  assert (dropFirstDash r = r) as ->; [|done].
  destruct r as [|c r]; [done|]. cbn in Hh |- *. by rewrite Hh.
Qed.

(** X26: the fixed points of [safeSlugToken] are exactly the names of at
    most 120 lower-case letters, digits and dashes with no two dashes in
    a row and no dash in front or at the end; so a result shorter than
    120 characters is sanitized to itself. *)
Theorem safeSlugToken_fixed_points r :
  (safeSlugToken r = r
   <-> slugShaped r /\ String.length r <= 120 /\ lastIsDash r = false)
  /\ (String.length (safeSlugToken r) < 120 ->
      safeSlugToken (safeSlugToken r) = safeSlugToken r).
Proof.
  assert (forall x, slugShaped x -> String.length x <= 120 ->
                    lastIsDash x = false -> safeSlugToken x = x) as Hfix.
  { intros x Hx Hlen Hl. rewrite safeSlugToken_on_shaped by done.
    rewrite dropLastDash_none by done. by apply takeChars_all. }
  assert (forall x, slugShaped (safeSlugToken x)
                    /\ String.length (safeSlugToken x) <= 120
                    /\ (String.length (safeSlugToken x) < 120 ->
                        lastIsDash (safeSlugToken x) = false)) as Hshape.
  { intros x. unfold safeSlugToken.
    destruct (slugify_shape (trim (toLowerCase x))) as [H1 H2].
    destruct (truncated_shape 120 _ H1 H2) as (H3 & H4 & H5).
    split_and!; [done|done|]. intros H. by apply H5. }
  split; [split|].
  - intros E. destruct (Hshape r) as (H1 & H2 & _). rewrite E in H1, H2.
    split_and!; [done|done|].
    destruct (lastIsDash r) eqn:Hl; [exfalso|done].
    apply dropLastDash_shorter in Hl.
    rewrite safeSlugToken_on_shaped in E by done.
    apply (f_equal String.length) in E. rewrite length_takeChars in E. lia.
  - intros (H1 & H2 & H3). by apply Hfix.
  - intros H. destruct (Hshape r) as (H1 & H2 & H3).
    apply Hfix; [done|lia|by apply H3].
Qed.

(** ** Where the text is split *)

Lemma str_app_nil_l a : EmptyString +:+ a = a.
Proof. reflexivity. Qed.

Lemma separator_not_nullable n s :
  Regex.matchLength oldUrlsSeparator s = Some n ->
  exists mm s', s = mm +:+ s' /\ allChars isSepOrWhite mm = true
                /\ n = String.length mm /\ n <> 0.
Proof.
  intros E. apply (matchLength_sound _ _ _ _ oldUrlsSeparator_classes) in E
    as (mm & s' & Hs & Hmm & Hn & Hnz).
  exists mm, s'. split_and!; try done. by apply Hnz.
Qed.

(** No separator starts at a character of a URL. *)
Lemma noLead_no_match t :
  noLead t -> Regex.matchLength oldUrlsSeparator t = None.
Proof.
  intros Ht. destruct (Regex.matchLength oldUrlsSeparator t) as [n|] eqn:E; [|done].
  exfalso. apply separator_not_nullable in E as (mm & s' & -> & Hmm & -> & Hnz).
  destruct mm as [|c mm]; [done|]. rewrite str_app_cons in Ht.
  cbn [allChars] in Hmm. apply andb_true_iff in Hmm as [Hc _].
  unfold noLead in Ht. congruence.
Qed.

Lemma noLead_white t : noLead t -> headIsWhite t = false.
Proof.
  destruct t as [|d t]; [done|]. unfold noLead, isSepOrWhite. cbn.
  by intros [? _]%orb_false_iff.
Qed.

Lemma noLead_sep t :
  noLead t -> match t with String d _ => isSep d = false | EmptyString => True end.
Proof.
  destruct t as [|d t]; [done|]. unfold noLead, isSepOrWhite.
  by intros [_ ?]%orb_false_iff.
Qed.

(** One white-space character that is no newline, before a URL or at
    the end of the text, is no separator. *)
Lemma white_alone_no_match c s :
  isWhite c = true -> isSep c = false -> noLead s ->
  Regex.matchLength oldUrlsSeparator (String c s) = None.
Proof.
  intros Hw Hc Hs. unfold Regex.matchLength, oldUrlsSeparator.
  change (Regex.matcher (Regex.Alt ?a ?b) ?x ?k)
    with (match Regex.matcher a x k with
          | Some y => Some y
          | None => Regex.matcher b x k
          end).
  assert (forall A (k : string -> option A),
            Regex.matcher (Regex.AtLeast2 (Regex.Chr isWhite)) (String c s) k = None)
    as ->.
  { intros A k. unfold Regex.AtLeast2. cbn [Regex.matcher]. rewrite Hw.
    pose proof (noLead_white s Hs) as Hh. destruct s as [|d s]; [done|].
    cbn in Hh. by rewrite Hh. }
  change (Regex.matcher (Regex.Seq (Regex.Star ?w) ?r) ?x ?k)
    with (Regex.starLoop (Regex.matcher w) (String.length x) x
            (fun s' => Regex.matcher r s' k)).
  cbn [String.length Regex.starLoop]. rewrite matcher_Chr, Hw.
  rewrite (sepPart_fails _ (String c s)) by exact Hc.
  assert ((String.length s <? S (String.length s)) = true) as ->
    by (apply Nat.ltb_lt; lia).
  rewrite starLoop_white_stuck by (by apply noLead_white).
  rewrite sepPart_fails; [done|]. by apply noLead_sep.
Qed.

Lemma starLoop_S {A} (m : string -> (string -> option A) -> option A)
    fuel s k :
  Regex.starLoop m (S fuel) s k
  = match m s (fun s' =>
                 if (String.length s' <? String.length s)%nat
                 then Regex.starLoop m fuel s' k else None) with
    | Some x => Some x
    | None => k s
    end.
Proof. reflexivity. Qed.

(** White space before a comma, semicolon or newline starts a
    separator. *)
Lemma white_sep_matches c d s :
  isWhite c = true -> isSep d = true ->
  Regex.matchLength oldUrlsSeparator (String c (String d s)) <> None.
Proof.
  intros Hw Hd. unfold Regex.matchLength, oldUrlsSeparator.
  change (Regex.matcher (Regex.Alt ?a ?b) ?x ?k)
    with (match Regex.matcher a x k with
          | Some y => Some y
          | None => Regex.matcher b x k
          end).
  change (Regex.matcher (Regex.Seq (Regex.Star ?w) ?r) ?x ?k)
    with (Regex.starLoop (Regex.matcher w) (String.length x) x
            (fun s' => Regex.matcher r s' k)).
  change (String.length (String c (String d s)))
    with (S (String.length (String d s))).
  rewrite starLoop_S, matcher_Chr, Hw.
  assert ((String.length (String d s) <? String.length (String c (String d s)))
          = true) as -> by (apply Nat.ltb_lt; cbn; lia).
  match goal with
  | |- context [Regex.starLoop ?m ?fuel ?x ?k] =>
      destruct (Regex.starLoop m fuel x k) eqn:E; [done|]
  end.
  exfalso. revert E. apply starLoop_total.
  cbn [Regex.matcher Regex.Plus]. rewrite Hd.
  apply starLoop_total, starLoop_total. done.
Qed.

(** A separator found in a run of padding ends within the run. *)
Lemma padding_prefix r t mm s' :
  noLead t -> r +:+ t = mm +:+ s' -> allChars isSepOrWhite mm = true ->
  String.length mm <= String.length r.
Proof.
  intros Ht. revert mm. induction r as [|c r IH]; intros mm Hs Hmm.
  - destruct mm as [|c mm]; [done|]. rewrite str_app_nil_l, str_app_cons in Hs.
    subst t. cbn [allChars] in Hmm. apply andb_true_iff in Hmm as [Hc _].
    unfold noLead in Ht. congruence.
  - destruct mm as [|c' mm]; [cbn; lia|]. rewrite !str_app_cons in Hs.
    injection Hs as -> Hs. cbn [allChars] in Hmm.
    apply andb_true_iff in Hmm as [_ Hmm]. specialize (IH mm Hs Hmm).
    cbn [String.length]. lia.
Qed.

Lemma padding_white c s :
  isSepOrWhite c = true ->
  Regex.matchLength oldUrlsSeparator (String c s) = None ->
  isWhite c = true.
Proof.
  intros Hc E. unfold isSepOrWhite in Hc. apply orb_true_iff in Hc as [Hc|Hc]; [done|].
  by apply (sep_matches c s) in Hc.
Qed.

(** The rest of a run of padding, once the fragment before it is closed
    or at the start of the text: it yields blank fragments only. *)
Lemma run_rest r skip w t :
  isPadding r -> noLead t -> allChars isWhite w = true ->
  skip <= String.length r ->
  exists ws w',
    Forall allWhite ws /\ allChars isWhite w' = true
    /\ Regex.split_go oldUrlsSeparator skip w (r +:+ t)
       = ws ++ Regex.split_go oldUrlsSeparator 0 w' t.
Proof.
  intros Hr Ht. revert skip w. induction r as [|c r IH]; intros skip w Hw Hskip.
  - cbn in Hskip. assert (skip = 0) as -> by lia. exists [], w. by split_and!.
  - unfold isPadding in Hr. cbn [allChars] in Hr.
    apply andb_true_iff in Hr as [Hc Hr]. specialize (IH Hr).
    rewrite str_app_cons. cbn [Regex.split_go]. destruct skip as [|k].
    + destruct (Regex.matchLength oldUrlsSeparator (String c (r +:+ t)))
        as [[|m]|] eqn:E.
      * by apply separator_not_nullable in E as (? & ? & _ & _ & _ & ?).
      * pose proof E as E'.
        apply separator_not_nullable in E' as (mm & s' & Hs & Hmm & Hn & _).
        rewrite <- str_app_cons in Hs.
        pose proof (padding_prefix _ _ _ _ Ht Hs Hmm) as Hle.
        cbn [String.length] in Hle.
        destruct (IH m EmptyString) as (ws & w' & Hws & Hw' & ->); [done|lia|].
        exists (w :: ws), w'. split_and!; [by constructor|done|done].
      * pose proof (padding_white _ _ Hc E) as Hcw.
        destruct (IH 0 (w +:+ String c EmptyString)) as (ws & w' & Hws & Hw' & ->).
        { rewrite allChars_app, Hw. cbn. by rewrite Hcw. }
        { lia. }
        by exists ws, w'.
    + cbn [String.length] in Hskip.
      destruct (IH k w) as (ws & w' & Hws & Hw' & ->); [done|lia|].
      by exists ws, w'.
Qed.

(** A separator after a fragment closes the fragment. *)
Lemma run_splits r g t :
  isSeparator r -> noLead t ->
  exists ws w',
    Forall allWhite ws /\ allChars isWhite w' = true
    /\ Regex.split_go oldUrlsSeparator 0 g (r +:+ t)
       = g :: ws ++ Regex.split_go oldUrlsSeparator 0 w' t.
Proof.
  intros [Hr Hsep] Ht. destruct r as [|c r].
  { destruct Hsep as [?|Hlen]; [done|]. cbn in Hlen. lia. }
  unfold isPadding in Hr. cbn [allChars] in Hr.
  apply andb_true_iff in Hr as [Hc Hr].
  assert (Regex.matchLength oldUrlsSeparator (String c (r +:+ t)) <> None) as Hm.
  { destruct (isSep c) eqn:Hcs; [by apply sep_matches|].
    assert (isWhite c = true) as Hcw.
    { unfold isSepOrWhite in Hc. rewrite Hcs, orb_false_r in Hc. done. }
    destruct r as [|d r].
    { exfalso. destruct Hsep as [Hs|Hlen]; [|cbn in Hlen; lia].
      unfold hasSep in Hs. cbn [allChars] in Hs. by rewrite Hcs in Hs. }
    rewrite str_app_cons. cbn [allChars] in Hr.
    apply andb_true_iff in Hr as [Hd _].
    destruct (isWhite d) eqn:Hdw; [by apply white2_matches|].
    apply white_sep_matches; [done|].
    unfold isSepOrWhite in Hd. by rewrite Hdw in Hd. }
  rewrite str_app_cons. cbn [Regex.split_go].
  destruct (Regex.matchLength oldUrlsSeparator (String c (r +:+ t)))
    as [[|m]|] eqn:E; [|clear Hm|done].
  - by apply separator_not_nullable in E as (? & ? & _ & _ & _ & ?).
  - apply separator_not_nullable in E as (mm & s' & Hs & Hmm & Hn & _).
    rewrite <- str_app_cons in Hs.
    pose proof (padding_prefix _ _ _ _ Ht Hs Hmm) as Hle.
    cbn [String.length] in Hle.
    destruct (run_rest r m EmptyString t) as (ws & w' & Hws & Hw' & ->);
      [done|done|done|lia|].
    by exists ws, w'.
Qed.

(** Padding at the end of the text adds white space to the last
    fragment, and blank fragments. *)
Lemma run_end r g :
  isPadding r ->
  exists w1 ws,
    allChars isWhite w1 = true /\ Forall allWhite ws
    /\ Regex.split_go oldUrlsSeparator 0 g r = (g +:+ w1) :: ws.
Proof.
  revert g. induction r as [|c r IH]; intros g Hr.
  - exists EmptyString, []. rewrite str_app_nil_r. by split_and!.
  - unfold isPadding in Hr. cbn [allChars] in Hr.
    apply andb_true_iff in Hr as [Hc Hr]. cbn [Regex.split_go].
    destruct (Regex.matchLength oldUrlsSeparator (String c r)) as [[|m]|] eqn:E.
    + by apply separator_not_nullable in E as (? & ? & _ & _ & _ & ?).
    + apply separator_not_nullable in E as (mm & s' & Hs & Hmm & Hn & _).
      rewrite <- (str_app_nil_r (String c r)) in Hs.
      pose proof (padding_prefix _ EmptyString _ _ I Hs Hmm) as Hle.
      cbn [String.length] in Hle.
      destruct (run_rest r m EmptyString EmptyString)
        as (ws & w' & Hws & Hw' & Hgo); [done|done|done|lia|].
      rewrite str_app_nil_r in Hgo. rewrite Hgo.
      exists EmptyString, (ws ++ [w']). rewrite str_app_nil_r.
      split_and!; [done| |done]. apply Forall_app. split; [done|].
      by apply Forall_singleton.
    + pose proof (padding_white _ _ Hc E) as Hcw.
      destruct (IH (g +:+ String c EmptyString) Hr) as (w1 & ws & Hw1 & Hws & ->).
      exists (String c w1), ws. split_and!; [|done|].
      * cbn [allChars]. by rewrite Hcw.
      * by rewrite str_app_assoc.
Qed.

(** Within a URL nothing is split, whatever follows it. *)
Lemma url_no_split s frag t :
  fragOk s -> lastIsWhite s = false ->
  Regex.split_go oldUrlsSeparator 0 frag (s +:+ t)
  = Regex.split_go oldUrlsSeparator 0 (frag +:+ s) t.
Proof.
  revert frag. induction s as [|c s IH]; intros frag Hok Hlast.
  - by rewrite str_app_nil_l, str_app_nil_r.
  - rewrite str_app_cons. cbn [Regex.split_go].
    assert (Regex.matchLength oldUrlsSeparator (String c (s +:+ t)) = None) as ->.
    { pose proof (fragOk_head c s Hok) as Hcs.
      destruct (isWhite c) eqn:Hcw.
      - apply white_alone_no_match; [done|done|].
        pose proof (fragOk_second c s Hok Hcw) as Hh.
        pose proof (fragOk_tail c s Hok) as Hok'.
        destruct s as [|d s]; [cbn in Hlast; congruence|].
        rewrite str_app_cons. cbn in Hh. unfold noLead, isSepOrWhite.
        by rewrite Hh, (fragOk_head d s Hok').
      - apply noLead_no_match. unfold noLead, isSepOrWhite. by rewrite Hcw, Hcs. }
    rewrite IH.
    + by rewrite str_app_assoc.
    + by apply (fragOk_tail c).
    + destruct s as [|d s]; [done|]. exact Hlast.
Qed.

Lemma dropWhile_app_all f w x :
  allChars f w = true -> dropWhile f (w +:+ x) = dropWhile f x.
Proof.
  induction w as [|c w IH]; [done|]. cbn [allChars].
  intros [Hc Hw]%andb_true_iff. rewrite str_app_cons. cbn [dropWhile].
  rewrite Hc. by apply IH.
Qed.

Lemma dropWhileEnd_all f w : allChars f w = true -> dropWhileEnd f w = EmptyString.
Proof.
  induction w as [|c w IH]; [done|]. cbn [allChars].
  intros [Hc Hw]%andb_true_iff. by rewrite dropWhileEnd_cons, IH, Hc.
Qed.

Lemma dropWhileEnd_app_all f x w :
  allChars f w = true -> dropWhileEnd f (x +:+ w) = dropWhileEnd f x.
Proof.
  intros Hw. induction x as [|c x IH].
  - rewrite str_app_nil_l. by apply dropWhileEnd_all.
  - by rewrite str_app_cons, !dropWhileEnd_cons, IH.
Qed.

Lemma trim_blank w : allChars isWhite w = true -> trim w = EmptyString.
Proof.
  intros Hw. unfold trim.
  rewrite <- (str_app_nil_r w), dropWhile_app_all by done. done.
Qed.

Lemma isUrlText_head f :
  isUrlText f -> exists c r, f = String c r /\ isWhite c = false /\ isSep c = false.
Proof.
  intros (Hne & Ht & Hok). destruct f as [|c r]; [done|]. exists c, r.
  split_and!; [done| |by apply (fragOk_head c r)].
  by apply (trim_head_keeps (String c r) c r).
Qed.

Lemma isUrlText_end f : isUrlText f -> dropWhileEnd isWhite f = f.
Proof.
  intros Hf. destruct (isUrlText_head f Hf) as (c & r & -> & Hc & _).
  destruct Hf as (_ & Ht & _). unfold trim in Ht. cbn [dropWhile] in Ht.
  by rewrite Hc in Ht.
Qed.

Lemma dropWhileEnd_fixed_last f s :
  dropWhileEnd f s = s ->
  match s with EmptyString => True | _ => dropWhileEnd f s <> EmptyString end.
Proof. destruct s; [done|]. by intros ->. Qed.

Lemma isUrlText_last f : isUrlText f -> lastIsWhite f = false.
Proof.
  intros Hf. pose proof (isUrlText_end f Hf) as He. clear Hf.
  induction f as [|c f IH]; [done|]. rewrite dropWhileEnd_cons in He.
  destruct (dropWhileEnd isWhite f) as [|d r] eqn:E.
  - destruct (isWhite c) eqn:Hc; [done|]. injection He as <-. cbn. done.
  - injection He as He. rewrite He in IH. specialize (IH eq_refl).
    destruct f as [|x f]; [done|]. exact IH.
Qed.

Lemma trim_url w f w1 :
  isUrlText f -> allChars isWhite w = true -> allChars isWhite w1 = true ->
  trim ((w +:+ f) +:+ w1) = f.
Proof.
  intros Hf Hw Hw1. pose proof (isUrlText_end f Hf) as He.
  destruct (isUrlText_head f Hf) as (c & r & -> & Hc & _).
  unfold trim. rewrite str_app_assoc, dropWhile_app_all by done.
  rewrite str_app_cons. cbn [dropWhile]. rewrite Hc.
  rewrite <- str_app_cons. by rewrite dropWhileEnd_app_all.
Qed.

Lemma trim_url_lead w f :
  isUrlText f -> allChars isWhite w = true -> trim (w +:+ f) = f.
Proof.
  intros Hf Hw. rewrite <- (str_app_nil_r (w +:+ f)). by apply trim_url.
Qed.

Lemma blanks_dropped ws :
  Forall allWhite ws -> filter (fun s => truthy s = true) (map trim ws) = [].
Proof.
  induction 1 as [|w ws Hw _ IH]; [done|]. cbn [map].
  rewrite filter_cons, (trim_blank w Hw), IH. by case_decide.
Qed.

Lemma weave_cons f rest trail :
  isUrlText f ->
  exists c y, weave f rest +:+ trail = String c y /\ isSepOrWhite c = false.
Proof.
  intros Hf. destruct (isUrlText_head f Hf) as (c & r & -> & Hcw & Hcs).
  destruct rest as [|[r1 f1] rest]; cbn [weave]; rewrite ?str_app_cons;
    eexists c, _; (split; [done|]); unfold isSepOrWhite; by rewrite Hcw, Hcs.
Qed.

Lemma noLead_weave f rest trail : isUrlText f -> noLead (weave f rest +:+ trail).
Proof.
  intros Hf. destruct (weave_cons f rest trail Hf) as (c & y & -> & Hc). exact Hc.
Qed.

(** The URLs of a woven text, from a fragment of white space on. *)
Lemma weave_split rest f w trail :
  allChars isWhite w = true -> isUrlText f ->
  Forall (fun rf => isSeparator rf.1 /\ isUrlText rf.2) rest ->
  isPadding trail ->
  filter (fun s => truthy s = true)
    (map trim (Regex.split_go oldUrlsSeparator 0 w (weave f rest +:+ trail)))
  = f :: map snd rest.
Proof.
  intros Hw Hf Hrest Htrail. revert f w Hw Hf.
  induction Hrest as [|[r f2] rest [Hr Hf2] _ IH]; intros f w Hw Hf.
  - cbn [weave]. destruct Hf as (Hne & Ht & Hok).
    rewrite url_no_split by (done || by apply isUrlText_last).
    destruct (run_end trail (w +:+ f) Htrail) as (w1 & ws & Hw1 & Hws & ->).
    cbn [map]. rewrite filter_cons, trim_url, blanks_dropped by done.
    rewrite decide_True by (by destruct f). done.
  - cbn [weave]. rewrite !str_app_assoc.
    rewrite url_no_split by (apply Hf || by apply isUrlText_last).
    cbn [fst snd] in Hr, Hf2.
    destruct (run_splits r (w +:+ f) (weave f2 rest +:+ trail) Hr)
      as (ws & w' & Hws & Hw' & ->); [by apply noLead_weave|].
    cbn [map]. rewrite filter_cons, trim_url_lead by done.
    rewrite decide_True by (destruct Hf as [Hne _]; by destruct f).
    rewrite map_app, filter_app, blanks_dropped by done.
    cbn [app snd]. f_equal. by apply IH.
Qed.

Lemma splitOldUrls_weave lead first rest trail :
  isPadding lead -> isPadding trail -> isUrlText first ->
  Forall (fun rf => isSeparator rf.1 /\ isUrlText rf.2) rest ->
  splitOldUrls (lead +:+ weave first rest +:+ trail) = first :: map snd rest.
Proof.
  intros Hlead Htrail Hf Hrest. unfold splitOldUrls.
  destruct (weave_cons first rest trail Hf) as (c & y & Hy & Hc).
  assert (Regex.split oldUrlsSeparator (lead +:+ weave first rest +:+ trail)
          = Regex.split_go oldUrlsSeparator 0 EmptyString
              (lead +:+ weave first rest +:+ trail)) as ->.
  { rewrite Hy. by destruct lead. }
  destruct (run_rest lead 0 EmptyString (weave first rest +:+ trail))
    as (ws & w' & Hws & Hw' & ->); [done|by apply noLead_weave|done|lia|].
  rewrite map_app, filter_app, blanks_dropped by done.
  by apply weave_split.
Qed.

(** Every text is such a weave, unless it is padding only. *)

Lemma isUrlText_iff f :
  isUrlText f
  <-> f <> EmptyString /\ headIsWhite f = false /\ lastIsWhite f = false /\ fragOk f.
Proof.
  split.
  - intros Hf. pose proof (isUrlText_last f Hf) as Hl.
    destruct (isUrlText_head f Hf) as (c & r & -> & Hc & _).
    destruct Hf as (Hne & _ & Hok). by split_and!.
  - intros (Hne & Hh & Hl & Hok). split_and!; [done| |done].
    unfold trim. assert (dropWhile isWhite f = f) as ->.
    { destruct f as [|c r]; [done|]. cbn in Hh. cbn [dropWhile]. by rewrite Hh. }
    clear Hne Hh Hok. induction f as [|c f IH]; [done|].
    rewrite dropWhileEnd_cons. destruct f as [|d r].
    + cbn in Hl. cbn. by rewrite Hl.
    + rewrite IH by exact Hl. done.
Qed.

Lemma noDoubleWhite_cons c d r :
  noDoubleWhite (String c (String d r))
  = negb (isWhite c && isWhite d) && noDoubleWhite (String d r).
Proof. reflexivity. Qed.

Lemma isUrlText_cons c f :
  isSepOrWhite c = false ->
  (f = EmptyString \/ isUrlText f
   \/ exists w r, f = String w r /\ isWhite w = true /\ isSep w = false
                   /\ isUrlText r) ->
  isUrlText (String c f).
Proof.
  unfold isSepOrWhite. intros [Hcw Hcs]%orb_false_iff Hf. apply isUrlText_iff.
  destruct Hf as [->|[Hf|(w & r & -> & Hw & Hws & Hr)]].
  - split_and!; [done|done|by cbn|]. split; cbn; [by rewrite Hcs|done].
  - apply isUrlText_iff in Hf as (Hne & Hh & Hl & Ha & Hn).
    destruct f as [|d r]; [done|]. split_and!; [done|done|exact Hl|].
    split.
    + cbn [allChars] in Ha |- *. by rewrite Hcs, Ha.
    + by rewrite noDoubleWhite_cons, Hcw, Hn.
  - apply isUrlText_iff in Hr as (Hne & Hh & Hl & Ha & Hn).
    destruct r as [|d r]; [done|]. split_and!; [done|done|exact Hl|].
    split.
    + cbn [allChars] in Ha |- *. by rewrite Hcs, Hws, Ha.
    + cbn in Hh. by rewrite !noDoubleWhite_cons, Hcw, Hh, andb_false_r, Hn.
Qed.

Lemma padding_cases lead :
  isPadding lead ->
  lead = EmptyString \/ isSeparator lead
  \/ exists w, lead = String w EmptyString /\ isWhite w = true /\ isSep w = false.
Proof.
  intros Hp. destruct lead as [|w [|x r]].
  - by left.
  - destruct (isSep w) eqn:Hw.
    + right. left. split; [done|]. left. unfold hasSep. cbn. by rewrite Hw.
    + right. right. exists w. split_and!; [done| |done].
      unfold isPadding, isSepOrWhite in Hp. cbn in Hp.
      by rewrite Hw, orb_false_r, andb_true_r in Hp.
  - right. left. split; [done|]. right. cbn. lia.
Qed.

Lemma weave_first c first rest :
  weave (String c first) rest = String c (weave first rest).
Proof. destruct rest as [|[r f] rest]; [done|]. cbn [weave]. by rewrite str_app_cons. Qed.

Lemma text_is_woven s :
  isPadding s
  \/ exists lead first rest trail,
       isPadding lead /\ isPadding trail /\ isUrlText first
       /\ Forall (fun rf => isSeparator rf.1 /\ isUrlText rf.2) rest
       /\ s = lead +:+ weave first rest +:+ trail.
Proof.
  induction s as [|c s IH]; [by left|].
  destruct (isSepOrWhite c) eqn:Hc.
  - destruct IH as [Hs|(lead & first & rest & trail & Hl & Ht & Hf & Hr & ->)].
    + left. unfold isPadding. cbn [allChars]. by rewrite Hc.
    + right. exists (String c lead), first, rest, trail.
      split_and!; try done. unfold isPadding. cbn [allChars]. by rewrite Hc.
  - right.
    destruct IH as [Hs|(lead & first & rest & trail & Hl & Ht & Hf & Hr & ->)].
    + exists EmptyString, (String c EmptyString), [], s.
      split_and!; try done. apply isUrlText_cons; [done|by left].
    + destruct (padding_cases lead Hl) as [->|[Hsep|(w & -> & Hw & Hws)]].
      * exists EmptyString, (String c first), rest, trail.
        split_and!; try done.
        -- apply isUrlText_cons; [done|]. right. by left.
        -- by rewrite weave_first, !str_app_nil_l, str_app_cons.
      * exists EmptyString, (String c EmptyString), ((lead, first) :: rest), trail.
        split_and!; try done.
        -- apply isUrlText_cons; [done|by left].
        -- by constructor.
        -- cbn [weave]. rewrite str_app_nil_l, !str_app_cons, str_app_nil_l.
           by rewrite str_app_assoc.
      * exists EmptyString, (String c (String w first)), rest, trail.
        split_and!; try done.
        -- apply isUrlText_cons; [done|]. right. right. by exists w, first.
        -- by rewrite !weave_first, !str_app_nil_l, !str_app_cons, str_app_nil_l.
Qed.

(** C8: the text is split at every run of white space, commas,
    semicolons and newlines that holds a comma, semicolon or newline or
    has two characters or more, and nowhere else: a text of URLs with such
    runs between them, and any such characters before the first and after
    the last, gives these URLs in their order. Every fragment
    [splitOldUrls] returns is non-empty, has no white space at either end,
    no comma, semicolon or newline, and no two white-space characters in a
    row; the characters of the input that are neither white space nor
    comma nor semicolon are those of the fragments, in the same order; a
    single space does not split; and the example of the specification
    gives the four URLs. Every text is padding only, and then gives no
    URL, or is such a text of URLs and separators. *)
Theorem splitOldUrls_fragments (oldUrls : string) :
  Forall isUrlText (splitOldUrls oldUrls)
  /\ filterChars keepChar (concatStr (splitOldUrls oldUrls))
     = filterChars keepChar oldUrls
  /\ (forall lead first rest trail,
        isPadding lead -> isPadding trail -> isUrlText first ->
        Forall (fun rf => isSeparator rf.1 /\ isUrlText rf.2) rest ->
        splitOldUrls (lead +:+ weave first rest +:+ trail)
        = first :: map snd rest)
  /\ (allChars isSepOrWhite oldUrls = true -> splitOldUrls oldUrls = [])
  /\ (allChars isSepOrWhite oldUrls = true
      \/ exists lead first rest trail,
           isPadding lead /\ isPadding trail /\ isUrlText first
           /\ Forall (fun rf => isSeparator rf.1 /\ isUrlText rf.2) rest
           /\ oldUrls = lead +:+ weave first rest +:+ trail)
  /\ splitOldUrls "a b" = ["a b"]
  /\ splitOldUrls ("a.com" +:+ String "010" "b.com; c.com,,  d.com")
     = ["a.com"; "b.com"; "c.com"; "d.com"].
Proof.
  split_and!; [| | | | |by vm_compute|by vm_compute].
  - apply Forall_forall. intros f Hf. by apply splitOldUrls_fragment in Hf.
  - apply splitOldUrls_content.
  - apply splitOldUrls_weave.
  - intros Hall. destruct oldUrls as [|c s]; [done|].
    unfold splitOldUrls, Regex.split.
    destruct (run_end (String c s) EmptyString Hall) as (w1 & ws & Hw1 & Hws & ->).
    rewrite str_app_nil_l. apply blanks_dropped. by constructor.
  - apply text_is_woven.
Qed.

(** The text [ a.com<LF>b.com ; c d.com,,  e.com,] with its three
    separators, a space in front and a comma at the end. *)
Lemma splitOldUrls_fragments_witness :
  splitOldUrls (" a.com" +:+ String "010" "b.com ; c d.com,,  e.com,")
  = ["a.com"; "b.com"; "c d.com"; "e.com"].
Proof.
  destruct (splitOldUrls_fragments EmptyString) as (_ & _ & H & _).
  apply (H " " "a.com"
           [(String "010" EmptyString, "b.com"); (" ; ", "c d.com"); (",,  ", "e.com")]
           ",").
  - by vm_compute.
  - by vm_compute.
  - split_and!; by vm_compute.
  - repeat constructor; by vm_compute.
Defined.
